(** * xLearn: the Loss base class (src/loss/loss.h) and its unit tests

    A shallow embedding of [getStart]/[getEnd], [Loss::Initialize],
    [Loss::Sigmoid], [Loss::Sign] and [Loss::sigmoid] from
    [src/loss/loss.h], together with the parts of the repository that
    [loss.h] only declares or includes (the score functions, [Predict],
    the class registry), which are modelled from the specification. *)

From Stdlib Require Import ZArith Lia List.
From Stdlib Require Import Floats.SpecFloat.
From Stdlib Require Import Reals Lra.
From stdpp Require Import base list strings gmap.

Local Open Scope Z_scope.

(** ** Outcomes of a call

    A call either returns, stops the process on a failed [CHECK_*]
    macro, or runs into behaviour the C++ standard leaves undefined
    (division by zero, signed overflow, an index outside a vector). *)

Inductive outcome (A : Type) : Type :=
| Ok (a : A)
| Fatal (diag : string)
| Undefined.

Arguments Ok {A} a.
Arguments Fatal {A} diag.
Arguments Undefined {A}.

#[global] Instance outcome_ret : MRet outcome := fun A a => Ok a.

#[global] Instance outcome_bind : MBind outcome := fun A B k c =>
  match c with
  | Ok a => k a
  | Fatal d => Fatal d
  | Undefined => Undefined
  end.

Definition returns {A : Type} (c : outcome A) : Prop := exists a, c = Ok a.

(** [for (i = from; i < from + n; ++i) body(i)], the state threaded
    through the iterations. *)
Fixpoint for_loop {S : Type} (from : nat) (n : nat)
    (body : nat -> S -> outcome S) (s : S) : outcome S :=
  match n with
  | O => Ok s
  | Datatypes.S n' => s' ← body from s; for_loop (Datatypes.S from) n' body s'
  end.

(** [v[i]] and [v[i] = x] on a [std::vector]: outside the vector the
    behaviour is undefined. *)
Definition vec_get {A : Type} (v : list A) (i : nat) : outcome A :=
  match v !! i with
  | Some x => Ok x
  | None => Undefined
  end.

Definition vec_set {A : Type} (v : list A) (i : nat) (x : A) : outcome (list A) :=
  if decide (i < length v)%nat then Ok (<[i:=x]> v) else Undefined.

(** ** Machine integers

    [int] is the 32-bit signed type; overflow of [+] and [-] on it is
    undefined.  [index_t] is declared in [src/base/common.h], which is
    not part of the sources at hand: it is taken as an unsigned type of
    [index_bits] bits, at least as wide as [int], so that an [int]
    operand is converted to it (modulo [2^index_bits]) before [/], [%]
    and [*], and the results wrap around. *)

Definition INT_MAX : Z := 2 ^ 31 - 1.
Definition INT_MIN : Z := - 2 ^ 31.

Definition in_int (z : Z) : bool := (INT_MIN <=? z) && (z <=? INT_MAX).

Definition int_add (a b : Z) : outcome Z :=
  if in_int (a + b) then Ok (a + b) else Undefined.

Definition int_sub (a b : Z) : outcome Z :=
  if in_int (a - b) then Ok (a - b) else Undefined.

Section IndexType.
Variable index_bits : Z.

Definition index_modulus : Z := 2 ^ index_bits.

Definition to_index (z : Z) : Z := z mod index_modulus.

Definition index_div (a b : Z) : outcome Z :=
  if b =? 0 then Undefined else Ok (a / b).

Definition index_rem (a b : Z) : outcome Z :=
  if b =? 0 then Undefined else Ok (a mod b).

Definition index_mul (a b : Z) : Z := (a * b) mod index_modulus.

Definition index_add (a b : Z) : Z := (a + b) mod index_modulus.

(** [getStart], loss.h:143. *)
Definition getStart (count : Z) (total id : Z) : outcome Z :=
  gap ← index_div count (to_index total);
  let start_id := index_mul (to_index id) gap in
  Ok start_id.

(** [getEnd], loss.h:149. *)
Definition getEnd (count : Z) (total id : Z) : outcome Z :=
  gap ← index_div count (to_index total);
  remain ← index_rem count (to_index total);
  id1 ← int_add id 1;
  let end_index := index_mul (to_index id1) gap in
  last ← int_sub total 1;
  if id =? last then Ok (index_add end_index remain) else Ok end_index.

(** The rows a thread gets, as a number: [getEnd - getStart]. *)
Definition range_size (count total id : Z) : Z :=
  match getStart count total id, getEnd count total id with
  | Ok s, Ok e => e - s
  | _, _ => 0
  end.

Definition in_range (count total id : Z) (row : Z) : Prop :=
  exists s e, getStart count total id = Ok s /\ getEnd count total id = Ok e /\
              s <= row < e.

Definition total_size (count total : Z) : Z :=
  fold_right Z.add 0
    (map (fun t => range_size count total (Z.of_nat t)) (seq 0 (Z.to_nat total))).
End IndexType.

(** ** [real_t]

    Modelled from the spec: [real_t] is declared in [src/base/common.h],
    which is not part of the sources at hand; the spec calls it [float]
    and [loss.h] writes its literals as [1.0f].  It is taken as IEEE 754
    binary32 (24 bits of precision, exponents below 128), with the
    round-to-nearest-even operations of the standard library's
    [SpecFloat]. *)

Definition real_t : Type := spec_float.

Definition real_prec : Z := 24.
Definition real_emax : Z := 128.

Definition real_add (a b : real_t) : real_t := SFadd real_prec real_emax a b.
Definition real_mul (a b : real_t) : real_t := SFmul real_prec real_emax a b.
Definition real_div (a b : real_t) : real_t := SFdiv real_prec real_emax a b.
Definition real_neg (a : real_t) : real_t := SFopp a.

(** An integer converted to [real_t]. *)
Definition real_of_Z (z : Z) : real_t := binary_normalize real_prec real_emax z 0 false.

(** [a >= b] and [a < b]: false as soon as an operand is a NaN. *)
Definition real_ge (a b : real_t) : bool :=
  match SFcompare a b with
  | Some Gt | Some Eq => true
  | _ => false
  end.

Definition real_lt (a b : real_t) : bool := SFltb a b.

(** ** The Loss class, loss.h:73 *)

(** The score functions a Loss can wrap ([src/score/*.h]). *)
Inductive Score : Type := LinearScore | FMScore | FFMScore.

(** Modelled from the spec: [ThreadPool] comes from
    [src/base/thread_pool.h], which is not part of the sources at hand;
    by section 5 it is a pool of a fixed number of workers, and only
    that number is kept. *)
Record ThreadPool : Type := mkThreadPool { pool_size : Z }.

Record Loss : Type := mkLoss {
  score_func_ : Score;
  norm_ : bool;
  pool_ : ThreadPool;
  threadNumber_ : Z
}.

(** [Loss::Initialize], loss.h:80.  [hardware_concurrency] is what
    [std::thread::hardware_concurrency()] answers on the machine; the
    C++ standard lets it be 0 when the number is not computable. *)
Definition Initialize (hardware_concurrency : Z) (score : Score) (norm : bool) : Loss :=
  {| score_func_ := score;
     norm_ := norm;
     pool_ := mkThreadPool hardware_concurrency;
     threadNumber_ := hardware_concurrency |}.

(** Modelled from the spec: [CHECK_EQ] is a macro of the logging header
    behind [src/base/common.h], which is not part of the sources at
    hand.  By the spec a failed check is fatal: the process terminates
    with a diagnostic. *)
Definition CHECK_EQ (a b : nat) : outcome unit :=
  if decide (a = b) then Ok tt else Fatal "Check failed: CHECK_EQ".

(** [Loss::sigmoid], loss.h:124.  [expf] is the C library's exponential
    at [float]; it is no code of this repository and is left open.

    The source writes the unqualified [exp(-x)] with [x] a [float], and
    the headers that decide which [exp] this is are not part of the
    sources at hand.  This definition is the code where the call
    resolves to the [float] overload: the sum and the quotient are
    binary32 operations.  Where it resolves to [::exp(double)] the code
    is [sigmoid64] below. *)
Definition sigmoid (expf : real_t -> real_t) (x : real_t) : real_t :=
  real_div (real_of_Z 1) (real_add (real_of_Z 1) (expf (real_neg x))).

(** ** [Loss::sigmoid] with [exp] at [double]

    Where the unqualified [exp] of loss.h:125 resolves to
    [::exp(double)], the usual arithmetic conversions make the whole
    expression a [double] one: [-x] is converted to [double] and handed
    to [exp], [1.0f] is converted for the sum and for the quotient, both
    are binary64 operations, and the quotient is rounded to [float] once,
    by the [return]. *)

Definition double_t : Type := spec_float.

Definition double_prec : Z := 53.
Definition double_emax : Z := 1024.

(** [float] to [double]: exact. *)
Definition to_double (x : real_t) : double_t :=
  match x with
  | S754_finite s m e => binary_normalize double_prec double_emax (cond_Zopp s (Zpos m)) e s
  | _ => x
  end.

(** [double] to [float]: to the nearest, ties to even. *)
Definition to_float (d : double_t) : real_t :=
  match d with
  | S754_finite s m e => binary_normalize real_prec real_emax (cond_Zopp s (Zpos m)) e s
  | _ => d
  end.

(** [2^e] as a [double] *)
Definition double_pow2 (e : Z) : double_t :=
  binary_normalize double_prec double_emax 1 e false.

Definition sigmoid64 (exp : double_t -> double_t) (x : real_t) : real_t :=
  to_float
    (SFdiv double_prec double_emax (to_double (real_of_Z 1))
       (SFadd double_prec double_emax (to_double (real_of_Z 1))
          (exp (to_double (real_neg x))))).

(** [Loss::Sigmoid], loss.h:104. *)
Definition Sigmoid (expf : real_t -> real_t) (pred new_pred : list real_t)
    : outcome (list real_t) :=
  _ ← CHECK_EQ (length pred) (length new_pred);
  for_loop 0 (length pred)
    (fun i new_pred => x ← vec_get pred i; vec_set new_pred i (sigmoid expf x))
    new_pred.

(** [Loss::Sign], loss.h:114. *)
Definition Sign (pred new_pred : list real_t) : outcome (list real_t) :=
  _ ← CHECK_EQ (length pred) (length new_pred);
  for_loop 0 (length pred)
    (fun i new_pred =>
       x ← vec_get pred i;
       vec_set new_pred i (if real_ge x (real_of_Z 0) then real_of_Z 1 else real_of_Z 0))
    new_pred.

(** Modelled from the spec: [Evalute] is pure virtual in [Loss]; the
    variants that implement it (squared_loss, cross_entropy_loss,
    hinge_loss) are not part of the sources at hand.  By the spec it is
    the mean per-sample loss of equal-length sequences, and mismatched
    lengths are a fatal invariant violation.  [per_sample] is the
    variant's loss of one prediction and its label. *)
Definition Evalute (per_sample : real_t -> real_t -> real_t)
    (pred label : list real_t) : outcome real_t :=
  _ ← CHECK_EQ (length pred) (length label);
  sum ← for_loop 0 (length pred)
          (fun i acc =>
             p ← vec_get pred i;
             y ← vec_get label i;
             Ok (real_add acc (per_sample p y)))
          (real_of_Z 0);
  Ok (real_div sum (real_of_Z (Z.of_nat (length pred)))).

(** ** The exponential of the C library

    [exp] is no code of this repository.  What the properties of
    [sigmoid] ask of it is little: [exp(±0)] is 1 (C11, F.10.3.1), and
    for [x >= 20] the value [exp(-x)] is a binary32 number between 0 and
    [2^-26] (the exact [e^-20] is about [2^-28.9], so this leaves room
    for an error of a factor 7). *)

(** [2^e] *)
Definition real_pow2 (e : Z) : real_t := binary_normalize real_prec real_emax 1 e false.

(** A binary32 number of [[0, 2^-26]]. *)
Definition tiny (f : real_t) : bool :=
  valid_binary real_prec real_emax f
  && SFleb (real_of_Z 0) f
  && SFleb f (real_pow2 (-26)).

Definition libm_exp (expf : real_t -> real_t) : Prop :=
  expf (S754_zero false) = real_of_Z 1 /\
  expf (S754_zero true) = real_of_Z 1 /\
  forall x, real_ge x (real_of_Z 20) = true -> tiny (expf (real_neg x)) = true.

(** An exponential that keeps the order: on every number its value is
    a valid binary32 number that is not negative, and a larger argument
    never gets a smaller value. *)
Definition exp_monotone (expf : real_t -> real_t) : Prop :=
  (forall x, x <> S754_nan ->
     valid_binary real_prec real_emax (expf x) = true /\
     real_ge (expf x) (real_of_Z 0) = true) /\
  (forall x y, real_ge y x = true -> real_ge (expf y) (expf x) = true).

(** A function with these properties, to show that they can be met:
    1 at zero, 0 below it, infinite above it. *)
Definition expf_coarse (x : real_t) : real_t :=
  match x with
  | S754_zero _ => real_of_Z 1
  | S754_finite true _ _ | S754_infinity true => S754_zero false
  | S754_finite false _ _ | S754_infinity false => S754_infinity false
  | S754_nan => S754_nan
  end.

(** The function the spec names, [x ↦ 1/(1+exp(-x))], on the real
    numbers. *)
Definition sigmoid_R (x : R) : R := (1 / (1 + exp (- x)))%R.

(** ** The class registry

    Modelled from the spec: [CLASS_REGISTER_DEFINE_REGISTRY],
    [CLASS_REGISTER_OBJECT_CREATOR] and [CLASS_REGISTER_CREATE_OBJECT]
    come from [src/base/class_register.h], and the [REGISTER_LOSS]
    lines sit next to the loss variants; neither is part of the sources
    at hand.  By the spec the registry is a lookup table from a name to
    a creator, the registered names are "squared", "hinge" and
    "cross-entropy", and a miss answers a null result. *)

Inductive LossVariant : Type := SquaredLoss | HingeLoss | CrossEntropyLoss.

Definition REGISTER_LOSS (format_name : string) (creator : unit -> LossVariant)
    (registry : gmap string (unit -> LossVariant)) : gmap string (unit -> LossVariant) :=
  <[format_name := creator]> registry.

Definition xLearn_loss_registry : gmap string (unit -> LossVariant) :=
  REGISTER_LOSS "cross-entropy" (fun _ => CrossEntropyLoss)
    (REGISTER_LOSS "hinge" (fun _ => HingeLoss)
       (REGISTER_LOSS "squared" (fun _ => SquaredLoss) ∅)).

(** [CREATE_LOSS], loss.h:171; [None] is the null pointer. *)
Definition CREATE_LOSS (format_name : string) : option LossVariant :=
  creator ← xLearn_loss_registry !! format_name; Some (creator tt).

(** [CreateLoss], loss_test.cc:239. *)
Definition CreateLoss (format_name : string) : option LossVariant :=
  CREATE_LOSS format_name.

(** ** Data: sparse rows, batches and the model

    Modelled from the spec: [DMatrix], [SparseRow] and [Model] come from
    [src/data/data_structure.h] and [src/data/model_parameters.h], which
    are not part of the sources at hand; the records follow section 3 of
    the spec and the way [loss_test.cc] fills them. *)

Record Node : Type := mkNode {
  feat_id : Z;
  feat_val : real_t;
  field_id : Z
}.

Definition SparseRow : Type := list Node.

Record DMatrix : Type := mkDMatrix {
  Y : list real_t;
  row : list SparseRow
}.

Definition row_length (matrix : DMatrix) : Z := Z.of_nat (length (row matrix)).

Record Model : Type := mkModel {
  num_feat : Z;
  num_field : Z;
  num_K : Z;
  param_w : list real_t;
  param_v : list real_t;
  param_b : real_t
}.

(** Modelled from the spec: [Model::Initialize] sizes [w] as
    [num_feature] and [v] as [num_feature * num_K] for fm and
    [num_feature * num_field * num_K] for ffm; a linear model has no
    [v].  The bias is kept in a slot of its own. *)
Definition Model_Initialize (score : Score) (num_feature num_field num_K : Z) : Model :=
  {| num_feat := num_feature;
     num_field := num_field;
     num_K := num_K;
     param_w := replicate (Z.to_nat num_feature) (real_of_Z 0);
     param_v :=
       match score with
       | LinearScore => []
       | FMScore => replicate (Z.to_nat (num_feature * num_K)) (real_of_Z 0)
       | FFMScore => replicate (Z.to_nat (num_feature * num_field * num_K)) (real_of_Z 0)
       end;
     param_b := real_of_Z 0 |}.

(** A fold that stops at the first failure. *)
Fixpoint fold_outcome {A S : Type} (f : S -> A -> outcome S) (l : list A) (s : S)
    : outcome S :=
  match l with
  | [] => Ok s
  | a :: l' => s' ← f s a; fold_outcome f l' s'
  end.

(** The pairs [(l_i, l_j)] with [i < j], in row order. *)
Fixpoint pairs {A : Type} (l : list A) : list (A * A) :=
  match l with
  | [] => []
  | a :: l' => map (pair a) l' ++ pairs l'
  end.

(** ** Score functions

    Modelled from the spec: [CalcScore] lives in [src/score/*.cc], which
    are not part of the sources at hand.  By section 4.1 it is the bias
    plus the linear term [Σ w[i]·x_i], plus for fm the pairwise term
    [Σ_{i<j} <v_i,v_j>·x_i·x_j], plus for ffm the field-aware pairwise
    term [Σ_{i<j} <v_{i,field(j)}, v_{j,field(i)}>·x_i·x_j];
    [norm_factor] rescales the row's contribution.  The latent vector of
    feature [i] is the slice [v[i·K .. i·K+K)], and the one of feature
    [i] for field [f] is the slice at [(i·num_field + f)·K]. *)

Definition linear_term (w : list real_t) (r : SparseRow) : outcome real_t :=
  fold_outcome
    (fun score n =>
       wi ← vec_get w (Z.to_nat (feat_id n));
       Ok (real_add score (real_mul wi (feat_val n))))
    r (real_of_Z 0).

(** [<v[off1 .. off1+K), v[off2 .. off2+K)>] *)
Definition dot (v : list real_t) (K : Z) (off1 off2 : Z) : outcome real_t :=
  for_loop 0 (Z.to_nat K)
    (fun k acc =>
       a ← vec_get v (Z.to_nat off1 + k)%nat;
       b ← vec_get v (Z.to_nat off2 + k)%nat;
       Ok (real_add acc (real_mul a b)))
    (real_of_Z 0).

Definition fm_term (m : Model) (r : SparseRow) : outcome real_t :=
  fold_outcome
    (fun score '(ni, nj) =>
       d ← dot (param_v m) (num_K m) (feat_id ni * num_K m) (feat_id nj * num_K m);
       Ok (real_add score (real_mul (real_mul d (feat_val ni)) (feat_val nj))))
    (pairs r) (real_of_Z 0).

(** By sections 4.1 and 7 a field index outside [[0, num_field)] is an
    invariant violation for ffm: a fatal check, not an error to recover
    from. *)
Definition CHECK_field (m : Model) (n : Node) : outcome unit :=
  if (0 <=? field_id n) && (field_id n <? num_field m) then Ok tt
  else Fatal "Check failed: field index out of range".

Definition ffm_term (m : Model) (r : SparseRow) : outcome real_t :=
  _ ← fold_outcome (fun _ n => CHECK_field m n) r tt;
  fold_outcome
    (fun score '(ni, nj) =>
       d ← dot (param_v m) (num_K m)
             ((feat_id ni * num_field m + field_id nj) * num_K m)
             ((feat_id nj * num_field m + field_id ni) * num_K m);
       Ok (real_add score (real_mul (real_mul d (feat_val ni)) (feat_val nj))))
    (pairs r) (real_of_Z 0).

Definition CalcScore (score : Score) (r : SparseRow) (m : Model) (norm_factor : real_t)
    : outcome real_t :=
  linear ← linear_term (param_w m) r;
  pairwise ← match score with
             | LinearScore => Ok (real_of_Z 0)
             | FMScore => fm_term m r
             | FFMScore => ffm_term m r
             end;
  Ok (real_add (param_b m) (real_mul norm_factor (real_add linear pairwise))).

(** ** [Loss::Predict]

    Modelled from the spec: [Predict] is declared at loss.h:92 and
    defined in [src/loss/loss.cc], which is not part of the sources at
    hand.  By section 4.2 it sets [pred[row] = CalcScore(row, model,
    norm)] for every row, the rows being split over the threads of the
    pool in the ranges of [getStart]/[getEnd]; by section 5 all range
    jobs have finished when it returns and their ranges are disjoint, so
    the jobs are run here one after the other.  [instance_norm] is the
    normalisation factor of a row, used when the Loss was initialised
    with [norm]; the spec gives no formula for it. *)

Section PredictModel.
Variable index_bits : Z.
Variable instance_norm : SparseRow -> real_t.

Definition norm_of (loss : Loss) (r : SparseRow) : real_t :=
  if norm_ loss then instance_norm r else real_of_Z 1.

(** The job of one thread: the rows of [[start_idx, end_idx)]. *)
Definition pred_thread (loss : Loss) (matrix : DMatrix) (start_idx end_idx : Z)
    (st : Model * list real_t) : outcome (Model * list real_t) :=
  for_loop (Z.to_nat start_idx) (Z.to_nat (end_idx - start_idx))
    (fun i '(model, pred) =>
       r ← vec_get (row matrix) i;
       s ← CalcScore (score_func_ loss) r model (norm_of loss r);
       pred' ← vec_set pred i s;
       Ok (model, pred'))
    st.

Definition Predict (loss : Loss) (matrix : DMatrix) (model : Model)
    (pred : list real_t) : outcome (Model * list real_t) :=
  for_loop 0 (Z.to_nat (threadNumber_ loss))
    (fun t st =>
       start_idx ← getStart index_bits (row_length matrix) (threadNumber_ loss) (Z.of_nat t);
       end_idx ← getEnd index_bits (row_length matrix) (threadNumber_ loss) (Z.of_nat t);
       pred_thread loss matrix start_idx end_idx st)
    (model, pred).
(** The same jobs, run to completion in the order in which a schedule
    of the pool picks them: section 5 only promises that all of them
    are done when [Predict] returns. *)
Definition Predict_scheduled (schedule : list nat) (loss : Loss) (matrix : DMatrix)
    (model : Model) (pred : list real_t) : outcome (Model * list real_t) :=
  fold_outcome
    (fun st t =>
       start_idx ← getStart index_bits (row_length matrix) (threadNumber_ loss) (Z.of_nat t);
       end_idx ← getEnd index_bits (row_length matrix) (threadNumber_ loss) (Z.of_nat t);
       pred_thread loss matrix start_idx end_idx st)
    schedule (model, pred).

(** Whether row [i] lies in the range of thread [t]. *)
Definition owns_row (count total : Z) (t i : nat) : bool :=
  match getStart index_bits count total (Z.of_nat t),
        getEnd index_bits count total (Z.of_nat t) with
  | Ok s, Ok e => (s <=? Z.of_nat i) && (Z.of_nat i <? e)
  | _, _ => false
  end.
End PredictModel.

(** ** The fixtures of loss_test.cc *)

Definition kLine : Z := 10.

(** [LossTest::SetUp], loss_test.cc:60. *)
Definition param_num_feature : Z := 3.
Definition param_num_field : Z := 3.
Definition param_num_K : Z := 24.

(** [for (i < num_w) w[i] = x] and the same loop on [v]. *)
Definition fill_w (x : real_t) (m : Model) : Model :=
  {| num_feat := num_feat m; num_field := num_field m; num_K := num_K m;
     param_w := replicate (length (param_w m)) x;
     param_v := param_v m;
     param_b := param_b m |}.

Definition fill_v (x : real_t) (m : Model) : Model :=
  {| num_feat := num_feat m; num_field := num_field m; num_K := num_K m;
     param_w := param_w m;
     param_v := replicate (length (param_v m)) x;
     param_b := param_b m |}.

Definition model_lr : Model :=
  fill_w (real_of_Z 2)
    (Model_Initialize LinearScore param_num_feature param_num_field param_num_K).

Definition model_fm : Model :=
  fill_v (real_of_Z 1)
    (fill_w (real_of_Z 2)
       (Model_Initialize FMScore param_num_feature param_num_field param_num_K)).

Definition model_ffm : Model :=
  fill_v (real_of_Z 1)
    (fill_w (real_of_Z 2)
       (Model_Initialize FFMScore param_num_feature param_num_field param_num_K)).

(** [matrix.AddNode(i, j, 1.0)] for [j < num_feature]: the field
    defaults to 0; the FFM test passes [j] as the field. *)
Definition unit_row (with_fields : bool) : SparseRow :=
  map (fun j => mkNode (Z.of_nat j) (real_of_Z 1) (if with_fields then Z.of_nat j else 0))
      (seq 0 (Z.to_nat param_num_feature)).

Definition test_matrix (with_fields : bool) : DMatrix :=
  {| Y := replicate (Z.to_nat kLine) (real_of_Z 0);
     row := replicate (Z.to_nat kLine) (unit_row with_fields) |}.

(** The six predictions of [Sigmoid_Test] and [Sign_Test],
    loss_test.cc:194: 0.5, 3, 20, -0.5, -3, -20. *)
Definition real_half : real_t := real_div (real_of_Z 1) (real_of_Z 2).

Definition test_pred : list real_t :=
  [real_half; real_of_Z 3; real_of_Z 20;
   real_neg real_half; real_of_Z (-3); real_of_Z (-20)].

(** ** [Sigmoid] and [Sign] called in place

    [pred] is taken by const reference and [new_pred] by reference, so
    a caller may pass one vector for both, as in [loss.Sign(v, v)]: the
    two names then denote one object, every [new_pred[i] = ...] is a
    write into the vector [pred[i]] is read from, and [pred.size()],
    read again at each round, is the size of that vector. *)
Definition Sigmoid_inplace (expf : real_t -> real_t) (v : list real_t)
    : outcome (list real_t) :=
  _ ← CHECK_EQ (length v) (length v);
  for_loop 0 (length v)
    (fun i v => x ← vec_get v i; vec_set v i (sigmoid expf x))
    v.

Definition Sign_inplace (v : list real_t) : outcome (list real_t) :=
  _ ← CHECK_EQ (length v) (length v);
  for_loop 0 (length v)
    (fun i v =>
       x ← vec_get v i;
       vec_set v i (if real_ge x (real_of_Z 0) then real_of_Z 1 else real_of_Z 0))
    v.

(** ** The value of a binary32 number

    A finite number with mantissa [m] and exponent [e] is [m·2^e]; all
    binary32 exponents are at least [-149], so the value counted in
    units of [2^-149], the smallest positive binary32 number, is an
    integer.  A representation is canonical when it is the one IEEE 754
    fixes: 24 significant bits, or fewer at the lowest exponent. *)
Definition ulps (m e : Z) : Z := m * 2 ^ (e + 149).

Definition canonical32 (m : positive) (e : Z) : Prop :=
  -149 <= e <= 104 /\ Zpos m < 2 ^ 24 /\ (e = -149 \/ 2 ^ 23 <= Zpos m).

(** The binary32 number of mantissa [M <= 2^24] at exponent [E], as
    the rounding function assembles it. *)
Definition pack32 (M E : Z) : real_t :=
  if M =? 0 then S754_zero false
  else if M =? 2 ^ 24 then
    (if E + 1 <=? 104 then S754_finite false (Z.to_pos (2 ^ 23)) (E + 1)
     else S754_infinity false)
  else if E <=? 104 then S754_finite false (Z.to_pos M) E
  else S754_infinity false.

(** Where an exact number lies between two consecutive mantissas: the
    location [l] that the rounding function carries says how the
    fraction [num/den] of a unit that has been cut off compares with 0
    and with 1/2. *)
Definition loc_at (l : location) (num den : Z) : Prop :=
  match l with
  | loc_Exact => num = 0
  | loc_Inexact Lt => 0 < num /\ 2 * num < den
  | loc_Inexact Eq => 2 * num = den
  | loc_Inexact Gt => den < 2 * num
  end.

(** Rounding to nearest, ties to even: what is added to the mantissa
    [m] when the fraction [P/Q] of a unit is cut off. *)
Definition nearest_even_carry (m P Q : Z) : Z :=
  match 2 * P ?= Q with
  | Lt => 0
  | Eq => if Z.even m then 0 else 1
  | Gt => 1
  end.

(** The binary32 number nearest to [(m + num/den)·2^e]. *)
Definition round32 (m e num den : Z) : real_t :=
  let e1 := fexp real_prec real_emax (Zdigits2 m + e) in
  let m1 := m / 2 ^ (e1 - e) in
  pack32 (m1 + nearest_even_carry m1 ((m mod 2 ^ (e1 - e)) * den + num)
                                  (2 ^ (e1 - e) * den))
         e1.

(** ** The test [Sigmoid_Test], loss_test.cc:193

    [Sigmoid] on the six scores of [test_pred] and a fresh output vector
    of the same size; the test expects the first three results to be
    greater than 0.5 and the last three to be less. *)
Definition Sigmoid_Test (expf : real_t -> real_t) : outcome bool :=
  new_pred ← Sigmoid expf test_pred (replicate (length test_pred) (real_of_Z 0));
  Ok (forallb (fun r => real_lt real_half r) (take 3 new_pred)
      && forallb (fun r => real_lt r real_half) (drop 3 new_pred)).

(** * Properties *)

(** ** Row partitioning: [getStart] and [getEnd] *)

Lemma in_int_spec (z : Z) : in_int z = true <-> INT_MIN <= z <= INT_MAX.
Proof. unfold in_int. rewrite andb_true_iff, !Z.leb_le. tauto. Qed.

Lemma int_add_in (a b : Z) :
  INT_MIN <= a + b <= INT_MAX -> int_add a b = Ok (a + b).
Proof.
  intros H. unfold int_add. apply in_int_spec in H. now rewrite H.
Qed.

Lemma int_sub_in (a b : Z) :
  INT_MIN <= a - b <= INT_MAX -> int_sub a b = Ok (a - b).
Proof.
  intros H. unfold int_sub. apply in_int_spec in H. now rewrite H.
Qed.

Section Partition.
Variable w : Z.
Hypothesis index_wide : 32 <= w.

Lemma int_max_lt_modulus : INT_MAX < index_modulus w.
Proof.
  unfold INT_MAX, index_modulus.
  assert (2 ^ 32 <= 2 ^ w) by (apply Z.pow_le_mono_r; lia).
  lia.
Qed.

Lemma to_index_small (z : Z) : 0 <= z < index_modulus w -> to_index w z = z.
Proof. intros H. unfold to_index. now apply Z.mod_small. Qed.

Lemma to_index_int (z : Z) : 0 <= z <= INT_MAX -> to_index w z = z.
Proof.
  intros H. apply to_index_small. pose proof int_max_lt_modulus. lia.
Qed.

Section Rows.
Variables N T : Z.
Hypothesis count_range : 0 <= N < index_modulus w.
Hypothesis total_range : 1 <= T <= INT_MAX.

Local Abbreviation gap := (N / T).

Lemma gap_bounds : 0 <= gap /\ T * gap <= N /\ N = T * gap + N mod T /\ 0 <= N mod T < T.
Proof.
  pose proof (Z.div_mod N T ltac:(lia)).
  pose proof (Z.mod_pos_bound N T ltac:(lia)).
  pose proof (Z.div_pos N T ltac:(lia) ltac:(lia)).
  lia.
Qed.

Lemma getStart_value (t : Z) :
  0 <= t < T -> getStart w N T t = Ok (t * gap).
Proof.
  intros Ht. pose proof gap_bounds as (Hg & Hle & _).
  unfold getStart, index_div.
  rewrite (to_index_int T), (to_index_int t) by lia.
  destruct (Z.eqb_spec T 0) as [|_]; [lia|]. cbn.
  unfold index_mul. f_equal. apply Z.mod_small. nia.
Qed.

Lemma getEnd_value (t : Z) :
  0 <= t < T ->
  getEnd w N T t =
    Ok (if t =? T - 1 then (t + 1) * gap + N mod T else (t + 1) * gap).
Proof.
  intros Ht. pose proof gap_bounds as (Hg & Hle & Hdm & Hm).
  unfold getEnd, index_div, index_rem.
  rewrite (to_index_int T) by lia.
  destruct (Z.eqb_spec T 0) as [|_]; [lia|]. cbn.
  rewrite int_add_in by (unfold INT_MIN, INT_MAX in *; lia). cbn.
  rewrite int_sub_in by (unfold INT_MIN, INT_MAX in *; lia). cbn.
  rewrite (to_index_int (t + 1)) by lia.
  unfold index_mul, index_add.
  assert (((t + 1) * gap) mod index_modulus w = (t + 1) * gap) as ->
    by (apply Z.mod_small; nia).
  destruct (Z.eqb_spec t (T - 1)) as [->|_]; [|reflexivity].
  f_equal. apply Z.mod_small. nia.
Qed.

Lemma getEnd_last : getEnd w N T (T - 1) = Ok N.
Proof.
  rewrite getEnd_value by lia. rewrite Z.eqb_refl.
  pose proof gap_bounds. f_equal. lia.
Qed.

Lemma range_ordered (t s e : Z) :
  0 <= t < T -> getStart w N T t = Ok s -> getEnd w N T t = Ok e ->
  0 <= s <= e /\ e <= N.
Proof.
  intros Ht Hs He. rewrite getStart_value in Hs by lia.
  rewrite getEnd_value in He by lia.
  pose proof gap_bounds as (Hg & Hle & Hdm & Hm).
  injection Hs as <-. destruct (Z.eqb_spec t (T - 1)); injection He as <-; nia.
Qed.

Lemma range_contiguous (t : Z) :
  0 <= t < T - 1 -> getEnd w N T t = getStart w N T (t + 1).
Proof.
  intros Ht. rewrite getEnd_value, getStart_value by lia.
  destruct (Z.eqb_spec t (T - 1)); [lia|reflexivity].
Qed.

Lemma range_disjoint (t1 t2 e1 s2 : Z) :
  0 <= t1 -> t1 < t2 -> t2 < T ->
  getEnd w N T t1 = Ok e1 -> getStart w N T t2 = Ok s2 -> e1 <= s2.
Proof.
  intros H0 H12 H2 He Hs. rewrite getEnd_value in He by lia.
  rewrite getStart_value in Hs by lia.
  pose proof gap_bounds as (Hg & _).
  destruct (Z.eqb_spec t1 (T - 1)); [lia|].
  injection He as <-. injection Hs as <-. nia.
Qed.

Lemma in_range_iff (t r : Z) :
  0 <= t < T ->
  in_range w N T t r <->
  t * gap <= r < (if t =? T - 1 then N else (t + 1) * gap).
Proof.
  intros Ht. unfold in_range. rewrite getStart_value, getEnd_value by lia.
  pose proof gap_bounds as (Hg & Hle & Hdm & Hm).
  split.
  - intros (s & e & Hs & He & Hr). injection Hs as <-.
    destruct (Z.eqb_spec t (T - 1)); injection He as <-; nia.
  - intros Hr. eexists _, _. split; [reflexivity|]. split; [reflexivity|].
    destruct (Z.eqb_spec t (T - 1)); nia.
Qed.

Lemma range_cover (r : Z) :
  0 <= r < N ->
  exists t, 0 <= t < T /\ in_range w N T t r /\
            forall t', 0 <= t' < T -> in_range w N T t' r -> t' = t.
Proof.
  intros Hr. pose proof gap_bounds as (Hg & Hle & Hdm & Hm).
  destruct (Z_lt_le_dec r ((T - 1) * gap)) as [Hlow|Hhigh].
  - assert (0 < gap) by nia.
    pose proof (Z.div_mod r gap ltac:(lia)).
    pose proof (Z.mod_pos_bound r gap ltac:(lia)).
    assert (0 <= r / gap) by (apply Z.div_pos; lia).
    assert (r / gap < T - 1) by nia.
    exists (r / gap). split; [lia|]. split.
    + apply in_range_iff; [lia|].
      destruct (Z.eqb_spec (r / gap) (T - 1)); [lia|]. nia.
    + intros t' Ht' Hin. apply in_range_iff in Hin; [|lia].
      destruct (Z.eqb_spec t' (T - 1)); nia.
  - exists (T - 1). split; [lia|]. split.
    + apply in_range_iff; [lia|]. rewrite Z.eqb_refl. lia.
    + intros t' Ht' Hin. apply in_range_iff in Hin; [|lia].
      destruct (Z.eqb_spec t' (T - 1)); [lia|]. nia.
Qed.

Lemma range_size_value (t : Z) :
  0 <= t < T ->
  range_size w N T t = if t =? T - 1 then gap + N mod T else gap.
Proof.
  intros Ht. unfold range_size. rewrite getStart_value, getEnd_value by lia.
  destruct (Z.eqb_spec t (T - 1)); lia.
Qed.

Lemma sizes_below (k : nat) :
  Z.of_nat k <= T - 1 ->
  fold_right Z.add 0 (map (fun t => range_size w N T (Z.of_nat t)) (seq 0 k))
  = Z.of_nat k * gap.
Proof.
  induction k as [|k IH]; intros Hk; [reflexivity|].
  rewrite seq_S, map_app, fold_right_app. cbn [map fold_right Nat.add].
  rewrite range_size_value by lia.
  destruct (Z.eqb_spec (Z.of_nat k) (T - 1)); [lia|].
  assert (forall (l : list Z) a, fold_right Z.add a l = fold_right Z.add 0 l + a) as Hacc.
  { induction l as [|x l IHl]; intros a; cbn; [lia|rewrite IHl; lia]. }
  rewrite Hacc, IH by lia. lia.
Qed.

Lemma total_size_value : total_size w N T = N.
Proof.
  unfold total_size.
  assert (Z.to_nat T = S (Z.to_nat (T - 1))) as -> by lia.
  rewrite seq_S, map_app, fold_right_app. cbn [map fold_right Nat.add].
  rewrite range_size_value by lia.
  assert (Z.of_nat (Z.to_nat (T - 1)) = T - 1) as -> by lia.
  rewrite Z.eqb_refl.
  assert (forall (l : list Z) a, fold_right Z.add a l = fold_right Z.add 0 l + a) as Hacc.
  { induction l as [|x l IHl]; intros a; cbn; [lia|rewrite IHl; lia]. }
  rewrite Hacc, sizes_below by lia.
  rewrite Z2Nat.id by lia.
  pose proof gap_bounds. lia.
Qed.
End Rows.
End Partition.

(** C1.  For every row count [N] (an [index_t]) and every thread count
    [T >= 1] (an [int]), the ranges [[getStart N T t, getEnd N T t)] of
    the threads [t = 0 .. T-1] are as the spec says: thread [t < T-1]
    owns [[t·⌊N/T⌋, (t+1)·⌊N/T⌋)] and the last one also takes the
    [N mod T] rows left over; the ranges are contiguous (the first
    starts at 0, each ends where the next starts, the last ends at [N]),
    pairwise disjoint, cover [[0, N)] exactly, every row lying in one
    range only, and their sizes sum to [N]. *)
Theorem row_partition (w N T : Z) :
  32 <= w -> 0 <= N < 2 ^ w -> 1 <= T <= INT_MAX ->
  (forall t, 0 <= t < T - 1 ->
     getStart w N T t = Ok (t * (N / T)) /\
     getEnd w N T t = Ok ((t + 1) * (N / T))) /\
  (getStart w N T (T - 1) = Ok ((T - 1) * (N / T)) /\
   getEnd w N T (T - 1) = Ok (T * (N / T) + N mod T)) /\
  getStart w N T 0 = Ok 0 /\
  (forall t, 0 <= t < T - 1 -> getEnd w N T t = getStart w N T (t + 1)) /\
  getEnd w N T (T - 1) = Ok N /\
  (forall t s e, 0 <= t < T ->
     getStart w N T t = Ok s -> getEnd w N T t = Ok e -> 0 <= s <= e /\ e <= N) /\
  (forall t1 t2 e1 s2, 0 <= t1 -> t1 < t2 -> t2 < T ->
     getEnd w N T t1 = Ok e1 -> getStart w N T t2 = Ok s2 -> e1 <= s2) /\
  (forall t1 t2 r, 0 <= t1 < T -> 0 <= t2 < T ->
     in_range w N T t1 r -> in_range w N T t2 r -> t1 = t2) /\
  (forall r, 0 <= r < N <-> exists t, 0 <= t < T /\ in_range w N T t r) /\
  total_size w N T = N.
Proof.
  intros Hw HN HT. fold (index_modulus w) in HN.
  assert (forall t r, 0 <= t < T -> in_range w N T t r -> 0 <= r < N) as Hin.
  { intros t r Ht (s & e & Hs & He & Hr).
    pose proof (range_ordered w Hw N T HN HT t s e Ht Hs He). lia. }
  split_and!.
  - intros t Ht. rewrite getStart_value, getEnd_value by (assumption || lia).
    destruct (Z.eqb_spec t (T - 1)); [lia|]. split; reflexivity.
  - now rewrite getStart_value by (assumption || lia).
  - rewrite getEnd_value by (assumption || lia). rewrite Z.eqb_refl.
    do 2 f_equal. lia.
  - now rewrite getStart_value by (assumption || lia).
  - intros t Ht. now apply range_contiguous.
  - now apply getEnd_last.
  - intros t s e Ht Hs He. pose proof (range_ordered w Hw N T HN HT t s e Ht Hs He). lia.
  - intros t1 t2 e1 s2. now apply range_disjoint.
  - intros t1 t2 r Ht1 Ht2 H1 H2.
    destruct (range_cover w Hw N T HN HT r (Hin t1 r Ht1 H1)) as (t & _ & _ & Huniq).
    rewrite (Huniq t1 Ht1 H1). now rewrite (Huniq t2 Ht2 H2).
  - intros r. split.
    + intros Hr. destruct (range_cover w Hw N T HN HT r Hr) as (t & Ht & Hrange & _).
      eauto.
    + intros (t & Ht & Hrange). eauto.
  - now apply total_size_value.
Qed.

Lemma row_partition_witness :
  (32 <= 32 /\ 0 <= 10 < 2 ^ 32 /\ 1 <= 4 <= INT_MAX) /\
  getStart 32 10 4 3 = Ok 6 /\ getEnd 32 10 4 3 = Ok 10 /\ total_size 32 10 4 = 10.
Proof.
  assert (32 <= 32) as Hw by lia.
  assert (0 <= 10 < 2 ^ 32) as HN by lia.
  assert (1 <= 4 <= INT_MAX) as HT by (unfold INT_MAX; lia).
  split; [auto|].
  destruct (row_partition 32 10 4 Hw HN HT) as (_ & (Hs & He) & _ & _ & _ & _ & _ & _ & _ & Hsum).
  split; [exact Hs|]. split; [exact He|exact Hsum].
Defined.

(** ** The thread count must be positive *)

Lemma getStart_returns_iff (w count total id : Z) :
  32 <= w -> 0 <= total <= INT_MAX ->
  returns (getStart w count total id) <-> 1 <= total.
Proof.
  intros Hw Ht. unfold getStart, index_div.
  rewrite (to_index_int w Hw total Ht).
  destruct (Z.eqb_spec total 0) as [->|Hne]; cbn.
  - split; [intros (a & Ha); discriminate|lia].
  - split; [lia|]. intros _. eexists. reflexivity.
Qed.

Lemma getEnd_returns_iff (w count total id : Z) :
  32 <= w -> 0 <= total <= INT_MAX -> 0 <= id < INT_MAX ->
  returns (getEnd w count total id) <-> 1 <= total.
Proof.
  intros Hw Ht Hid. unfold getEnd, index_div, index_rem.
  rewrite (to_index_int w Hw total Ht).
  destruct (Z.eqb_spec total 0) as [->|Hne]; cbn.
  - split; [intros (a & Ha); discriminate|lia].
  - rewrite int_add_in by (unfold INT_MIN, INT_MAX in *; lia). cbn.
    rewrite int_sub_in by (unfold INT_MIN, INT_MAX in *; lia). cbn.
    split; [lia|]. intros _. destruct (id =? total - 1); eexists; reflexivity.
Qed.

(** C10.  [getStart] and [getEnd] divide (and take the remainder) by
    the thread count without a guard: for a thread count [total] in
    [[0, INT_MAX]] the division is by zero exactly when [total = 0],
    both functions return exactly when [total >= 1], and with
    [total = 0] both run into the undefined division.  [Initialize]
    stores whatever [hardware_concurrency()] answers, so an answer of 0
    gives a Loss whose thread count makes both functions undefined. *)
Theorem thread_count_precondition (w count total id : Z) :
  32 <= w -> 0 <= total <= INT_MAX -> 0 <= id < INT_MAX ->
  (index_div count (to_index w total) = Undefined <-> total = 0) /\
  (index_rem count (to_index w total) = Undefined <-> total = 0) /\
  (returns (getStart w count total id) <-> 1 <= total) /\
  (returns (getEnd w count total id) <-> 1 <= total) /\
  (total = 0 ->
     getStart w count total id = Undefined /\ getEnd w count total id = Undefined) /\
  (forall score norm,
     threadNumber_ (Initialize 0 score norm) = 0 /\
     getStart w count (threadNumber_ (Initialize 0 score norm)) id = Undefined /\
     getEnd w count (threadNumber_ (Initialize 0 score norm)) id = Undefined).
Proof.
  intros Hw Ht Hid.
  assert (forall c, getStart w c 0 id = Undefined /\ getEnd w c 0 id = Undefined) as Hzero.
  { intros c. unfold getStart, getEnd, index_div.
    rewrite (to_index_int w Hw 0) by (unfold INT_MAX; lia). split; reflexivity. }
  split_and!.
  - unfold index_div. rewrite (to_index_int w Hw total Ht).
    destruct (Z.eqb_spec total 0); [tauto|].
    split; [intros H; discriminate H|intros H; contradiction].
  - unfold index_rem. rewrite (to_index_int w Hw total Ht).
    destruct (Z.eqb_spec total 0); [tauto|].
    split; [intros H; discriminate H|intros H; contradiction].
  - now apply getStart_returns_iff.
  - now apply getEnd_returns_iff.
  - intros ->. apply Hzero.
  - intros score norm. cbn. split; [reflexivity|]. apply Hzero.
Qed.

Lemma thread_count_precondition_witness :
  (32 <= 32 /\ 0 <= 0 <= INT_MAX /\ 0 <= 0 < INT_MAX) /\
  getStart 32 10 0 0 = Undefined /\ getEnd 32 10 0 0 = Undefined.
Proof.
  assert (32 <= 32) as Hw by lia.
  assert (0 <= 0 <= INT_MAX) as Ht by (unfold INT_MAX; lia).
  assert (0 <= 0 < INT_MAX) as Hid by (unfold INT_MAX; lia).
  split; [auto|].
  destruct (thread_count_precondition 32 10 0 0 Hw Ht Hid) as (_ & _ & _ & _ & Hz & _).
  exact (Hz eq_refl).
Defined.

(** ** Elementwise loops: [Sigmoid] and [Sign] *)

Lemma CHECK_EQ_same (n : nat) : CHECK_EQ n n = Ok tt.
Proof. unfold CHECK_EQ. now rewrite decide_True. Qed.

Lemma CHECK_EQ_differ (a b : nat) : a <> b -> exists d, CHECK_EQ a b = Fatal d.
Proof. intros H. unfold CHECK_EQ. rewrite decide_False by assumption. eauto. Qed.

Lemma bind_Ok {A B : Type} (a : A) (k : A -> outcome B) : (Ok a ≫= k) = k a.
Proof. reflexivity. Qed.

Lemma vec_get_Some {A : Type} (v : list A) (i : nat) (x : A) :
  v !! i = Some x -> vec_get v i = Ok x.
Proof. intros H. unfold vec_get. now rewrite H. Qed.

Lemma vec_set_lt {A : Type} (v : list A) (i : nat) (x : A) :
  (i < length v)%nat -> vec_set v i x = Ok (<[i:=x]> v).
Proof. intros H. unfold vec_set. now rewrite decide_True. Qed.

(** The loop [for (i < src.size()) dst[i] = f(src[i])], started at
    [k] with [n] rounds to go: it leaves the first [k] slots of [dst]
    alone and fills the others with the images of [src]. *)
Lemma elementwise_loop {A B : Type} (f : A -> B) (src : list A) (n : nat) :
  forall (k : nat) (dst : list B),
    (k + n)%nat = length src -> length dst = length src ->
    for_loop k n (fun i d => x ← vec_get src i; vec_set d i (f x)) dst
    = Ok (take k dst ++ (f <$> drop k src)).
Proof.
  induction n as [|n IH]; intros k dst Hk Hlen.
  - cbn. rewrite take_ge, drop_ge by lia. cbn. now rewrite app_nil_r.
  - cbn [for_loop].
    destruct (lookup_lt_is_Some_2 src k ltac:(lia)) as [x Hx].
    rewrite (vec_get_Some _ _ _ Hx). cbn.
    rewrite vec_set_lt by lia. cbn.
    rewrite IH by (rewrite ?length_insert; lia).
    f_equal.
    rewrite (take_S_r _ _ (f x)) by (apply list_lookup_insert_eq; lia).
    rewrite take_insert_ge by lia.
    rewrite (drop_S src x k Hx). cbn. now rewrite <- app_assoc.
Qed.

Lemma elementwise_whole {A B : Type} (f : A -> B) (src : list A) (dst : list B) :
  length src = length dst ->
  for_loop 0 (length src) (fun i d => x ← vec_get src i; vec_set d i (f x)) dst
  = Ok (f <$> src).
Proof.
  intros Hlen. rewrite elementwise_loop by lia. now rewrite take_0, drop_0.
Qed.

Lemma Sigmoid_value (expf : real_t -> real_t) (pred new_pred : list real_t) :
  length pred = length new_pred ->
  Sigmoid expf pred new_pred = Ok (sigmoid expf <$> pred).
Proof.
  intros Hlen. unfold Sigmoid. rewrite Hlen, CHECK_EQ_same. cbn.
  rewrite <- Hlen. now apply elementwise_whole.
Qed.

Lemma Sign_value (pred new_pred : list real_t) :
  length pred = length new_pred ->
  Sign pred new_pred
  = Ok ((fun x => if real_ge x (real_of_Z 0) then real_of_Z 1 else real_of_Z 0) <$> pred).
Proof.
  intros Hlen. unfold Sign. rewrite Hlen, CHECK_EQ_same. cbn.
  rewrite <- Hlen. now apply (elementwise_whole _ pred new_pred).
Qed.

Lemma real_lt_not_ge (a b : real_t) : real_lt a b = true -> real_ge a b = false.
Proof.
  unfold real_lt, real_ge, SFltb.
  destruct (SFcompare a b) as [[]|]; intros H; (reflexivity || discriminate H).
Qed.

(** C5.  For vectors of equal length [Sign] returns, its result has the
    length of [pred], and slot [i] holds 1 when [pred[i] >= 0] and 0 when
    [pred[i] < 0]; whatever [pred[i]] is (a NaN included) the slot holds
    1 or 0 and nothing else.  On the six values of [Sign_Test] it gives
    1, 1, 1, 0, 0, 0. *)
Theorem Sign_elementwise (pred new_pred : list real_t) :
  length pred = length new_pred ->
  (exists out,
     Sign pred new_pred = Ok out /\
     length out = length pred /\
     forall i x, pred !! i = Some x ->
       (real_ge x (real_of_Z 0) = true -> out !! i = Some (real_of_Z 1)) /\
       (real_lt x (real_of_Z 0) = true -> out !! i = Some (real_of_Z 0)) /\
       (out !! i = Some (real_of_Z 1) \/ out !! i = Some (real_of_Z 0))) /\
  Sign test_pred (replicate 6 (real_of_Z 0))
  = Ok [real_of_Z 1; real_of_Z 1; real_of_Z 1; real_of_Z 0; real_of_Z 0; real_of_Z 0].
Proof.
  intros Hlen. split; [|reflexivity].
  eexists. split; [now apply Sign_value|]. split; [now rewrite length_fmap|].
  intros i x Hx. rewrite list_lookup_fmap, Hx.
  cbn [fmap option_fmap option_map]. split_and!.
  - now intros ->.
  - intros Hlt. now rewrite (real_lt_not_ge _ _ Hlt).
  - destruct (real_ge x (real_of_Z 0)); [left|right]; reflexivity.
Qed.

Lemma Sign_elementwise_witness :
  length test_pred = length (replicate 6 (real_of_Z 0)) /\
  exists out, Sign test_pred (replicate 6 (real_of_Z 0)) = Ok out /\
              out !! 3%nat = Some (real_of_Z 0).
Proof.
  assert (length test_pred = length (replicate 6 (real_of_Z 0))) as Hlen by reflexivity.
  split; [exact Hlen|].
  destruct (Sign_elementwise test_pred (replicate 6 (real_of_Z 0)) Hlen)
    as ((out & Hout & _ & Hall) & _).
  exists out. split; [exact Hout|].
  apply (Hall 3%nat (real_neg real_half)); reflexivity.
Defined.

(** ** Mismatched lengths *)

Lemma Evalute_returns (per_sample : real_t -> real_t -> real_t)
    (pred label : list real_t) :
  length pred = length label -> returns (Evalute per_sample pred label).
Proof.
  intros Hlen. unfold Evalute. rewrite Hlen, CHECK_EQ_same, bind_Ok. rewrite <- Hlen.
  assert (forall n k acc, (k + n <= length pred)%nat ->
            returns (for_loop k n
                       (fun i acc => p ← vec_get pred i; y ← vec_get label i;
                                     Ok (real_add acc (per_sample p y))) acc)) as Hloop.
  { induction n as [|n IH]; intros k acc Hk; [eexists; reflexivity|].
    cbn [for_loop].
    destruct (lookup_lt_is_Some_2 pred k ltac:(lia)) as [p Hp].
    destruct (lookup_lt_is_Some_2 label k ltac:(lia)) as [y Hy].
    rewrite (vec_get_Some _ _ _ Hp), bind_Ok, (vec_get_Some _ _ _ Hy), !bind_Ok.
    apply IH. lia. }
  destruct (Hloop (length pred) 0%nat (real_of_Z 0) ltac:(lia)) as [sum Hsum].
  rewrite Hsum, bind_Ok. eexists. reflexivity.
Qed.

(** C8.  With vectors of different lengths [Evalute], [Sigmoid] and
    [Sign] stop at their [CHECK_EQ]: the outcome is fatal, with a
    diagnostic, and no result is returned.  With equal lengths the check
    passes and each of them returns. *)
Theorem mismatched_lengths_fatal (expf : real_t -> real_t)
    (per_sample : real_t -> real_t -> real_t) (pred other : list real_t) :
  (length pred <> length other ->
     (exists d, Evalute per_sample pred other = Fatal d) /\
     (exists d, Sigmoid expf pred other = Fatal d) /\
     (exists d, Sign pred other = Fatal d)) /\
  (length pred = length other ->
     returns (Evalute per_sample pred other) /\
     returns (Sigmoid expf pred other) /\
     returns (Sign pred other)).
Proof.
  split.
  - intros Hne. destruct (CHECK_EQ_differ _ _ Hne) as [d Hd].
    unfold Evalute, Sigmoid, Sign. rewrite Hd.
    split_and!; exists d; reflexivity.
  - intros Hlen. split_and!.
    + now apply Evalute_returns.
    + rewrite Sigmoid_value by assumption. eexists. reflexivity.
    + rewrite Sign_value by assumption. eexists. reflexivity.
Qed.

Lemma mismatched_lengths_fatal_witness :
  length test_pred <> length (replicate 5 (real_of_Z 0)) /\
  (exists d, Sign test_pred (replicate 5 (real_of_Z 0)) = Fatal d) /\
  length test_pred = length (replicate 6 (real_of_Z 0)) /\
  returns (Sign test_pred (replicate 6 (real_of_Z 0))).
Proof.
  assert (length test_pred <> length (replicate 5 (real_of_Z 0))) as Hne by (cbn; lia).
  assert (length test_pred = length (replicate 6 (real_of_Z 0))) as Heq by reflexivity.
  split; [exact Hne|]. split.
  - apply (mismatched_lengths_fatal (fun x => x) (fun p _ => p) test_pred
             (replicate 5 (real_of_Z 0))). exact Hne.
  - split; [exact Heq|].
    apply (mismatched_lengths_fatal (fun x => x) (fun p _ => p) test_pred
             (replicate 6 (real_of_Z 0))). exact Heq.
Defined.

(** ** The registry of loss functions *)

(** C7.  Creating a Loss by a registered name ("squared", "hinge",
    "cross-entropy") answers an object, the one registered under that
    name; the empty name, "unknow_name" and every other name that was
    not registered answer the null result, and nothing is thrown: a name
    gets an object exactly when it is one of the three. *)
Theorem CreateLoss_registered :
  CreateLoss "squared" = Some SquaredLoss /\
  CreateLoss "hinge" = Some HingeLoss /\
  CreateLoss "cross-entropy" = Some CrossEntropyLoss /\
  CreateLoss "" = None /\
  CreateLoss "unknow_name" = None /\
  (forall name : string,
     name <> "squared" -> name <> "hinge" -> name <> "cross-entropy" ->
     CreateLoss name = None) /\
  (forall name : string,
     CreateLoss name <> None <->
     name = "squared" \/ name = "hinge" \/ name = "cross-entropy").
Proof.
  assert (forall name : string,
            name <> "squared" -> name <> "hinge" -> name <> "cross-entropy" ->
            CreateLoss name = None) as Hmiss.
  { intros name H1 H2 H3.
    unfold CreateLoss, CREATE_LOSS, xLearn_loss_registry, REGISTER_LOSS.
    rewrite !lookup_insert_ne by congruence. now rewrite lookup_empty. }
  split_and!; try reflexivity; try exact Hmiss.
  intros name. split.
  - intros Hsome.
    destruct (decide (name = "squared")) as [|H1]; [tauto|].
    destruct (decide (name = "hinge")) as [|H2]; [tauto|].
    destruct (decide (name = "cross-entropy")) as [|H3]; [tauto|].
    now rewrite Hmiss in Hsome.
  - intros [-> | [-> | ->]]; discriminate.
Qed.

Lemma CreateLoss_registered_witness :
  ("unknow_name" <> "squared" /\ "unknow_name" <> "hinge" /\
   "unknow_name" <> "cross-entropy") /\
  CreateLoss "unknow_name" = None.
Proof.
  assert ("unknow_name" <> "squared") as H1 by discriminate.
  assert ("unknow_name" <> "hinge") as H2 by discriminate.
  assert ("unknow_name" <> "cross-entropy") as H3 by discriminate.
  split; [auto|].
  destruct CreateLoss_registered as (_ & _ & _ & _ & _ & Hmiss & _).
  exact (Hmiss "unknow_name" H1 H2 H3).
Defined.

(** ** [Predict] *)

Lemma for_loop_invariant {S : Type} (P : S -> Prop) (body : nat -> S -> outcome S) :
  (forall i s s', P s -> body i s = Ok s' -> P s') ->
  forall n k s s', P s -> for_loop k n body s = Ok s' -> P s'.
Proof.
  intros Hbody. induction n as [|n IH]; intros k s s' HP Hrun; cbn in Hrun.
  - injection Hrun as <-. exact HP.
  - destruct (body k s) as [s1| |] eqn:Hstep; cbn in Hrun; try discriminate Hrun.
    eapply IH; [|exact Hrun]. eauto.
Qed.

(** Rows [s .. e) of [scores] written over a vector that already holds
    the first [s] scores. *)
Lemma splice_step {A : Type} (scores pred : list A) (s e : nat) :
  (s <= e)%nat -> (e <= length scores)%nat ->
  take s (take s scores ++ drop s pred)
    ++ take (e - s) (drop s scores)
    ++ drop e (take s scores ++ drop s pred)
  = take e scores ++ drop e pred.
Proof.
  intros Hse He.
  rewrite take_app_length' by (rewrite length_take_le; lia).
  rewrite drop_app_ge by (rewrite length_take_le; lia).
  rewrite length_take_le by lia.
  rewrite drop_drop, app_assoc, take_take_drop.
  now replace (s + (e - s))%nat with e by lia.
Qed.

Section PredictRuns.
Variable w : Z.
Variable instance_norm : SparseRow -> real_t.
Variables (loss : Loss) (matrix : DMatrix) (model : Model).
Variable scores : list real_t.

Hypothesis index_wide : 32 <= w.
Hypothesis threads : 1 <= threadNumber_ loss <= INT_MAX.
Hypothesis rows_fit : row_length matrix < 2 ^ w.
Hypothesis row_scores :
  Forall2 (fun r s => CalcScore (score_func_ loss) r model (norm_of instance_norm loss r) = Ok s)
          (row matrix) scores.

Local Abbreviation T := (threadNumber_ loss).
Local Abbreviation N := (row_length matrix).
Local Abbreviation bound k :=
  (if Z.of_nat k =? T then N else Z.of_nat k * (N / T)).

Lemma pred_thread_loop (n : nat) :
  forall (k : nat) (p : list real_t),
    (k + n <= length (row matrix))%nat -> length p = length (row matrix) ->
    for_loop k n
      (fun i '(model, pred) =>
         r ← vec_get (row matrix) i;
         s ← CalcScore (score_func_ loss) r model (norm_of instance_norm loss r);
         pred' ← vec_set pred i s;
         Ok (model, pred'))
      (model, p)
    = Ok (model, take k p ++ take n (drop k scores) ++ drop (k + n) p).
Proof.
  pose proof (Forall2_length _ _ _ row_scores) as Hlen.
  induction n as [|n IH]; intros k p Hk Hp.
  - cbn [for_loop]. rewrite Nat.add_0_r, take_0. cbn [app]. now rewrite take_drop.
  - cbn [for_loop].
    destruct (lookup_lt_is_Some_2 (row matrix) k ltac:(lia)) as [r Hr].
    destruct (Forall2_lookup_l _ _ _ _ _ row_scores Hr) as (s & Hs & Hscore).
    rewrite (vec_get_Some _ _ _ Hr), bind_Ok, Hscore, bind_Ok.
    rewrite vec_set_lt by lia. rewrite !bind_Ok.
    rewrite IH by (rewrite ?length_insert; lia). do 2 f_equal.
    rewrite (take_S_r _ _ s) by (apply list_lookup_insert_eq; lia).
    rewrite take_insert_ge by lia.
    rewrite drop_insert_lt by lia.
    rewrite (drop_S scores s k Hs). cbn [take].
    rewrite <- app_assoc. cbn [app].
    now replace (k + S n)%nat with (S k + n)%nat by lia.
Qed.

Lemma pred_thread_value (s e : Z) (p : list real_t) :
  0 <= s <= e -> e <= N -> length p = length (row matrix) ->
  pred_thread instance_norm loss matrix s e (model, p)
  = Ok (model,
        take (Z.to_nat s) p
          ++ take (Z.to_nat e - Z.to_nat s) (drop (Z.to_nat s) scores)
          ++ drop (Z.to_nat e) p).
Proof.
  intros Hse He Hp. unfold pred_thread, row_length in *.
  rewrite pred_thread_loop by lia.
  replace (Z.to_nat (e - s)) with (Z.to_nat e - Z.to_nat s)%nat by lia.
  now replace (Z.to_nat s + (Z.to_nat e - Z.to_nat s))%nat with (Z.to_nat e) by lia.
Qed.

Lemma bound_ordered (k : nat) :
  Z.of_nat k < T -> 0 <= bound k <= bound (S k) /\ bound (S k) <= N.
Proof.
  intros Hk.
  assert (0 <= N < index_modulus w) as HN by (unfold row_length, index_modulus in *; lia).
  pose proof (gap_bounds w N T HN threads) as (Hg & Hle & Hdm & Hm).
  destruct (Z.eqb_spec (Z.of_nat k) T); [lia|].
  destruct (Z.eqb_spec (Z.of_nat (S k)) T); nia.
Qed.

Lemma Predict_loop (pred : list real_t) (n : nat) :
  length pred = length (row matrix) ->
  forall k : nat,
    (k + n)%nat = Z.to_nat T ->
    for_loop k n
      (fun t st =>
         start_idx ← getStart w N T (Z.of_nat t);
         end_idx ← getEnd w N T (Z.of_nat t);
         pred_thread instance_norm loss matrix start_idx end_idx st)
      (model, take (Z.to_nat (bound k)) scores ++ drop (Z.to_nat (bound k)) pred)
    = Ok (model, scores).
Proof.
  intros Hpred.
  pose proof (Forall2_length _ _ _ row_scores) as Hlen.
  assert (0 <= N < index_modulus w) as HN by (unfold row_length, index_modulus in *; lia).
  induction n as [|n IH]; intros k Hk.
  - cbn. assert (Z.of_nat k = T) as -> by lia. rewrite Z.eqb_refl.
    unfold row_length. rewrite Nat2Z.id.
    rewrite take_ge, drop_ge by lia. now rewrite app_nil_r.
  - cbn [for_loop].
    assert (Z.of_nat k < T) as Hlt by lia.
    pose proof (bound_ordered k Hlt) as (Hb1 & Hb2).
    specialize (IH (S k) ltac:(lia)).
    remember (bound (S k)) as e eqn:He in *.
    destruct (Z.eqb_spec (Z.of_nat k) T) as [|_]; [lia|].
    rewrite (getStart_value w index_wide N T HN threads) by lia. rewrite bind_Ok.
    rewrite (getEnd_value w index_wide N T HN threads) by lia. rewrite bind_Ok.
    assert ((if Z.of_nat k =? T - 1
             then (Z.of_nat k + 1) * (N / T) + N mod T
             else (Z.of_nat k + 1) * (N / T)) = e) as ->.
    { pose proof (gap_bounds w N T HN threads) as (Hg & Hle & Hdm & Hm).
      subst e.
      destruct (Z.eqb_spec (Z.of_nat k) (T - 1));
        destruct (Z.eqb_spec (Z.of_nat (S k)) T); lia. }
    rewrite pred_thread_value; [|lia|lia|].
    + rewrite bind_Ok. rewrite splice_step by (unfold row_length in *; lia).
      exact IH.
    + rewrite length_app, length_take_le, length_drop by (unfold row_length in *; lia).
      unfold row_length in *. lia.
Qed.

Lemma Predict_value (pred : list real_t) :
  length pred = length (row matrix) ->
  Predict w instance_norm loss matrix model pred = Ok (model, scores).
Proof.
  intros Hpred. unfold Predict.
  rewrite <- (Predict_loop pred (Z.to_nat T) Hpred 0%nat) by lia.
  do 2 f_equal. change (Z.of_nat 0) with 0.
  destruct (Z.eqb_spec 0 T); [lia|]. rewrite Z.mul_0_l. reflexivity.
Qed.
(** *** Any schedule of the jobs gives the same predictions *)

Lemma pred_thread_lookup (t : nat) (p : list real_t) :
  Z.of_nat t < T -> length p = length (row matrix) ->
  exists p',
    (start_idx ← getStart w N T (Z.of_nat t);
     end_idx ← getEnd w N T (Z.of_nat t);
     pred_thread instance_norm loss matrix start_idx end_idx (model, p))
    = Ok (model, p') /\
    length p' = length p /\
    forall i, p' !! i = if owns_row w N T t i then scores !! i else p !! i.
Proof.
  intros Ht Hp.
  pose proof (Forall2_length _ _ _ row_scores) as Hlen.
  assert (0 <= N < index_modulus w) as HN by (unfold row_length, index_modulus in *; lia).
  pose proof (bound_ordered t Ht) as (Hb1 & Hb2).
  unfold owns_row.
  rewrite (getStart_value w index_wide N T HN threads) by lia.
  rewrite (getEnd_value w index_wide N T HN threads) by lia.
  rewrite !bind_Ok.
  remember (bound (S t)) as e eqn:He in *.
  destruct (Z.eqb_spec (Z.of_nat t) T) as [|_]; [lia|].
  assert ((if Z.of_nat t =? T - 1
           then (Z.of_nat t + 1) * (N / T) + N mod T
           else (Z.of_nat t + 1) * (N / T)) = e) as ->.
  { pose proof (gap_bounds w N T HN threads) as (Hg & Hle & Hdm & Hm).
    subst e.
    destruct (Z.eqb_spec (Z.of_nat t) (T - 1));
      destruct (Z.eqb_spec (Z.of_nat (S t)) T); lia. }
  clear He. set (s := Z.of_nat t * (N / T)) in *.
  rewrite pred_thread_value by (assumption || lia).
  eexists. split; [reflexivity|].
  unfold row_length in *. split.
  - rewrite !length_app, !length_take, !length_drop. lia.
  - intros i.
    destruct (Z.leb_spec s (Z.of_nat i)); destruct (Z.ltb_spec (Z.of_nat i) e);
      cbn [andb].
    + rewrite lookup_app_r by (rewrite length_take; lia).
      rewrite lookup_app_l by (rewrite !length_take, length_drop; lia).
      rewrite lookup_take_lt by (rewrite length_take; lia).
      rewrite lookup_drop, length_take. f_equal. lia.
    + rewrite lookup_app_r by (rewrite length_take; lia).
      rewrite lookup_app_r by (rewrite !length_take, length_drop; lia).
      rewrite lookup_drop, !length_take, length_drop.
      destruct (decide (i < length p)%nat) as [Hi|Hi].
      * f_equal. lia.
      * rewrite !lookup_ge_None_2 by lia. reflexivity.
    + rewrite lookup_app_l by (rewrite length_take; lia).
      apply lookup_take_lt. lia.
    + lia.
Qed.

Lemma Predict_scheduled_lookup (schedule : list nat) :
  Forall (fun t => Z.of_nat t < T) schedule ->
  forall p : list real_t,
    length p = length (row matrix) ->
    exists p',
      Predict_scheduled w instance_norm schedule loss matrix model p = Ok (model, p') /\
      length p' = length p /\
      forall i, p' !! i = if existsb (fun t => owns_row w N T t i) schedule
                          then scores !! i else p !! i.
Proof.
  unfold Predict_scheduled.
  induction 1 as [|t schedule Ht _ IH]; intros p Hp.
  - exists p. split; [reflexivity|]. split; reflexivity.
  - cbn [fold_outcome existsb].
    destruct (pred_thread_lookup t p Ht Hp) as (p1 & -> & Hlen1 & Hp1).
    rewrite bind_Ok.
    destruct (IH p1 ltac:(lia)) as (p' & -> & Hlen' & Hp').
    exists p'. split; [reflexivity|]. split; [lia|].
    intros i. rewrite Hp', Hp1.
    destruct (owns_row w N T t i); destruct (existsb _ schedule); reflexivity.
Qed.

Lemma owns_row_cover (i : nat) :
  (i < length (row matrix))%nat ->
  exists t : nat, Z.of_nat t < T /\ owns_row w N T t i = true.
Proof.
  intros Hi.
  assert (0 <= N < index_modulus w) as HN by (unfold row_length, index_modulus in *; lia).
  destruct (range_cover w index_wide N T HN threads (Z.of_nat i)
              ltac:(unfold row_length; lia)) as (t & Ht & (s & e & Hs & He & Hr) & _).
  exists (Z.to_nat t). split; [lia|].
  unfold owns_row. rewrite Z2Nat.id by lia. rewrite Hs, He.
  apply andb_true_iff. split; [apply Z.leb_le|apply Z.ltb_lt]; lia.
Qed.

Lemma Predict_scheduled_value (schedule : list nat) (pred : list real_t) :
  schedule ≡ₚ seq 0 (Z.to_nat T) ->
  length pred = length (row matrix) ->
  Predict_scheduled w instance_norm schedule loss matrix model pred = Ok (model, scores).
Proof.
  intros Hperm Hpred.
  pose proof (Forall2_length _ _ _ row_scores) as Hlen.
  assert (forall t, t ∈ schedule <-> Z.of_nat t < T) as Hin.
  { intros t. rewrite Hperm, elem_of_seq. lia. }
  destruct (Predict_scheduled_lookup schedule) with (p := pred)
    as (p' & -> & Hlen' & Hp'); [|assumption|].
  { apply Forall_forall. intros t Ht. now apply Hin. }
  do 2 f_equal. apply list_eq. intros i. rewrite Hp'.
  destruct (decide (i < length (row matrix))%nat) as [Hi|Hi].
  - destruct (owns_row_cover i Hi) as (t & Ht & Howns).
    assert (existsb (fun t => owns_row w N T t i) schedule = true) as ->; [|reflexivity].
    apply existsb_exists. exists t. split; [|assumption].
    apply list_elem_of_In. now apply Hin.
  - rewrite !lookup_ge_None_2 by lia. now destruct (existsb _ schedule).
Qed.
End PredictRuns.

Lemma pred_thread_keeps_model (instance_norm : SparseRow -> real_t) (loss : Loss)
    (matrix : DMatrix) (s e : Z) (st st' : Model * list real_t) :
  pred_thread instance_norm loss matrix s e st = Ok st' -> st'.1 = st.1.
Proof.
  unfold pred_thread.
  apply (for_loop_invariant (fun x => x.1 = st.1)); [|reflexivity].
  intros i [m p] [m' p'] Hm Hstep. cbn in Hm. subst m.
  destruct (vec_get (row matrix) i) as [r| |]; cbn in Hstep; try discriminate Hstep.
  destruct (CalcScore (score_func_ loss) r (st.1) (norm_of instance_norm loss r)) as [x| |];
    cbn in Hstep; try discriminate Hstep.
  destruct (vec_set p i x) as [q| |]; cbn in Hstep; try discriminate Hstep.
  now injection Hstep as <- _.
Qed.

Lemma Predict_keeps_model (w : Z) (instance_norm : SparseRow -> real_t) (loss : Loss)
    (matrix : DMatrix) (model : Model) (pred : list real_t) (st' : Model * list real_t) :
  Predict w instance_norm loss matrix model pred = Ok st' -> st'.1 = model.
Proof.
  unfold Predict.
  apply (for_loop_invariant (fun x => x.1 = model)); [|reflexivity].
  intros t st st1 Hst Hstep.
  destruct (getStart w (row_length matrix) (threadNumber_ loss) (Z.of_nat t)) as [s| |];
    cbn in Hstep; try discriminate Hstep.
  destruct (getEnd w (row_length matrix) (threadNumber_ loss) (Z.of_nat t)) as [e| |];
    cbn in Hstep; try discriminate Hstep.
  rewrite (pred_thread_keeps_model _ _ _ _ _ _ _ Hstep). exact Hst.
Qed.

Lemma scores_exist (P : SparseRow -> real_t -> Prop) (rows : list SparseRow) :
  (forall r, r ∈ rows -> exists s, P r s) -> exists scores, Forall2 P rows scores.
Proof.
  induction rows as [|r rows IH]; intros Hall.
  - exists []. constructor.
  - destruct (Hall r ltac:(left)) as [s Hs].
    destruct IH as [scores Hscores]; [intros r' Hr'; apply Hall; now right|].
    exists (s :: scores). now constructor.
Qed.

(** C9.  [Predict] never changes the Model: whenever it returns, the
    model it hands back is the one it was given, [w] and [v] included.
    With at least one thread, a prediction vector as long as the batch
    and a score function that returns on every row, it does return, the
    vector keeps its length, and slot [i] holds [CalcScore] of row [i]
    for every row of the batch; the order in which the pool runs the
    range jobs changes neither the model nor the predictions. *)
Theorem Predict_frame (w : Z) (instance_norm : SparseRow -> real_t) (loss : Loss)
    (matrix : DMatrix) (model : Model) (pred : list real_t) :
  (forall model' pred',
     Predict w instance_norm loss matrix model pred = Ok (model', pred') ->
     model' = model /\ param_w model' = param_w model /\ param_v model' = param_v model) /\
  (32 <= w -> 1 <= threadNumber_ loss <= INT_MAX -> row_length matrix < 2 ^ w ->
   length pred = length (row matrix) ->
   (forall r, r ∈ row matrix ->
      returns (CalcScore (score_func_ loss) r model (norm_of instance_norm loss r))) ->
   exists pred',
     Predict w instance_norm loss matrix model pred = Ok (model, pred') /\
     length pred' = length pred /\
     (forall i r, row matrix !! i = Some r ->
        exists s, CalcScore (score_func_ loss) r model (norm_of instance_norm loss r) = Ok s /\
                  pred' !! i = Some s) /\
     (forall schedule, schedule ≡ₚ seq 0 (Z.to_nat (threadNumber_ loss)) ->
        Predict_scheduled w instance_norm schedule loss matrix model pred
        = Ok (model, pred'))).
Proof.
  split.
  - intros model' pred' Hrun. apply Predict_keeps_model in Hrun. cbn in Hrun.
    now subst model'.
  - intros Hw HT HN Hlen Hreturns.
    destruct (scores_exist _ _ Hreturns) as [scores Hscores].
    exists scores. split; [now apply Predict_value|]. split_and!.
    + rewrite Hlen. symmetry. exact (Forall2_length _ _ _ Hscores).
    + intros i r Hr.
      destruct (Forall2_lookup_l _ _ _ _ _ Hscores Hr) as (s & Hs & Hscore). eauto.
    + intros schedule Hperm. now apply Predict_scheduled_value.
Qed.

Lemma Predict_frame_witness :
  (32 <= 32 /\ 1 <= threadNumber_ (Initialize 4 FMScore true) <= INT_MAX /\
   row_length (test_matrix false) < 2 ^ 32 /\
   length (replicate 10 (real_of_Z 0)) = length (row (test_matrix false))) /\
  exists pred',
    Predict 32 (fun _ => real_of_Z 1) (Initialize 4 FMScore true) (test_matrix false)
      model_fm (replicate 10 (real_of_Z 0)) = Ok (model_fm, pred') /\
    length pred' = 10%nat.
Proof.
  assert (32 <= 32) as Hw by lia.
  assert (1 <= threadNumber_ (Initialize 4 FMScore true) <= INT_MAX) as HT
    by (cbn; unfold INT_MAX; lia).
  assert (row_length (test_matrix false) < 2 ^ 32) as HN by (vm_compute; reflexivity).
  assert (length (replicate 10 (real_of_Z 0)) = length (row (test_matrix false))) as Hlen
    by reflexivity.
  split; [auto|].
  destruct (Predict_frame 32 (fun _ => real_of_Z 1) (Initialize 4 FMScore true)
              (test_matrix false) model_fm (replicate 10 (real_of_Z 0))) as [_ Hruns].
  destruct (Hruns Hw HT HN Hlen) as (pred' & Hrun & Hlen' & _ & _).
  - intros r Hr. apply elem_of_replicate in Hr as [-> _]. eexists. vm_compute. reflexivity.
  - exists pred'. split; [exact Hrun|exact Hlen'].
Defined.

(** ** The prediction tests of loss_test.cc *)

Lemma Predict_test_matrix (score : Score) (with_fields : bool) (model : Model) (v : real_t) :
  CalcScore score (unit_row with_fields) model (real_of_Z 1) = Ok v ->
  forall (w T : Z) (norm : bool) (instance_norm : SparseRow -> real_t) (pred : list real_t),
    32 <= w -> 1 <= T <= INT_MAX -> length pred = Z.to_nat kLine ->
    (norm = true -> instance_norm (unit_row with_fields) = real_of_Z 1) ->
    Predict w instance_norm (Initialize T score norm) (test_matrix with_fields) model pred
    = Ok (model, replicate (Z.to_nat kLine) v).
Proof.
  intros Hscore w T norm instance_norm pred Hw HT Hlen Hnorm.
  apply Predict_value; try assumption.
  - assert (2 ^ 32 <= 2 ^ w) by (apply Z.pow_le_mono_r; lia).
    unfold row_length. cbn [row test_matrix]. rewrite length_replicate.
    change (Z.of_nat (Z.to_nat kLine)) with 10. lia.
  - cbn [row test_matrix]. apply Forall2_replicate.
    unfold norm_of. cbn [norm_ score_func_ Initialize].
    destruct norm; [rewrite Hnorm by reflexivity|]; exact Hscore.
Qed.

(** C4.  The linear model of [Predict_Linear] has every weight at 2.0
    and bias 0; on a row of three features of value 1.0 [CalcScore]
    gives 6.0, and [Predict] over the ten rows of the test, with any
    positive number of threads, fills the ten predictions with 6.0 and
    hands the model back. *)
Theorem linear_prediction :
  (param_w model_lr = replicate 3 (real_of_Z 2) /\ param_b model_lr = real_of_Z 0) /\
  CalcScore LinearScore (unit_row false) model_lr (real_of_Z 1) = Ok (real_of_Z 6) /\
  forall (w T : Z) (norm : bool) (instance_norm : SparseRow -> real_t) (pred : list real_t),
    32 <= w -> 1 <= T <= INT_MAX -> length pred = Z.to_nat kLine ->
    (norm = true -> instance_norm (unit_row false) = real_of_Z 1) ->
    Predict w instance_norm (Initialize T LinearScore norm) (test_matrix false) model_lr pred
    = Ok (model_lr, replicate 10 (real_of_Z 6)).
Proof.
  split; [split; reflexivity|]. split; [vm_compute; reflexivity|].
  apply (Predict_test_matrix LinearScore false model_lr (real_of_Z 6)).
  vm_compute. reflexivity.
Qed.

Lemma linear_prediction_witness :
  (32 <= 32 /\ 1 <= 4 <= INT_MAX /\
   length (replicate 10 (real_of_Z 0)) = Z.to_nat kLine) /\
  Predict 32 (fun _ => real_of_Z 1) (Initialize 4 LinearScore true) (test_matrix false)
    model_lr (replicate 10 (real_of_Z 0))
  = Ok (model_lr, replicate 10 (real_of_Z 6)).
Proof.
  assert (32 <= 32) as Hw by lia.
  assert (1 <= 4 <= INT_MAX) as HT by (unfold INT_MAX; lia).
  assert (length (replicate 10 (real_of_Z 0)) = Z.to_nat kLine) as Hlen by reflexivity.
  split; [auto|].
  destruct linear_prediction as (_ & _ & Hpred).
  exact (Hpred 32 4 true (fun _ => real_of_Z 1) _ Hw HT Hlen (fun _ => eq_refl)).
Defined.

(** C2.  The FM model of [Predict_FM] has every [w] at 2.0, every [v]
    at 1.0, [num_K = 24] and bias 0; on a row of three features
    (indices 0, 1, 2) of value 1.0 the linear term is 6.0, the pairwise
    term is 72.0 = 24·1·3, [CalcScore] gives 78.0, and [Predict] over the
    ten rows of the test, with any positive number of threads, fills the
    ten predictions with 78.0. *)
Theorem fm_prediction :
  (param_w model_fm = replicate 3 (real_of_Z 2) /\
   param_v model_fm = replicate (3 * 24) (real_of_Z 1) /\
   num_K model_fm = 24 /\ param_b model_fm = real_of_Z 0) /\
  linear_term (param_w model_fm) (unit_row false) = Ok (real_of_Z 6) /\
  fm_term model_fm (unit_row false) = Ok (real_of_Z (24 * 1 * 3)) /\
  CalcScore FMScore (unit_row false) model_fm (real_of_Z 1) = Ok (real_of_Z 78) /\
  forall (w T : Z) (norm : bool) (instance_norm : SparseRow -> real_t) (pred : list real_t),
    32 <= w -> 1 <= T <= INT_MAX -> length pred = Z.to_nat kLine ->
    (norm = true -> instance_norm (unit_row false) = real_of_Z 1) ->
    Predict w instance_norm (Initialize T FMScore norm) (test_matrix false) model_fm pred
    = Ok (model_fm, replicate 10 (real_of_Z 78)).
Proof.
  split; [split_and!; reflexivity|].
  split; [vm_compute; reflexivity|].
  split; [vm_compute; reflexivity|].
  split; [vm_compute; reflexivity|].
  apply (Predict_test_matrix FMScore false model_fm (real_of_Z 78)).
  vm_compute. reflexivity.
Qed.

Lemma fm_prediction_witness :
  (32 <= 32 /\ 1 <= 4 <= INT_MAX /\
   length (replicate 10 (real_of_Z 0)) = Z.to_nat kLine) /\
  Predict 32 (fun _ => real_of_Z 1) (Initialize 4 FMScore true) (test_matrix false)
    model_fm (replicate 10 (real_of_Z 0))
  = Ok (model_fm, replicate 10 (real_of_Z 78)).
Proof.
  assert (32 <= 32) as Hw by lia.
  assert (1 <= 4 <= INT_MAX) as HT by (unfold INT_MAX; lia).
  assert (length (replicate 10 (real_of_Z 0)) = Z.to_nat kLine) as Hlen by reflexivity.
  split; [auto|].
  destruct fm_prediction as (_ & _ & _ & _ & Hpred).
  exact (Hpred 32 4 true (fun _ => real_of_Z 1) _ Hw HT Hlen (fun _ => eq_refl)).
Defined.

(** *** Equal latent vectors: the field-aware term is the FM term *)

Lemma for_loop_ext {S : Type} (f g : nat -> S -> outcome S) (n : nat) :
  forall (from : nat) (s : S),
    (forall i s', (from <= i < from + n)%nat -> f i s' = g i s') ->
    for_loop from n f s = for_loop from n g s.
Proof.
  induction n as [|n IH]; intros from s Hfg; [reflexivity|].
  cbn [for_loop]. rewrite (Hfg from s) by lia.
  destruct (g from s) as [s1| |]; try reflexivity.
  rewrite !bind_Ok. apply IH. intros i s' Hi. apply Hfg. lia.
Qed.

Lemma fold_outcome_ext {A S : Type} (f g : S -> A -> outcome S) (l : list A) :
  forall s : S,
    (forall s' a, a ∈ l -> f s' a = g s' a) ->
    fold_outcome f l s = fold_outcome g l s.
Proof.
  induction l as [|a l IH]; intros s Hfg; [reflexivity|].
  cbn [fold_outcome]. rewrite (Hfg s a) by left.
  destruct (g s a) as [s1| |]; try reflexivity.
  rewrite !bind_Ok. apply IH. intros s' b Hb. apply Hfg. now right.
Qed.

Lemma elem_of_pairs {A : Type} (l : list A) (a b : A) :
  (a, b) ∈ pairs l -> a ∈ l /\ b ∈ l.
Proof.
  induction l as [|x l IH]; cbn [pairs]; intros Hin.
  - now apply elem_of_nil in Hin.
  - apply elem_of_app in Hin as [Hhead|Htail].
    + apply list_elem_of_In, in_map_iff in Hhead as (y & Hy & Hin).
      injection Hy as <- <-. split; [left|right; now apply list_elem_of_In].
    + destruct (IH Htail). split; now right.
Qed.

(** With every entry of [v] at [c], a dot product of two slices that
    lie inside [v] is [K] times [c·c], whatever the slices. *)
Lemma dot_replicate (n : nat) (c : real_t) (K off1 off2 : Z) :
  (Z.to_nat off1 + Z.to_nat K <= n)%nat -> (Z.to_nat off2 + Z.to_nat K <= n)%nat ->
  dot (replicate n c) K off1 off2
  = for_loop 0 (Z.to_nat K) (fun _ acc => Ok (real_add acc (real_mul c c))) (real_of_Z 0).
Proof.
  intros H1 H2. unfold dot. apply for_loop_ext. intros k acc Hk.
  rewrite !(vec_get_Some _ _ c) by (apply lookup_replicate_2; lia).
  reflexivity.
Qed.

Lemma slice_inside (off K n : Z) :
  0 <= off -> 0 <= K -> off + K <= n -> (Z.to_nat off + Z.to_nat K <= Z.to_nat n)%nat.
Proof. lia. Qed.

Lemma field_check_passes (m : Model) (r : SparseRow) :
  (forall n, n ∈ r -> 0 <= field_id n < num_field m) ->
  fold_outcome (fun _ n => CHECK_field m n) r tt = Ok tt.
Proof.
  induction r as [|n r IH]; intros Hrow; [reflexivity|].
  cbn [fold_outcome]. cbv beta.
  destruct (Hrow n ltac:(left)) as [Hlo Hhi].
  apply Z.leb_le in Hlo. apply Z.ltb_lt in Hhi.
  assert (CHECK_field m n = Ok tt) as -> by (unfold CHECK_field; now rewrite Hlo, Hhi).
  rewrite bind_Ok. apply IH. intros n' Hn'. apply Hrow. now right.
Qed.

Lemma ffm_reduces_to_fm (c : real_t) (nf F K : Z) (r : SparseRow) :
  0 <= nf -> 0 <= F -> 0 <= K ->
  (forall n, n ∈ r -> 0 <= feat_id n < nf /\ 0 <= field_id n < F) ->
  ffm_term (fill_v c (Model_Initialize FFMScore nf F K)) r
  = fm_term (fill_v c (Model_Initialize FMScore nf F K)) r.
Proof.
  intros Hnf HF HK Hrow. unfold ffm_term, fm_term.
  rewrite field_check_passes, bind_Ok by (intros n Hn; now apply Hrow).
  cbn [fill_v Model_Initialize param_v num_K num_field]. rewrite !length_replicate.
  apply fold_outcome_ext. intros score [ni nj] Hin.
  apply elem_of_pairs in Hin as [Hi Hj].
  destruct (Hrow ni Hi) as [Hfi Hgi]. destruct (Hrow nj Hj) as [Hfj Hgj].
  assert (forall f g, 0 <= f < nf -> 0 <= g < F ->
            0 <= (f * F + g) * K /\ (f * F + g) * K + K <= nf * F * K) as Hffm.
  { intros f g Hf Hg. assert (0 <= f * F + g) by nia.
    assert (f * F + g + 1 <= nf * F) by nia. split; nia. }
  assert (forall f, 0 <= f < nf -> 0 <= f * K /\ f * K + K <= nf * K) as Hfm
    by (intros f Hf; split; nia).
  rewrite !dot_replicate; [reflexivity| | | |]; apply slice_inside; try assumption;
    first [apply Hffm|apply Hfm]; assumption.
Qed.

(** C3.  The FFM model of [Predict_FFM] has the parameters of the FM
    one (every [w] at 2.0, every [v] at 1.0, [num_K = 24], bias 0); on a
    row of three features of value 1.0 whose fields are 0, 1 and 2 the
    field-aware pairwise term is 72.0, the value of the FM pairwise
    term, [CalcScore] gives 78.0, and [Predict] over the ten rows of the
    test fills the ten predictions with 78.0.  The two pairwise terms
    agree on every row as soon as all entries of [v] are equal: with
    equal latent vectors the field of a feature no longer matters. *)
Theorem ffm_prediction :
  (param_w model_ffm = replicate 3 (real_of_Z 2) /\
   param_v model_ffm = replicate (3 * 3 * 24) (real_of_Z 1) /\
   num_K model_ffm = 24 /\ param_b model_ffm = real_of_Z 0) /\
  field_id <$> unit_row true = [0; 1; 2] /\
  (forall (c : real_t) (nf F K : Z) (r : SparseRow),
     0 <= nf -> 0 <= F -> 0 <= K ->
     (forall n, n ∈ r -> 0 <= feat_id n < nf /\ 0 <= field_id n < F) ->
     ffm_term (fill_v c (Model_Initialize FFMScore nf F K)) r
     = fm_term (fill_v c (Model_Initialize FMScore nf F K)) r) /\
  ffm_term model_ffm (unit_row true) = fm_term model_fm (unit_row false) /\
  ffm_term model_ffm (unit_row true) = Ok (real_of_Z (24 * 1 * 3)) /\
  CalcScore FFMScore (unit_row true) model_ffm (real_of_Z 1) = Ok (real_of_Z 78) /\
  forall (w T : Z) (norm : bool) (instance_norm : SparseRow -> real_t) (pred : list real_t),
    32 <= w -> 1 <= T <= INT_MAX -> length pred = Z.to_nat kLine ->
    (norm = true -> instance_norm (unit_row true) = real_of_Z 1) ->
    Predict w instance_norm (Initialize T FFMScore norm) (test_matrix true) model_ffm pred
    = Ok (model_ffm, replicate 10 (real_of_Z 78)).
Proof.
  split; [split_and!; reflexivity|].
  split; [reflexivity|].
  split; [exact ffm_reduces_to_fm|].
  split; [vm_compute; reflexivity|].
  split; [vm_compute; reflexivity|].
  split; [vm_compute; reflexivity|].
  apply (Predict_test_matrix FFMScore true model_ffm (real_of_Z 78)).
  vm_compute. reflexivity.
Qed.

Lemma ffm_prediction_witness :
  (32 <= 32 /\ 1 <= 4 <= INT_MAX /\
   length (replicate 10 (real_of_Z 0)) = Z.to_nat kLine) /\
  Predict 32 (fun _ => real_of_Z 1) (Initialize 4 FFMScore true) (test_matrix true)
    model_ffm (replicate 10 (real_of_Z 0))
  = Ok (model_ffm, replicate 10 (real_of_Z 78)).
Proof.
  assert (32 <= 32) as Hw by lia.
  assert (1 <= 4 <= INT_MAX) as HT by (unfold INT_MAX; lia).
  assert (length (replicate 10 (real_of_Z 0)) = Z.to_nat kLine) as Hlen by reflexivity.
  split; [auto|].
  destruct ffm_prediction as (_ & _ & _ & _ & _ & _ & Hpred).
  exact (Hpred 32 4 true (fun _ => real_of_Z 1) _ Hw HT Hlen (fun _ => eq_refl)).
Defined.

(** ** Rounding: [1 + f] for a tiny [f] *)

Lemma iter_pos_nat {A : Type} (f : A -> A) (p : positive) (x : A) :
  SpecFloat.iter_pos f p x = Nat.iter (Pos.to_nat p) f x.
Proof.
  revert x. induction p as [p IH|p IH|]; intros x; cbn [SpecFloat.iter_pos].
  - rewrite !IH, Pos2Nat.inj_xI.
    replace (S (2 * Pos.to_nat p)) with (Pos.to_nat p + (Pos.to_nat p + 1))%nat by lia.
    now rewrite !Nat.iter_add.
  - rewrite !IH, Pos2Nat.inj_xO.
    replace (2 * Pos.to_nat p)%nat with (Pos.to_nat p + Pos.to_nat p)%nat by lia.
    now rewrite Nat.iter_add.
  - reflexivity.
Qed.

Lemma shr_1_nonneg (m : Z) (r s : bool) :
  0 <= m ->
  shr_1 (Build_shr_record m r s) = Build_shr_record (m / 2) (Z.odd m) (r || s).
Proof.
  intros Hm. destruct m as [|p|p]; [reflexivity| |lia].
  destruct p as [p|p|]; cbn [shr_1].
  - f_equal. rewrite Pos2Z.inj_xI.
    apply (Z.div_unique _ _ _ 1); lia.
  - f_equal. rewrite Pos2Z.inj_xO.
    apply (Z.div_unique _ _ _ 0); lia.
  - reflexivity.
Qed.

(** [k >= 1] right shifts of a non-negative mantissa: what is left of
    it, the last bit shifted out, and whether anything was shifted out
    at all. *)
Lemma shr_iter (M : Z) (k : nat) :
  0 <= M ->
  exists r s,
    Nat.iter (S k) shr_1 (Build_shr_record M false false)
    = Build_shr_record (M / 2 ^ Z.of_nat (S k)) r s /\
    r = Z.odd (M / 2 ^ Z.of_nat k) /\
    (r || s = negb (M mod 2 ^ Z.of_nat (S k) =? 0))%bool.
Proof.
  intros HM. induction k as [|k (r & s & Hiter & Hr & Hs)].
  - cbv [Nat.iter nat_rect]. rewrite shr_1_nonneg by assumption.
    exists (Z.odd M), false. change (2 ^ Z.of_nat 1) with 2.
    change (2 ^ Z.of_nat 0) with 1. rewrite Z.div_1_r.
    split; [reflexivity|]. split; [reflexivity|].
    rewrite orb_false_r, Zmod_odd. now destruct (Z.odd M).
  - remember (S k) as k1 eqn:Hk1.
    rewrite Nat.iter_succ, Hiter.
    assert (0 < 2 ^ Z.of_nat k1) as Hpow by (apply Z.pow_pos_nonneg; lia).
    rewrite shr_1_nonneg by (apply Z.div_pos; lia).
    exists (Z.odd (M / 2 ^ Z.of_nat k1)), (r || s)%bool.
    assert (2 ^ Z.of_nat (S k1) = 2 ^ Z.of_nat k1 * 2) as Hsucc
      by (rewrite Nat2Z.inj_succ, Z.pow_succ_r; lia).
    split; [|split; [reflexivity|]].
    + f_equal. rewrite Hsucc. now rewrite Z.div_div by lia.
    + rewrite Hs, Hsucc, Z.rem_mul_r by lia.
      rewrite (Zmod_odd (M / 2 ^ Z.of_nat k1)).
      pose proof (Z.mod_pos_bound M (2 ^ Z.of_nat k1) Hpow) as Hrem.
      destruct (Z.odd (M / 2 ^ Z.of_nat k1));
        repeat match goal with
               | |- context [?a =? ?b] => destruct (Z.eqb_spec a b)
               end;
        cbn [orb negb]; try reflexivity; lia.
Qed.

Lemma digits2_pos_size (p : positive) : digits2_pos p = Pos.size p.
Proof. induction p as [p IH|p IH|]; cbn; now rewrite ?IH. Qed.

Lemma digits2_pos_value (p : positive) (d : Z) :
  2 ^ (d - 1) <= Zpos p < 2 ^ d -> Zpos (digits2_pos p) = d.
Proof.
  intros [Hlow Hhigh]. rewrite digits2_pos_size.
  pose proof (Pos.size_gt p) as Hgt. pose proof (Pos.size_le p) as Hle.
  apply Pos2Z.pos_lt_pos in Hgt. apply Pos2Z.pos_le_pos in Hle.
  rewrite Pos2Z.inj_pow in Hgt, Hle. rewrite (Pos2Z.inj_xO p) in Hle.
  set (n := Zpos (Pos.size p)) in *.
  assert (0 < n) by (unfold n; lia).
  assert (0 < d).
  { destruct (Z.lt_trichotomy d 0) as [Hneg|[->|Hpos]]; [|cbn in Hhigh; lia|assumption].
    rewrite Z.pow_neg_r in Hhigh by lia. lia. }
  destruct (Z.lt_trichotomy n d) as [Hlt|[Heq|Hlt]]; [|assumption|].
  - assert (2 ^ n <= 2 ^ (d - 1)) by (apply Z.pow_le_mono_r; lia). lia.
  - assert (2 ^ d <= 2 ^ (n - 1)) by (apply Z.pow_le_mono_r; lia).
    replace n with (Z.succ (n - 1)) in Hle by lia.
    rewrite Z.pow_succ_r in Hle by lia. lia.
Qed.

Lemma pos_iter_xO (x d : positive) : Zpos (Pos.iter xO x d) = Zpos x * 2 ^ Zpos d.
Proof.
  induction d as [|d IH] using Pos.peano_ind.
  - cbn [Pos.iter]. lia.
  - rewrite Pos.iter_succ, Pos2Z.inj_xO, IH, Pos2Z.inj_succ, Z.pow_succ_r by lia. lia.
Qed.

Lemma shl_align_down (mx : positive) (ex ex' : Z) :
  ex' < ex ->
  shl_align mx ex ex' = (Z.to_pos (Zpos mx * 2 ^ (ex - ex')), ex').
Proof.
  intros Hlt. unfold shl_align.
  destruct (ex' - ex) as [|d|d] eqn:Hd; try lia.
  f_equal. replace (ex - ex') with (Zpos d) by lia.
  now rewrite <- pos_iter_xO, Pos2Z.id.
Qed.

Lemma shl_align_keep (mx : positive) (ex ex' : Z) :
  ex <= ex' -> shl_align mx ex ex' = (mx, ex).
Proof.
  intros Hle. unfold shl_align. destruct (ex' - ex) eqn:Hd; (reflexivity || lia).
Qed.

Lemma bounded_mantissa (m : positive) (e : Z) :
  SpecFloat.bounded real_prec real_emax m e = true -> Zpos m < 2 ^ 24.
Proof.
  unfold SpecFloat.bounded, canonical_mantissa, fexp, emin, real_prec, real_emax.
  intros Hb. apply andb_true_iff in Hb as [Hc _]. apply Z.eqb_eq in Hc.
  pose proof (Pos.size_gt m) as Hgt. apply Pos2Z.pos_lt_pos in Hgt.
  rewrite Pos2Z.inj_pow, <- digits2_pos_size in Hgt.
  assert (2 ^ Zpos (digits2_pos m) <= 2 ^ 24) by (apply Z.pow_le_mono_r; lia).
  lia.
Qed.

Lemma round_to_one (q : positive) (e : Z) (low : Z) :
  e <= -49 -> 0 <= low < 2 ^ 24 -> Zpos q = 2 ^ (- e) + low ->
  binary_round real_prec real_emax false q e = real_of_Z 1.
Proof.
  intros He Hlow Hq.
  assert (exists k : nat, - 23 - e = Z.of_nat (S k) /\ (25 <= k)%nat) as (k & Hk & Hk25).
  { exists (Z.to_nat (- 24 - e)). lia. }
  assert (2 ^ (- e) = 2 ^ 23 * 2 ^ Z.of_nat (S k)) as Hsplit.
  { rewrite <- Z.pow_add_r by lia. f_equal. lia. }
  assert (2 ^ 24 <= 2 ^ Z.of_nat k) as Hbig by (apply Z.pow_le_mono_r; lia).
  assert (2 ^ Z.of_nat (S k) = 2 ^ Z.of_nat k * 2) as Hsucc
    by (rewrite Nat2Z.inj_succ, Z.pow_succ_r; lia).
  assert (Zpos (digits2_pos q) = 24 + Z.of_nat (S k)) as Hdigits.
  { apply digits2_pos_value. rewrite Hq, Hsplit.
    replace (24 + Z.of_nat (S k) - 1) with (23 + Z.of_nat (S k)) by lia.
    rewrite !Z.pow_add_r by lia. lia. }
  unfold binary_round. rewrite Hdigits.
  replace (24 + Z.of_nat (S k) + e) with 1 by lia.
  change (fexp real_prec real_emax 1) with (-23).
  rewrite shl_align_keep by lia.
  unfold binary_round_aux at 1. unfold shr_fexp at 1.
  cbn [Zdigits2 shr_record_of_loc]. rewrite Hdigits.
  replace (24 + Z.of_nat (S k) + e) with 1 by lia.
  change (fexp real_prec real_emax 1) with (-23).
  rewrite Hk. unfold shr.
  assert (e + Z.of_nat (S k) = -23) as Hexp by lia. rewrite Hexp.
  change (Z.of_nat (S k)) with (Zpos (Pos.of_succ_nat k)). cbv beta iota.
  rewrite iter_pos_nat, SuccNat2Pos.id_succ.
  destruct (shr_iter (Zpos q) k ltac:(lia)) as (r & s & -> & Hr & _).
  assert (Zpos q / 2 ^ Z.of_nat (S k) = 8388608) as ->.
  { rewrite Hq, Hsplit, Z.div_add_l, Z.div_small by lia. reflexivity. }
  assert (r = false) as ->.
  { rewrite Hr, Hq, Hsplit, Hsucc.
    replace (2 ^ 23 * (2 ^ Z.of_nat k * 2)) with (2 ^ 24 * 2 ^ Z.of_nat k) by lia.
    rewrite Z.div_add_l, Z.div_small by lia. reflexivity. }
  destruct s; reflexivity.
Qed.

Lemma real_add_one_small (m : positive) (e : Z) :
  SpecFloat.bounded real_prec real_emax m e = true -> e <= -49 ->
  real_add (real_of_Z 1) (S754_finite false m e) = real_of_Z 1.
Proof.
  intros Hb He. pose proof (bounded_mantissa m e Hb) as Hm.
  change (real_of_Z 1) with (S754_finite false 8388608 (-23)) at 1.
  unfold real_add, SFadd.
  rewrite Z.min_r by lia.
  rewrite (shl_align_down 8388608 (-23) e) by lia.
  rewrite (shl_align_keep m e e) by lia.
  cbn [fst cond_Zopp Z.add binary_normalize].
  apply (round_to_one _ e (Zpos m)); [assumption|lia|].
  assert (0 < 2 ^ (-23 - e)) by (apply Z.pow_pos_nonneg; lia).
  rewrite Pos2Z.inj_add, Z2Pos.id by lia.
  replace (- e) with (23 + (-23 - e)) by lia.
  rewrite Z.pow_add_r by lia. reflexivity.
Qed.

Lemma real_add_one_tiny (f : real_t) :
  tiny f = true -> real_add (real_of_Z 1) f = real_of_Z 1.
Proof.
  unfold tiny. intros Ht.
  apply andb_true_iff in Ht as [Ht Hle]. apply andb_true_iff in Ht as [Hvalid Hpos].
  destruct f as [s|s| |s m e].
  - destruct s; reflexivity.
  - destruct s; [discriminate Hpos|discriminate Hle].
  - discriminate Hpos.
  - destruct s; [discriminate Hpos|].
    apply real_add_one_small; [exact Hvalid|].
    change (real_pow2 (-26)) with (S754_finite false 8388608 (-49)) in Hle.
    unfold SFleb, SFcompare in Hle.
    destruct (Z.compare_spec e (-49)); [lia|lia|discriminate Hle].
Qed.

(** ** [sigmoid] and [Sigmoid] *)

Lemma sigmoid_saturates (expf : real_t -> real_t) (x : real_t) :
  tiny (expf (real_neg x)) = true -> sigmoid expf x = real_of_Z 1.
Proof.
  intros Ht. unfold sigmoid. rewrite real_add_one_tiny by assumption. reflexivity.
Qed.

Lemma libm_exp_coarse : libm_exp expf_coarse.
Proof.
  split; [reflexivity|]. split; [reflexivity|].
  intros x Hx. destruct x as [s|s| |s m e]; try discriminate Hx;
    destruct s; try discriminate Hx; reflexivity.
Qed.

Lemma sigmoid_R_increasing (x y : R) : (x < y)%R -> (sigmoid_R x < sigmoid_R y)%R.
Proof.
  intros Hxy. unfold sigmoid_R.
  pose proof (exp_pos (- x)) as Hx. pose proof (exp_pos (- y)) as Hy.
  assert (exp (- y) < exp (- x))%R as Hexp by (apply exp_increasing; lra).
  unfold Rdiv. rewrite !Rmult_1_l.
  apply Rinv_lt_contravar; [|lra].
  apply Rmult_lt_0_compat; lra.
Qed.

Lemma sigmoid_R_zero : sigmoid_R 0 = (1 / 2)%R.
Proof. unfold sigmoid_R. rewrite Ropp_0, exp_0. lra. Qed.

(** * Further properties of the code of loss.h *)

(** ** More on [getStart] and [getEnd] *)

(** X1.  Load balance.  Every thread but the last gets exactly
    [⌊N/T⌋] rows and the last one [⌊N/T⌋ + N mod T]: the last range is
    the largest, it exceeds each of the others by less than [T] rows,
    and all ranges are equal when [T] divides [N].  The bound is
    reached: with [N = 2T - 1] rows the last thread gets [T] of them
    and each of the others one. *)
Theorem range_sizes_balanced (w N T : Z) :
  32 <= w -> 0 <= N < 2 ^ w -> 1 <= T <= INT_MAX ->
  (forall t, 0 <= t < T - 1 -> range_size w N T t = N / T) /\
  range_size w N T (T - 1) = N / T + N mod T /\
  (forall t, 0 <= t < T ->
     range_size w N T t <= range_size w N T (T - 1) < range_size w N T t + T) /\
  (N mod T = 0 -> forall t, 0 <= t < T -> range_size w N T t = N / T) /\
  (N = 2 * T - 1 ->
     range_size w N T (T - 1) = T /\
     forall t, 0 <= t < T - 1 -> range_size w N T t = 1).
Proof.
  intros Hw HN HT. fold (index_modulus w) in HN.
  pose proof (gap_bounds w N T HN HT) as (Hg & Hle & Hdm & Hm).
  assert (forall t, 0 <= t < T ->
            range_size w N T t = if t =? T - 1 then N / T + N mod T else N / T) as Hsize
    by (intros t Ht; now apply range_size_value).
  split_and!.
  - intros t Ht. rewrite Hsize by lia. destruct (Z.eqb_spec t (T - 1)); [lia|reflexivity].
  - rewrite Hsize by lia. now rewrite Z.eqb_refl.
  - intros t Ht. rewrite !Hsize by lia. rewrite Z.eqb_refl.
    destruct (Z.eqb_spec t (T - 1)); lia.
  - intros Hdiv t Ht. rewrite Hsize by lia. destruct (Z.eqb_spec t (T - 1)); lia.
  - intros ->.
    assert ((2 * T - 1) / T = 1) as Hquot by (symmetry; apply (Z.div_unique _ _ _ (T - 1)); lia).
    assert ((2 * T - 1) mod T = T - 1) as Hrem
      by (symmetry; apply (Z.mod_unique _ _ 1 (T - 1)); lia).
    split.
    + rewrite Hsize by lia. rewrite Z.eqb_refl, Hquot, Hrem. lia.
    + intros t Ht. rewrite Hsize by lia.
      destruct (Z.eqb_spec t (T - 1)); [lia|exact Hquot].
Qed.

Lemma range_sizes_balanced_witness :
  (32 <= 32 /\ 0 <= 7 < 2 ^ 32 /\ 1 <= 4 <= INT_MAX /\ 7 = 2 * 4 - 1) /\
  range_size 32 7 4 3 = 4 /\ range_size 32 7 4 0 = 1.
Proof.
  assert (32 <= 32) as Hw by lia.
  assert (0 <= 7 < 2 ^ 32) as HN by lia.
  assert (1 <= 4 <= INT_MAX) as HT by (unfold INT_MAX; lia).
  assert (7 = 2 * 4 - 1) as Hodd by reflexivity.
  split; [auto|].
  destruct (range_sizes_balanced 32 7 4 Hw HN HT) as (_ & _ & _ & _ & Htight).
  destruct (Htight Hodd) as [Hlast Hothers].
  split; [exact Hlast|]. apply Hothers. lia.
Defined.

(** X2.  More threads than rows.  With [N < T] (an empty batch
    included) every thread but the last gets the empty range [[0, 0)]
    and the last thread gets all of [[0, N)]: nothing is done in
    parallel. *)
Theorem more_threads_than_rows (w N T : Z) :
  32 <= w -> 0 <= N < 2 ^ w -> 1 <= T <= INT_MAX -> N < T ->
  (forall t, 0 <= t < T - 1 ->
     getStart w N T t = Ok 0 /\ getEnd w N T t = Ok 0 /\ range_size w N T t = 0) /\
  getStart w N T (T - 1) = Ok 0 /\
  getEnd w N T (T - 1) = Ok N /\
  range_size w N T (T - 1) = N.
Proof.
  intros Hw HN HT Hfew. fold (index_modulus w) in HN.
  assert (N / T = 0) as Hgap by (apply Z.div_small; lia).
  assert (N mod T = N) as Hrem by (apply Z.mod_small; lia).
  split_and!.
  - intros t Ht.
    rewrite (range_size_value w Hw N T HN HT) by lia.
    rewrite (getStart_value w Hw N T HN HT), (getEnd_value w Hw N T HN HT) by lia.
    destruct (Z.eqb_spec t (T - 1)); [lia|]. rewrite Hgap, !Z.mul_0_r. auto.
  - rewrite (getStart_value w Hw N T HN HT) by lia. now rewrite Hgap, Z.mul_0_r.
  - now apply getEnd_last.
  - rewrite (range_size_value w Hw N T HN HT) by lia. rewrite Z.eqb_refl. lia.
Qed.

Lemma more_threads_than_rows_witness :
  (32 <= 32 /\ 0 <= 3 < 2 ^ 32 /\ 1 <= 8 <= INT_MAX /\ 3 < 8) /\
  getEnd 32 3 8 6 = Ok 0 /\ getEnd 32 3 8 7 = Ok 3.
Proof.
  assert (32 <= 32) as Hw by lia.
  assert (0 <= 3 < 2 ^ 32) as HN by lia.
  assert (1 <= 8 <= INT_MAX) as HT by (unfold INT_MAX; lia).
  assert (3 < 8) as Hfew by lia.
  split; [auto|].
  destruct (more_threads_than_rows 32 3 8 Hw HN HT Hfew) as (Hidle & _ & Hlast & _).
  split; [|exact Hlast]. apply (Hidle 6). lia.
Defined.

Lemma to_index_zero_iff (w z : Z) :
  32 <= w -> INT_MIN <= z <= INT_MAX -> to_index w z = 0 <-> z = 0.
Proof.
  intros Hw Hz. unfold to_index, index_modulus.
  assert (2 ^ 32 <= 2 ^ w) as Hpow by (apply Z.pow_le_mono_r; lia).
  unfold INT_MIN, INT_MAX in Hz. split; [|intros ->; apply Z.mod_0_l; lia].
  intros Hmod. apply Z.mod_divide in Hmod as [q Hq]; [|lia].
  assert (q = 0) by nia. lia.
Qed.

Lemma to_index_negative (w z : Z) :
  32 <= w -> INT_MIN <= z < 0 -> to_index w z = 2 ^ w + z.
Proof.
  intros Hw Hz. unfold to_index, index_modulus.
  assert (2 ^ 32 <= 2 ^ w) as Hpow by (apply Z.pow_le_mono_r; lia).
  unfold INT_MIN in Hz. symmetry. apply (Z.mod_unique _ _ (-1)); lia.
Qed.

(** X3.  Where the two functions are defined, over all of [int].  For
    any [int] arguments [getStart] returns exactly when [total] is not
    0, and [getEnd] exactly when, besides, [id + 1] and [total - 1] do
    not overflow, that is [id < INT_MAX] and [total > INT_MIN]; neither
    ever stops on a check. *)
Theorem getStart_getEnd_defined (w count total id : Z) :
  32 <= w -> INT_MIN <= total <= INT_MAX -> INT_MIN <= id <= INT_MAX ->
  (returns (getStart w count total id) <-> total <> 0) /\
  (returns (getEnd w count total id) <->
     total <> 0 /\ id <> INT_MAX /\ total <> INT_MIN) /\
  (forall d, getStart w count total id <> Fatal d) /\
  (forall d, getEnd w count total id <> Fatal d).
Proof.
  intros Hw Ht Hid.
  pose proof (to_index_zero_iff w total Hw Ht) as Hzero.
  unfold getStart, getEnd, index_div, index_rem, int_add, int_sub, returns.
  destruct (Z.eqb_spec (to_index w total) 0) as [Hz|Hnz].
  - apply Hzero in Hz. cbn. split_and!.
    + split; [intros (a & Ha); discriminate Ha|contradiction].
    + split; [intros (a & Ha); discriminate Ha|tauto].
    + discriminate.
    + discriminate.
  - assert (total <> 0) as Hne by tauto. cbn. split_and!.
    + split; [auto|]. intros _. eexists. reflexivity.
    + destruct (in_int (id + 1)) eqn:Hadd; cbn.
      * apply in_int_spec in Hadd.
        destruct (in_int (total - 1)) eqn:Hsub; cbn.
        -- apply in_int_spec in Hsub. split.
           ++ intros _. unfold INT_MIN, INT_MAX in *. lia.
           ++ intros _. destruct (id =? total - 1); eexists; reflexivity.
        -- assert (~ (INT_MIN <= total - 1 <= INT_MAX)) as Hout
             by (rewrite <- in_int_spec, Hsub; discriminate).
           split; [intros (a & Ha); discriminate Ha|].
           unfold INT_MIN, INT_MAX in *. lia.
      * assert (~ (INT_MIN <= id + 1 <= INT_MAX)) as Hout
          by (rewrite <- in_int_spec, Hadd; discriminate).
        split; [intros (a & Ha); discriminate Ha|].
        unfold INT_MIN, INT_MAX in *. lia.
    + discriminate.
    + destruct (in_int (id + 1)); cbn; [|discriminate].
      destruct (in_int (total - 1)); cbn; [|discriminate].
      destruct (id =? total - 1); discriminate.
Qed.

Lemma getStart_getEnd_defined_witness :
  (32 <= 32 /\ INT_MIN <= 4 <= INT_MAX /\ INT_MIN <= INT_MAX <= INT_MAX) /\
  returns (getStart 32 10 4 INT_MAX) /\ ~ returns (getEnd 32 10 4 INT_MAX).
Proof.
  assert (32 <= 32) as Hw by lia.
  assert (INT_MIN <= 4 <= INT_MAX) as Ht by (unfold INT_MIN, INT_MAX; lia).
  assert (INT_MIN <= INT_MAX <= INT_MAX) as Hid by (unfold INT_MIN, INT_MAX; lia).
  split; [auto|].
  destruct (getStart_getEnd_defined 32 10 4 INT_MAX Hw Ht Hid) as (Hs & He & _).
  split.
  - apply Hs. lia.
  - intros Hret. apply He in Hret. tauto.
Defined.

(** X4.  A negative thread count.  [total < 0] is converted to the
    unsigned [2^w + total] before the division, so for every row count
    below that number the quotient is 0, no [id >= 0] is taken for the
    last thread, and every range is the empty [[0, 0)]: no row is
    processed and nothing is reported. *)
Theorem negative_thread_count (w count total id : Z) :
  32 <= w -> INT_MIN < total < 0 -> 0 <= id < INT_MAX ->
  0 <= count < 2 ^ w + total ->
  getStart w count total id = Ok 0 /\
  getEnd w count total id = Ok 0 /\
  range_size w count total id = 0.
Proof.
  intros Hw Ht Hid Hcount.
  assert (getStart w count total id = Ok 0 /\ getEnd w count total id = Ok 0) as [Hs He].
  { unfold getStart, getEnd, index_div, index_rem.
    rewrite (to_index_negative w total Hw) by lia.
    destruct (Z.eqb_spec (2 ^ w + total) 0) as [|_]; [lia|].
    rewrite !bind_Ok, Z.div_small by lia.
    rewrite int_add_in by (unfold INT_MIN, INT_MAX in *; lia).
    rewrite int_sub_in by (unfold INT_MIN, INT_MAX in *; lia).
    rewrite !bind_Ok. unfold index_mul. rewrite !Z.mul_0_r.
    assert (0 < index_modulus w) by (apply Z.pow_pos_nonneg; lia).
    rewrite Z.mod_0_l by lia.
    destruct (Z.eqb_spec id (total - 1)); [lia|]. auto. }
  unfold range_size. rewrite Hs, He. auto.
Qed.

Lemma negative_thread_count_witness :
  (32 <= 32 /\ INT_MIN < -1 < 0 /\ 0 <= 0 < INT_MAX /\ 0 <= 10 < 2 ^ 32 + -1) /\
  getStart 32 10 (-1) 0 = Ok 0 /\ getEnd 32 10 (-1) 0 = Ok 0.
Proof.
  assert (32 <= 32) as Hw by lia.
  assert (INT_MIN < -1 < 0) as Ht by (unfold INT_MIN; lia).
  assert (0 <= 0 < INT_MAX) as Hid by (unfold INT_MAX; lia).
  assert (0 <= 10 < 2 ^ 32 + -1) as Hcount by lia.
  split; [auto|].
  destruct (negative_thread_count 32 10 (-1) 0 Hw Ht Hid Hcount) as (Hs & He & _).
  split; [exact Hs|exact He].
Defined.

(** ** More on [Sign] and [Sigmoid] *)

Lemma real_ge_zero_class (x : real_t) :
  real_ge x (real_of_Z 0) =
  match x with
  | S754_zero _ => true
  | S754_infinity s | S754_finite s _ _ => negb s
  | S754_nan => false
  end.
Proof. destruct x as [s|s| |s m e]; try destruct s; reflexivity. Qed.

(** X5.  [Sign] by the class of the number.  The test [pred[i] >= 0]
    looks at the sign bit except at the two ends: a zero of either sign
    gives 1 (so [-0.0] counts as non-negative), an infinity or a finite
    number gives 1 when positive and 0 when negative, and a NaN, for
    which every comparison is false, gives 0. *)
Theorem Sign_by_class (pred new_pred : list real_t) :
  length pred = length new_pred ->
  exists out,
    Sign pred new_pred = Ok out /\
    forall (i : nat) (x : real_t), pred !! i = Some x ->
      out !! i = Some match x with
                      | S754_zero _ => real_of_Z 1
                      | S754_infinity s | S754_finite s _ _ =>
                          if s then real_of_Z 0 else real_of_Z 1
                      | S754_nan => real_of_Z 0
                      end.
Proof.
  intros Hlen. eexists. split; [now apply Sign_value|].
  intros i x Hx. rewrite list_lookup_fmap, Hx. cbn [fmap option_fmap option_map].
  rewrite real_ge_zero_class. f_equal.
  destruct x as [s|s| |s m e]; try destruct s; reflexivity.
Qed.

Lemma Sign_by_class_witness :
  length [S754_zero true; S754_nan; S754_infinity true]
  = length (replicate 3 (real_of_Z 0)) /\
  exists out,
    Sign [S754_zero true; S754_nan; S754_infinity true] (replicate 3 (real_of_Z 0)) = Ok out /\
    out !! 0%nat = Some (real_of_Z 1) /\ out !! 1%nat = Some (real_of_Z 0).
Proof.
  assert (length [S754_zero true; S754_nan; S754_infinity true]
          = length (replicate 3 (real_of_Z 0))) as Hlen by reflexivity.
  split; [exact Hlen|].
  destruct (Sign_by_class _ _ Hlen) as (out & Hout & Hclass).
  exists out. split; [exact Hout|]. split.
  - exact (Hclass 0%nat (S754_zero true) eq_refl).
  - exact (Hclass 1%nat S754_nan eq_refl).
Defined.

(** X6.  [Sign] is not idempotent.  Its results 1 and 0 are both
    [>= 0], so [Sign] applied to the result of [Sign] gives 1 in every
    slot, whatever the first input was. *)
Theorem Sign_twice (pred mid out : list real_t) :
  length pred = length mid -> length pred = length out ->
  exists signs,
    Sign pred mid = Ok signs /\
    Sign signs out = Ok (replicate (length pred) (real_of_Z 1)).
Proof.
  intros Hmid Hout. eexists. split; [now apply Sign_value|].
  rewrite Sign_value by (now rewrite length_fmap). f_equal.
  apply list_eq. intros i. rewrite !list_lookup_fmap.
  destruct (pred !! i) as [x|] eqn:Hx; cbn [fmap option_fmap option_map].
  - rewrite lookup_replicate_2 by (now apply lookup_lt_Some in Hx).
    now destruct (real_ge x (real_of_Z 0)).
  - symmetry. apply lookup_ge_None_2. rewrite length_replicate.
    now apply lookup_ge_None in Hx.
Qed.

Lemma Sign_twice_witness :
  (length test_pred = length (replicate 6 (real_of_Z 0))) /\
  exists signs,
    Sign test_pred (replicate 6 (real_of_Z 0)) = Ok signs /\
    Sign signs (replicate 6 (real_of_Z 0)) = Ok (replicate 6 (real_of_Z 1)).
Proof.
  assert (length test_pred = length (replicate 6 (real_of_Z 0))) as Hlen by reflexivity.
  split; [exact Hlen|].
  exact (Sign_twice test_pred (replicate 6 (real_of_Z 0)) (replicate 6 (real_of_Z 0))
           Hlen Hlen).
Defined.

(** The loop [for (i < v.size()) v[i] = f(v[i])] on one vector, started
    at [k]: slot [i] is read before it is written and is not read
    again. *)
Lemma inplace_loop {A : Type} (f : A -> A) (n : nat) :
  forall (k : nat) (v : list A),
    (k + n)%nat = length v ->
    for_loop k n (fun i v => x ← vec_get v i; vec_set v i (f x)) v
    = Ok (take k v ++ (f <$> drop k v)).
Proof.
  induction n as [|n IH]; intros k v Hk.
  - cbn [for_loop]. rewrite take_ge, drop_ge by lia. now rewrite app_nil_r.
  - cbn [for_loop].
    destruct (lookup_lt_is_Some_2 v k ltac:(lia)) as [x Hx].
    rewrite (vec_get_Some _ _ _ Hx), bind_Ok, vec_set_lt, bind_Ok by lia.
    rewrite IH by (rewrite length_insert; lia). f_equal.
    rewrite (take_S_r _ _ (f x)) by (apply list_lookup_insert_eq; lia).
    rewrite take_insert_ge, drop_insert_lt by lia.
    rewrite (drop_S v x k Hx). cbn [fmap list_fmap]. now rewrite <- app_assoc.
Qed.

(** X7.  Calls in place.  Passing one vector as [pred] and as
    [new_pred] is safe: the size check passes, the call returns, and the
    vector ends up holding what a call with a separate output vector
    would have produced, for [Sigmoid] and for [Sign] alike. *)
Theorem inplace_calls (expf : real_t -> real_t) (v other : list real_t) :
  length v = length other ->
  Sigmoid_inplace expf v = Ok (sigmoid expf <$> v) /\
  Sigmoid_inplace expf v = Sigmoid expf v other /\
  Sign_inplace v = Sign v other /\
  exists out, Sign_inplace v = Ok out /\ length out = length v.
Proof.
  intros Hlen.
  assert (Sigmoid_inplace expf v = Ok (sigmoid expf <$> v)) as Hsig.
  { unfold Sigmoid_inplace. rewrite CHECK_EQ_same, bind_Ok, inplace_loop by lia.
    now rewrite take_0, drop_0. }
  assert (Sign_inplace v
          = Ok ((fun x => if real_ge x (real_of_Z 0) then real_of_Z 1 else real_of_Z 0)
                  <$> v)) as Hsign.
  { unfold Sign_inplace.
    rewrite CHECK_EQ_same, bind_Ok.
    rewrite (inplace_loop
               (fun x => if real_ge x (real_of_Z 0) then real_of_Z 1 else real_of_Z 0))
      by lia.
    now rewrite take_0, drop_0. }
  split_and!.
  - exact Hsig.
  - now rewrite Hsig, Sigmoid_value.
  - now rewrite Hsign, Sign_value.
  - eexists. split; [exact Hsign|]. now rewrite length_fmap.
Qed.

Lemma inplace_calls_witness :
  length test_pred = length (replicate 6 (real_of_Z 0)) /\
  Sign_inplace test_pred = Sign test_pred (replicate 6 (real_of_Z 0)).
Proof.
  assert (length test_pred = length (replicate 6 (real_of_Z 0))) as Hlen by reflexivity.
  split; [exact Hlen|].
  destruct (inplace_calls (fun x => x) test_pred (replicate 6 (real_of_Z 0)) Hlen)
    as (_ & _ & Hsign & _).
  exact Hsign.
Defined.

(** ** Rounding to binary32 and powers of two *)

Lemma fexp_value (x : Z) : fexp real_prec real_emax x = Z.max (x - 24) (-149).
Proof. reflexivity. Qed.

Lemma Zdigits2_bounds (m : Z) :
  0 < m -> 0 < Zdigits2 m /\ 2 ^ (Zdigits2 m - 1) <= m < 2 ^ Zdigits2 m.
Proof.
  intros Hm. destruct m as [|p|p]; try lia. cbn [Zdigits2].
  rewrite digits2_pos_size.
  pose proof (Pos.size_gt p) as Hgt. pose proof (Pos.size_le p) as Hle.
  apply Pos2Z.pos_lt_pos in Hgt. apply Pos2Z.pos_le_pos in Hle.
  rewrite Pos2Z.inj_pow in Hgt, Hle. rewrite (Pos2Z.inj_xO p) in Hle.
  set (n := Zpos (Pos.size p)) in *.
  assert (0 < n) by (unfold n; lia).
  replace n with (Z.succ (n - 1)) in Hle at 1 by lia.
  rewrite Z.pow_succ_r in Hle by lia. lia.
Qed.

Lemma Zdigits2_unique (m d : Z) :
  0 < m -> 2 ^ (d - 1) <= m < 2 ^ d -> Zdigits2 m = d.
Proof.
  intros Hm Hd. destruct m as [|p|p]; try lia. cbn [Zdigits2].
  now apply digits2_pos_value.
Qed.

Lemma Zdigits2_shift (m j : Z) :
  0 < m -> 0 <= j -> Zdigits2 (m * 2 ^ j) = Zdigits2 m + j.
Proof.
  intros Hm Hj. destruct (Zdigits2_bounds m Hm) as (Hd & Hlow & Hhigh).
  assert (0 < 2 ^ j) by (apply Z.pow_pos_nonneg; lia).
  apply Zdigits2_unique; [nia|].
  replace (Zdigits2 m + j - 1) with (Zdigits2 m - 1 + j) by lia.
  rewrite !Z.pow_add_r by lia. nia.
Qed.

Lemma shr_m_iter (k : nat) (M : Z) (r s : bool) :
  0 <= M ->
  exists r' s',
    Nat.iter k shr_1 (Build_shr_record M r s)
    = Build_shr_record (M / 2 ^ Z.of_nat k) r' s'.
Proof.
  intros HM. induction k as [|k (r' & s' & IH)].
  - exists r, s. cbn [Nat.iter nat_rect]. now rewrite Z.div_1_r.
  - rewrite Nat.iter_succ, IH.
    assert (0 < 2 ^ Z.of_nat k) by (apply Z.pow_pos_nonneg; lia).
    rewrite shr_1_nonneg by (apply Z.div_pos; lia).
    eexists _, _. f_equal.
    rewrite Nat2Z.inj_succ, Z.pow_succ_r, (Z.mul_comm 2) by lia.
    now rewrite Z.div_div by lia.
Qed.

(** What [shr_fexp] leaves of a non-negative mantissa: the exponent
    goes up to the one the format asks for, the mantissa loses as many
    low bits, and nothing is remembered of them when they were all 0 and
    the number was exact. *)
Lemma shr_fexp_spec (m e : Z) (l : location) :
  0 <= m ->
  exists r s,
    shr_fexp real_prec real_emax m e l
    = (Build_shr_record (m / 2 ^ (Z.max e (fexp real_prec real_emax (Zdigits2 m + e)) - e)) r s,
       Z.max e (fexp real_prec real_emax (Zdigits2 m + e))) /\
    (l = loc_Exact ->
     m mod 2 ^ (Z.max e (fexp real_prec real_emax (Zdigits2 m + e)) - e) = 0 ->
     r = false /\ s = false).
Proof.
  intros Hm. unfold shr_fexp, shr.
  set (f := fexp real_prec real_emax (Zdigits2 m + e)).
  destruct (f - e) as [|p|p] eqn:Hn.
  - rewrite Z.max_l by lia. rewrite Z.sub_diag, Z.div_1_r.
    destruct l as [|[]]; cbn [shr_record_of_loc]; eexists _, _;
      (split; [reflexivity|]); intros Hl; (discriminate Hl || auto).
  - rewrite Z.max_r by lia. rewrite Hn.
    replace (e + Zpos p) with f by lia.
    rewrite iter_pos_nat.
    destruct (Pos2Nat.is_succ p) as [k Hk]. rewrite Hk.
    assert (Zpos p = Z.of_nat (S k)) as Hp by lia. rewrite Hp.
    destruct l as [|[]]; cbn [shr_record_of_loc].
    + destruct (shr_iter m k Hm) as (r & s & Hiter & _ & Hrs).
      exists r, s. split; [now rewrite Hiter|].
      intros _ Hmod. rewrite Hmod in Hrs. cbn in Hrs.
      now apply orb_false_iff in Hrs.
    + destruct (shr_m_iter (S k) m true false Hm) as (r & s & Hiter).
      exists r, s. split; [now rewrite Hiter|]. intros Hl. discriminate Hl.
    + destruct (shr_m_iter (S k) m false true Hm) as (r & s & Hiter).
      exists r, s. split; [now rewrite Hiter|]. intros Hl. discriminate Hl.
    + destruct (shr_m_iter (S k) m true true Hm) as (r & s & Hiter).
      exists r, s. split; [now rewrite Hiter|]. intros Hl. discriminate Hl.
  - rewrite Z.max_l by lia. rewrite Z.sub_diag, Z.div_1_r.
    destruct l as [|[]]; cbn [shr_record_of_loc]; eexists _, _;
      (split; [reflexivity|]); intros Hl; (discriminate Hl || auto).
Qed.

Lemma round_nearest_even_step (m : Z) (r s : bool) :
  exists c,
    round_nearest_even m (loc_of_shr_record (Build_shr_record m r s)) = m + c /\
    (c = 0 \/ c = 1) /\
    (r = false -> s = false -> c = 0).
Proof.
  destruct r, s; cbn [loc_of_shr_record round_nearest_even].
  - exists 1. split; [reflexivity|]. split; [auto|]. intros Hr. discriminate Hr.
  - destruct (Z.even m).
    + exists 0. split; [lia|]. split; [auto|]. intros Hr. discriminate Hr.
    + exists 1. split; [reflexivity|]. split; [auto|]. intros Hr. discriminate Hr.
  - exists 0. split; [lia|]. split; [auto|]. intros _ Hs. discriminate Hs.
  - exists 0. split; [lia|]. auto.
Qed.

(** [binary_round_aux] on a non-negative mantissa that has bits enough
    for the format: the mantissa is cut to the exponent the format asks
    for, goes up by one or stays, and is packed; it stays when the
    number was exact and only zeros are cut. *)
Lemma binary_round_aux_cases (m e : Z) (l : location) :
  0 <= m -> e <= fexp real_prec real_emax (Zdigits2 m + e) ->
  exists c,
    (c = 0 \/ c = 1) /\
    (l = loc_Exact ->
     m mod 2 ^ (fexp real_prec real_emax (Zdigits2 m + e) - e) = 0 -> c = 0) /\
    m / 2 ^ (fexp real_prec real_emax (Zdigits2 m + e) - e) < 2 ^ 24 /\
    (fexp real_prec real_emax (Zdigits2 m + e) = -149 \/
     2 ^ 23 <= m / 2 ^ (fexp real_prec real_emax (Zdigits2 m + e) - e)) /\
    -149 <= fexp real_prec real_emax (Zdigits2 m + e) /\
    binary_round_aux real_prec real_emax false m e l
    = pack32 (m / 2 ^ (fexp real_prec real_emax (Zdigits2 m + e) - e) + c)
             (fexp real_prec real_emax (Zdigits2 m + e)).
Proof.
  intros Hm Hpre.
  destruct (shr_fexp_spec m e l Hm) as (r & s & Hshr & Hexact).
  rewrite Z.max_r in Hshr, Hexact by assumption.
  set (e1 := fexp real_prec real_emax (Zdigits2 m + e)) in *.
  set (m1 := m / 2 ^ (e1 - e)) in *.
  assert (-149 <= e1) as He1 by (unfold e1; rewrite fexp_value; lia).
  assert (0 < 2 ^ (e1 - e)) as Hpow by (apply Z.pow_pos_nonneg; lia).
  assert (0 <= m1) as Hm1 by (apply Z.div_pos; lia).
  assert (m1 < 2 ^ 24 /\ (e1 = -149 \/ 2 ^ 23 <= m1)) as [Hhigh Hlow].
  { destruct (Z.eq_dec m 0) as [->|Hne].
    - unfold m1. rewrite Z.div_0_l by lia. split; [lia|].
      left. unfold e1 in *. cbn [Zdigits2] in *. rewrite fexp_value in *. lia.
    - destruct (Zdigits2_bounds m ltac:(lia)) as (Hd & Hdl & Hdh).
      set (d := Zdigits2 m) in *.
      assert (e1 = Z.max (d + e - 24) (-149)) as He1v by (unfold e1; now rewrite fexp_value).
      split.
      + apply Z.div_lt_upper_bound; [lia|].
        rewrite <- Z.pow_add_r by lia.
        assert (2 ^ d <= 2 ^ (e1 - e + 24)) by (apply Z.pow_le_mono_r; lia). lia.
      + destruct (Z.eq_dec e1 (-149)) as [|Hnorm]; [now left|right].
        apply Z.div_le_lower_bound; [lia|].
        rewrite <- Z.pow_add_r by lia.
        replace (e1 - e + 23) with (d - 1) by lia. exact Hdl. }
  destruct (round_nearest_even_step m1 r s) as (c & Hround & Hc & Hc0).
  exists c. split; [exact Hc|]. split.
  { intros Hl Hmod. destruct (Hexact Hl Hmod) as [-> ->]. now apply Hc0. }
  split; [exact Hhigh|]. split; [exact Hlow|]. split; [exact He1|].
  unfold binary_round_aux. rewrite Hshr. cbn [shr_m]. rewrite Hround.
  assert (0 <= m1 + c) as HM by lia.
  destruct (shr_fexp_spec (m1 + c) e1 loc_Exact HM) as (r2 & s2 & Hshr2 & _).
  rewrite Hshr2. cbn [shr_m].
  unfold pack32.
  destruct (Z.eqb_spec (m1 + c) 0) as [Hz|Hnz].
  - rewrite Hz. cbn [Zdigits2]. rewrite fexp_value, Z.max_l by lia.
    now rewrite Z.div_0_l by lia.
  - destruct (Z.eqb_spec (m1 + c) (2 ^ 24)) as [Hcarry|Hnc].
    + rewrite Hcarry.
      change (Zdigits2 (2 ^ 24)) with 25.
      rewrite fexp_value, Z.max_r by lia.
      replace (Z.max (25 + e1 - 24) (-149)) with (e1 + 1) by lia.
      replace (e1 + 1 - e1) with 1 by lia.
      change (2 ^ 24 / 2 ^ 1) with (Zpos (Z.to_pos (2 ^ 23))).
      reflexivity.
    + destruct (Zdigits2_bounds (m1 + c) ltac:(lia)) as (Hd & Hdl & Hdh).
      set (d := Zdigits2 (m1 + c)) in *.
      assert (d <= 24).
      { destruct (Z_lt_le_dec 24 d) as [Hbig|]; [|assumption].
        assert (2 ^ 24 <= 2 ^ (d - 1)) by (apply Z.pow_le_mono_r; lia). lia. }
      rewrite fexp_value, Z.max_l by lia.
      rewrite Z.sub_diag, Z.div_1_r.
      destruct (m1 + c) as [|p|p] eqn:HMp; try lia.
      now rewrite Pos2Z.id.
Qed.

Lemma pack32_spec (M E : Z) :
  0 < M <= 2 ^ 24 -> -149 <= E -> (E = -149 \/ 2 ^ 23 <= M) ->
  (pack32 M E = S754_infinity false /\ 2 ^ 277 <= ulps M E) \/
  (exists m' e',
     pack32 M E = S754_finite false m' e' /\ canonical32 m' e' /\
     ulps (Zpos m') e' = ulps M E).
Proof.
  intros HM HE Hnorm. unfold pack32, ulps.
  destruct (Z.eqb_spec M 0) as [|_]; [lia|].
  destruct (Z.eqb_spec M (2 ^ 24)) as [->|Hnc].
  - destruct (Z.leb_spec (E + 1) 104) as [Hfit|Hover].
    + right. eexists _, _. split; [reflexivity|]. split.
      * unfold canonical32. rewrite Z2Pos.id by lia. lia.
      * rewrite Z2Pos.id by lia.
        replace (E + 1 + 149) with (1 + (E + 149)) by lia.
        rewrite Z.pow_add_r by lia. lia.
    + left. split; [reflexivity|].
      assert (2 ^ 253 <= 2 ^ (E + 149)) by (apply Z.pow_le_mono_r; lia).
      change (2 ^ 277) with (2 ^ 24 * 2 ^ 253). nia.
  - destruct (Z.leb_spec E 104) as [Hfit|Hover].
    + right. eexists _, _. split; [reflexivity|]. split.
      * unfold canonical32. rewrite Z2Pos.id by lia. lia.
      * now rewrite Z2Pos.id by lia.
    + left. split; [reflexivity|].
      assert (2 ^ 254 <= 2 ^ (E + 149)) by (apply Z.pow_le_mono_r; lia).
      change (2 ^ 277) with (2 ^ 23 * 2 ^ 254). nia.
Qed.

(** Rounding does not cross a power of two from above: a number that
    is at least [2^k] is rounded to one that is at least [2^k]. *)
Lemma round_lower (m e k : Z) (l : location) :
  0 <= m -> e <= fexp real_prec real_emax (Zdigits2 m + e) ->
  -149 <= e -> -149 <= k -> 2 ^ (k + 149) <= ulps m e ->
  binary_round_aux real_prec real_emax false m e l = S754_infinity false \/
  exists m' e',
    binary_round_aux real_prec real_emax false m e l = S754_finite false m' e' /\
    canonical32 m' e' /\ 2 ^ (k + 149) <= ulps (Zpos m') e'.
Proof.
  intros Hm Hpre He Hk Hval.
  destruct (binary_round_aux_cases m e l Hm Hpre) as (c & Hc & _ & Hhigh & Hlow & He1 & ->).
  set (e1 := fexp real_prec real_emax (Zdigits2 m + e)) in *.
  set (m1 := m / 2 ^ (e1 - e)) in *.
  assert (0 < 2 ^ (k + 149)) as Hkpos by (apply Z.pow_pos_nonneg; lia).
  assert (0 < 2 ^ (e + 149)) as Hepos by (apply Z.pow_pos_nonneg; lia).
  assert (0 < 2 ^ (e1 + 149)) as He1pos by (apply Z.pow_pos_nonneg; lia).
  unfold ulps in Hval.
  assert (0 < m) as Hmpos by nia.
  assert (2 ^ (k + 149) <= ulps m1 e1) as Hm1.
  { unfold ulps. destruct Hlow as [Hsub|Hnorm].
    - assert (e1 = e) as Heq by lia. unfold m1. rewrite Heq, Z.sub_diag, Z.div_1_r. exact Hval.
    - destruct (Zdigits2_bounds m Hmpos) as (Hd & Hdl & Hdh).
      set (d := Zdigits2 m) in *.
      assert (e1 = Z.max (d + e - 24) (-149)) as He1v by (unfold e1; now rewrite fexp_value).
      assert (k + 149 < d + (e + 149)) as Hkd.
      { apply (Z.pow_lt_mono_r_iff 2); [lia|lia|].
        rewrite (Z.pow_add_r 2 d (e + 149)) by lia. nia. }
      assert (2 ^ (k + 149) <= 2 ^ (23 + (e1 + 149))) as Hle
        by (apply Z.pow_le_mono_r; lia).
      rewrite (Z.pow_add_r 2 23 (e1 + 149)) in Hle by lia. nia. }
  assert (ulps m1 e1 <= ulps (m1 + c) e1) as Hmono by (unfold ulps; nia).
  assert (0 < m1 + c <= 2 ^ 24) as HM by (unfold ulps in *; nia).
  destruct (pack32_spec (m1 + c) e1 HM He1) as [[Hinf _]|(m' & e' & Hfin & Hcan & Hv)].
  - destruct Hlow as [|Hnorm]; [now left|right; lia].
  - now left.
  - right. exists m', e'. split; [exact Hfin|]. split; [exact Hcan|]. lia.
Qed.

(** Nor from below: a number that is at most [2^k] is rounded to one
    that is at most [2^k]. *)
Lemma round_upper (m e k : Z) (l : location) :
  0 <= m -> e <= fexp real_prec real_emax (Zdigits2 m + e) ->
  -149 <= e -> -149 <= k <= 127 ->
  ulps (m + 1) e <= 2 ^ (k + 149) \/ (l = loc_Exact /\ ulps m e = 2 ^ (k + 149)) ->
  binary_round_aux real_prec real_emax false m e l = S754_zero false \/
  exists m' e',
    binary_round_aux real_prec real_emax false m e l = S754_finite false m' e' /\
    canonical32 m' e' /\ ulps (Zpos m') e' <= 2 ^ (k + 149).
Proof.
  intros Hm Hpre He Hk Hval.
  destruct (binary_round_aux_cases m e l Hm Hpre)
    as (c & Hc & Hexact & Hhigh & Hlow & He1 & ->).
  set (e1 := fexp real_prec real_emax (Zdigits2 m + e)) in *.
  set (m1 := m / 2 ^ (e1 - e)) in *.
  assert (0 < 2 ^ (e + 149)) as Hepos by (apply Z.pow_pos_nonneg; lia).
  assert (0 < 2 ^ (e1 - e)) as Hnpos by (apply Z.pow_pos_nonneg; lia).
  assert (2 ^ (e1 + 149) = 2 ^ (e1 - e) * 2 ^ (e + 149)) as Hsplit
    by (rewrite <- Z.pow_add_r by lia; f_equal; lia).
  assert (0 <= m1) as Hm1 by (apply Z.div_pos; lia).
  assert (ulps (m1 + c) e1 <= 2 ^ (k + 149)) as Hbound.
  { unfold ulps in *. destruct Hlow as [Hsub|Hnorm].
    - assert (e1 = e) as Heq by lia. unfold m1 in *.
      rewrite Heq, Z.sub_diag in *. rewrite Z.div_1_r in *.
      destruct Hval as [Hless|[Hl Heqv]]; [nia|].
      rewrite (Hexact Hl (Z.mod_1_r m)). lia.
    - assert (0 < m) as Hmpos.
      { destruct (Z.eq_dec m 0) as [->|]; [|lia].
        unfold m1 in Hnorm. rewrite Z.div_0_l in Hnorm by lia. lia. }
      destruct (Zdigits2_bounds m Hmpos) as (Hd & Hdl & Hdh).
      set (d := Zdigits2 m) in *.
      assert (e1 = Z.max (d + e - 24) (-149)) as He1v by (unfold e1; now rewrite fexp_value).
      assert (m * 2 ^ (e + 149) <= 2 ^ (k + 149)) as Hle by (destruct Hval as [|[_ ?]]; nia).
      assert (d - 1 + (e + 149) <= k + 149) as Hdk.
      { apply (Z.pow_le_mono_r_iff 2); [lia|lia|].
        rewrite (Z.pow_add_r 2 (d - 1) (e + 149)) by lia. nia. }
      set (j := k - e1).
      assert (0 < 2 ^ j) as Hjpos by (apply Z.pow_pos_nonneg; lia).
      assert (2 ^ (k + 149) = 2 ^ j * (2 ^ (e1 - e) * 2 ^ (e + 149))) as Hk2.
      { rewrite <- !Z.pow_add_r by lia. f_equal. lia. }
      rewrite Hsplit, Hk2 in *.
      destruct Hval as [Hless|[Hl Heqv]].
      + assert (m < 2 ^ (e1 - e) * 2 ^ j) as Hlt by nia.
        assert (m1 < 2 ^ j) by (apply Z.div_lt_upper_bound; lia).
        nia.
      + assert (m = 2 ^ j * 2 ^ (e1 - e)) as Hmv by nia.
        assert (m mod 2 ^ (e1 - e) = 0) as Hmod by (rewrite Hmv; apply Z_mod_mult).
        rewrite (Hexact Hl Hmod).
        assert (m1 = 2 ^ j) as -> by (unfold m1; rewrite Hmv; apply Z_div_mult; lia).
        lia. }
  destruct (Z.eq_dec (m1 + c) 0) as [Hz|Hnz].
  - left. rewrite Hz. reflexivity.
  - right.
    assert (0 < m1 + c <= 2 ^ 24) as HM by lia.
    assert (e1 = -149 \/ 2 ^ 23 <= m1 + c) as Hlow' by lia.
    destruct (pack32_spec (m1 + c) e1 HM He1 Hlow') as [[_ Hbig]|(m' & e' & Hfin & Hcan & Hv)].
    + assert (2 ^ (k + 149) <= 2 ^ 276) by (apply Z.pow_le_mono_r; lia).
      assert (2 ^ 276 < 2 ^ 277) by (apply Z.pow_lt_mono_r; lia). lia.
    + exists m', e'. split; [exact Hfin|]. split; [exact Hcan|]. lia.
Qed.

Lemma valid_canonical (s : bool) (m : positive) (e : Z) :
  valid_binary real_prec real_emax (S754_finite s m e) = true -> canonical32 m e.
Proof.
  cbn [valid_binary]. unfold SpecFloat.bounded, canonical_mantissa. intros Hb.
  apply andb_true_iff in Hb as [Hc He]. apply Z.eqb_eq in Hc. apply Z.leb_le in He.
  rewrite fexp_value in Hc. change (real_emax - real_prec) with 104 in He.
  destruct (Zdigits2_bounds (Zpos m) ltac:(lia)) as (Hd & Hdl & Hdh).
  cbn [Zdigits2] in *. set (d := Zpos (digits2_pos m)) in *.
  unfold canonical32. split; [lia|]. split.
  - assert (2 ^ d <= 2 ^ 24) by (apply Z.pow_le_mono_r; lia). lia.
  - destruct (Z.eq_dec e (-149)) as [|Hne]; [now left|right].
    assert (d = 24) as Hd24 by lia. now rewrite Hd24 in Hdl.
Qed.

(** On canonical numbers the comparison of the code is the comparison
    of the values. *)
Lemma real_ge_canonical (m1 : positive) (e1 : Z) (m2 : positive) (e2 : Z) :
  canonical32 m1 e1 -> canonical32 m2 e2 ->
  real_ge (S754_finite false m1 e1) (S754_finite false m2 e2) = true <->
  ulps (Zpos m2) e2 <= ulps (Zpos m1) e1.
Proof.
  intros (He1 & Hh1 & Hl1) (He2 & Hh2 & Hl2). unfold real_ge, SFcompare, ulps.
  assert (0 < 2 ^ (e1 + 149)) as Hp1 by (apply Z.pow_pos_nonneg; lia).
  assert (0 < 2 ^ (e2 + 149)) as Hp2 by (apply Z.pow_pos_nonneg; lia).
  destruct (Z.compare_spec e1 e2) as [Heq|Hlt|Hgt].
  - subst e2. change (Pos.compare_cont Eq m1 m2) with (Pos.compare m1 m2).
    destruct (Pos.compare_spec m1 m2) as [->|Hm|Hm].
    + split; [lia|reflexivity].
    + split; [discriminate|]. intros Hle. nia.
    + split; [|reflexivity]. intros _. nia.
  - split; [discriminate|]. intros Hle. exfalso.
    assert (2 ^ (e1 + 149) * 2 <= 2 ^ (e2 + 149)) as Hstep.
    { rewrite Z.mul_comm, <- Z.pow_succ_r by lia. apply Z.pow_le_mono_r; lia. }
    nia.
  - split; [|reflexivity]. intros _.
    assert (2 ^ (e2 + 149) * 2 <= 2 ^ (e1 + 149)) as Hstep.
    { rewrite Z.mul_comm, <- Z.pow_succ_r by lia. apply Z.pow_le_mono_r; lia. }
    nia.
Qed.

Lemma shl_align_value (mx : positive) (ex ex' : Z) :
  shl_align mx ex ex'
  = (Z.to_pos (Zpos mx * 2 ^ (ex - Z.min ex ex')), Z.min ex ex').
Proof.
  destruct (Z_lt_le_dec ex' ex) as [Hlt|Hle].
  - rewrite shl_align_down by assumption. now rewrite Z.min_r by lia.
  - rewrite shl_align_keep by assumption. rewrite Z.min_l by lia.
    rewrite Z.sub_diag, Z.mul_1_r. now rewrite Pos2Z.id.
Qed.

(** [binary_round] brings the mantissa to the exponent the format asks
    for, or leaves it below, and hands it to [binary_round_aux]. *)
Lemma binary_round_as_aux (M : positive) (e0 : Z) :
  -149 <= e0 ->
  exists mz ez,
    binary_round real_prec real_emax false M e0
    = binary_round_aux real_prec real_emax false mz ez loc_Exact /\
    0 < mz /\ -149 <= ez <= e0 /\
    ez <= fexp real_prec real_emax (Zdigits2 mz + ez) /\
    ulps mz ez = ulps (Zpos M) e0.
Proof.
  intros He0. unfold binary_round.
  change (Zpos (digits2_pos M)) with (Zdigits2 (Zpos M)).
  set (f := fexp real_prec real_emax (Zdigits2 (Zpos M) + e0)).
  assert (-149 <= f) as Hf by (unfold f; rewrite fexp_value; lia).
  rewrite shl_align_value.
  set (ez := Z.min e0 f).
  assert (0 < 2 ^ (e0 - ez)) as Hpow by (apply Z.pow_pos_nonneg; lia).
  exists (Zpos M * 2 ^ (e0 - ez)), ez.
  rewrite Z2Pos.id by lia.
  split; [reflexivity|]. split; [lia|]. split; [lia|]. split.
  - rewrite Zdigits2_shift by lia.
    replace (Zdigits2 (Zpos M) + (e0 - ez) + ez) with (Zdigits2 (Zpos M) + e0) by lia.
    fold f. lia.
  - unfold ulps. rewrite <- Z.mul_assoc, <- Z.pow_add_r by lia.
    do 2 f_equal. lia.
Qed.

(** The sum [1.0f + e] of the code, for a positive finite [e]: the
    rounding of the exact sum. *)
Lemma add_one_as_aux (me : positive) (ee : Z) :
  canonical32 me ee ->
  exists mz ez,
    real_add (real_of_Z 1) (S754_finite false me ee)
    = binary_round_aux real_prec real_emax false mz ez loc_Exact /\
    0 < mz /\ -149 <= ez <= -23 /\
    ez <= fexp real_prec real_emax (Zdigits2 mz + ez) /\
    ulps mz ez = 2 ^ 149 + ulps (Zpos me) ee.
Proof.
  intros (Hee & _ & _).
  change (real_of_Z 1) with (S754_finite false 8388608 (-23)).
  unfold real_add, SFadd. rewrite !shl_align_value. cbn [fst cond_Zopp].
  set (ez0 := Z.min (-23) ee).
  replace (Z.min ee ez0) with ez0 by lia.
  replace (Z.min (-23) ez0) with ez0 by lia.
  assert (0 < 2 ^ (-23 - ez0)) as Hp1 by (apply Z.pow_pos_nonneg; lia).
  assert (0 < 2 ^ (ee - ez0)) as Hp2 by (apply Z.pow_pos_nonneg; lia).
  cbn [Z.add binary_normalize].
  destruct (binary_round_as_aux
              (Z.to_pos (8388608 * 2 ^ (-23 - ez0)) + Z.to_pos (Zpos me * 2 ^ (ee - ez0)))
              ez0 ltac:(lia)) as (mz & ez & Hround & Hmz & Hez & Hpre & Hval).
  exists mz, ez. split; [exact Hround|]. split; [exact Hmz|]. split; [lia|].
  split; [exact Hpre|]. rewrite Hval. unfold ulps.
  rewrite Pos2Z.inj_add, !Z2Pos.id by lia.
  rewrite Z.mul_add_distr_r, <- !Z.mul_assoc, <- !Z.pow_add_r by lia.
  replace (-23 - ez0 + (ez0 + 149)) with 126 by lia.
  replace (ee - ez0 + (ez0 + 149)) with (ee + 149) by lia.
  reflexivity.
Qed.

Lemma new_location_exact (nb : Z) : new_location nb 0 = loc_Exact.
Proof. unfold new_location. now destruct (Z.even nb). Qed.

Lemma ulps_ge_one_digits (my : positive) (ey : Z) (k : Z) :
  -149 <= ey -> 0 <= k -> 2 ^ k <= ulps (Zpos my) ey ->
  k < Zdigits2 (Zpos my) + ey + 149.
Proof.
  intros Hey Hk Hy. unfold ulps in Hy.
  destruct (Zdigits2_bounds (Zpos my) ltac:(lia)) as (Hd & _ & Hdh).
  assert (0 < 2 ^ (ey + 149)) by (apply Z.pow_pos_nonneg; lia).
  assert (2 ^ k < 2 ^ (Zdigits2 (Zpos my) + ey + 149)) as Hlt.
  { replace (Zdigits2 (Zpos my) + ey + 149) with (Zdigits2 (Zpos my) + (ey + 149)) by lia.
    rewrite (Z.pow_add_r 2 (Zdigits2 (Zpos my)) (ey + 149)) by lia. nia. }
  apply Z.pow_lt_mono_r_iff in Hlt; lia.
Qed.

(** The quotient [1.0f / y] of the code, for a finite [y >= 1]: the
    rounding of the integer quotient of a power of two by the mantissa
    of [y], the remainder deciding the rounding. *)
Lemma div_one_as_aux (my : positive) (ey : Z) :
  canonical32 my ey -> 2 ^ 149 <= ulps (Zpos my) ey ->
  exists q e' lz r,
    real_div (real_of_Z 1) (S754_finite false my ey)
    = binary_round_aux real_prec real_emax false q e' lz /\
    0 <= q /\ -149 <= e' /\
    e' <= fexp real_prec real_emax (Zdigits2 q + e') /\
    0 <= r < Zpos my /\ (r = 0 -> lz = loc_Exact) /\
    e' <= Z.max (1 - (Zdigits2 (Zpos my) + ey) - 24) (-149) /\
    e' <= -23 - ey /\
    q * Zpos my + r = 2 ^ (- ey - e') /\
    lz = new_location (Zpos my) r.
Proof.
  intros (Hey & Hmh & Hml) Hy.
  pose proof (ulps_ge_one_digits my ey 149 ltac:(lia) ltac:(lia) Hy) as Hone.
  change (real_of_Z 1) with (S754_finite false 8388608 (-23)).
  unfold real_div, SFdiv, SFdiv_core_binary. cbn [xorb].
  change (Zdigits2 (Zpos 8388608)) with 24.
  destruct (Zdigits2_bounds (Zpos my) ltac:(lia)) as (Hd & Hdl & Hdh).
  set (d2 := Zdigits2 (Zpos my)) in *.
  rewrite fexp_value.
  set (e' := Z.min (Z.max (24 + -23 - (d2 + ey) - 24) (-149)) (-23 - ey)).
  assert (e' <= Z.max (1 - (d2 + ey) - 24) (-149)) as He1 by (unfold e'; lia).
  assert (e' <= -23 - ey) as He2 by (unfold e'; lia).
  assert (-149 <= e') as He3 by (unfold e'; lia).
  assert (-149 < e' -> d2 <= -23 - ey - e') as He4 by (unfold e'; lia).
  clearbody e'.
  set (s := -23 - ey - e').
  assert (0 <= s) as Hs by (unfold s; lia).
  assert (match s with
          | 0 => Zpos 8388608
          | Zpos _ => Z.shiftl (Zpos 8388608) s
          | Zneg _ => 0
          end = 2 ^ (- ey - e')) as Hm'.
  { replace (- ey - e') with (23 + s) by (unfold s; lia).
    rewrite (Z.pow_add_r 2 23 s) by lia.
    destruct s as [|p|p] eqn:Hsp.
    - reflexivity.
    - rewrite Z.shiftl_mul_pow2 by lia. reflexivity.
    - lia. }
  rewrite Hm'.
  pose proof (Z_div_mod (2 ^ (- ey - e')) (Zpos my) ltac:(lia)) as Hdm.
  destruct (Z.div_eucl (2 ^ (- ey - e')) (Zpos my)) as [q r].
  destruct Hdm as [Heq Hr].
  assert (0 < 2 ^ (- ey - e')) as Hpos by (apply Z.pow_pos_nonneg; lia).
  assert (0 <= q) as Hq by nia.
  exists q, e', (new_location (Zpos my) r), r.
  split; [reflexivity|]. split; [exact Hq|]. split; [exact He3|].
  split.
  { rewrite fexp_value.
    destruct (Z_le_gt_dec e' (-149)) as [Hlow|Hhigh]; [lia|].
    specialize (He4 ltac:(lia)). fold s in He4.
    assert (0 < 2 ^ (23 + s - d2)) as HX by (apply Z.pow_pos_nonneg; lia).
    assert (2 ^ d2 * 2 ^ (23 + s - d2) = 2 ^ (- ey - e')) as HP.
    { rewrite <- Z.pow_add_r by lia. f_equal. unfold s. lia. }
    assert (2 ^ (23 + s - d2) <= q) as Hql by nia.
    destruct (Zdigits2_bounds q ltac:(lia)) as (Hdq & _ & Hdqh).
    assert (2 ^ (23 + s - d2) < 2 ^ Zdigits2 q) as Hlt by lia.
    apply Z.pow_lt_mono_r_iff in Hlt; lia. }
  split; [exact Hr|]. split.
  { intros ->. apply new_location_exact. }
  split; [exact He1|]. split; [exact He2|]. split; [lia|reflexivity].
Qed.

(** An exact value at most a power of two is rounded to at most that
    power. *)
Lemma round_upper_exact (m e k : Z) :
  0 <= m -> e <= fexp real_prec real_emax (Zdigits2 m + e) ->
  -149 <= e <= k -> k <= 127 -> ulps m e <= 2 ^ (k + 149) ->
  binary_round_aux real_prec real_emax false m e loc_Exact = S754_zero false \/
  exists m' e',
    binary_round_aux real_prec real_emax false m e loc_Exact = S754_finite false m' e' /\
    canonical32 m' e' /\ ulps (Zpos m') e' <= 2 ^ (k + 149).
Proof.
  intros Hm Hpre He Hk Hval. apply round_upper; try assumption; try lia.
  destruct (Z.eq_dec (ulps m e) (2 ^ (k + 149))) as [Heq|Hne]; [now right|left].
  unfold ulps in *.
  assert (0 < 2 ^ (e + 149)) as HE by (apply Z.pow_pos_nonneg; lia).
  assert (2 ^ (k + 149) = 2 ^ (k - e) * 2 ^ (e + 149)) as Hsplit.
  { rewrite <- Z.pow_add_r by lia. f_equal. lia. }
  rewrite Hsplit in Hval, Hne |- *.
  set (J := 2 ^ (k - e)) in *. set (E := 2 ^ (e + 149)) in *.
  assert (m < J) as Hlt.
  { destruct (Z_lt_le_dec m J) as [|Hge]; [assumption|exfalso].
    assert (J * E <= m * E) by (apply Z.mul_le_mono_nonneg_r; lia). lia. }
  apply Z.mul_le_mono_nonneg_r; lia.
Qed.

(** [1.0f / y] is at most [2^k] when [y] is at least [2^-k]. *)
Lemma div_one_upper (my : positive) (ey k : Z) :
  canonical32 my ey -> -149 <= k <= 0 -> 2 ^ (149 - k) <= ulps (Zpos my) ey ->
  real_div (real_of_Z 1) (S754_finite false my ey) = S754_zero false \/
  exists m' e',
    real_div (real_of_Z 1) (S754_finite false my ey) = S754_finite false m' e' /\
    canonical32 m' e' /\ ulps (Zpos m') e' <= 2 ^ (k + 149).
Proof.
  intros Hcan Hk Hy.
  assert (2 ^ 149 <= ulps (Zpos my) ey) as Hone.
  { etransitivity; [|exact Hy]. apply Z.pow_le_mono_r; lia. }
  destruct (div_one_as_aux my ey Hcan Hone)
    as (q & e' & lz & r & -> & Hq & He' & Hpre & Hr & Hex & He1 & He2 & Heq & _).
  destruct Hcan as (Hey & _ & _).
  pose proof (ulps_ge_one_digits my ey (149 - k) ltac:(lia) ltac:(lia) Hy) as Hdig.
  assert (e' <= k) as Hek by lia.
  apply round_upper; try assumption; try lia.
  unfold ulps in *.
  set (A := 2 ^ (ey + 149)) in *. set (E := 2 ^ (e' + 149)).
  set (J := 2 ^ (k - e')). set (B := 2 ^ (149 - k)) in *.
  assert (0 < A) as HA by (apply Z.pow_pos_nonneg; lia).
  assert (0 < E) as HE by (apply Z.pow_pos_nonneg; lia).
  assert (0 < J) as HJ by (apply Z.pow_pos_nonneg; lia).
  assert (0 < B) as HB by (apply Z.pow_pos_nonneg; lia).
  assert (2 ^ (k + 149) = J * E) as Hsplit.
  { unfold J, E. rewrite <- Z.pow_add_r by lia. f_equal. lia. }
  assert (2 ^ (- ey - e') * A = J * B) as Hprod.
  { unfold A, J, B. rewrite <- !Z.pow_add_r by lia. f_equal. lia. }
  rewrite Hsplit. rewrite <- Heq in Hprod.
  set (V := Zpos my * A) in *.
  assert (q * V + r * A = J * B) as Hsum by (unfold V; lia).
  clear Hprod Heq.
  destruct (Z_lt_le_dec q J) as [Hlt|Hge].
  - left. nia.
  - right.
    assert (J * B <= q * V) as Hlow.
    { transitivity (J * V); [apply Z.mul_le_mono_nonneg_l; lia|].
      apply Z.mul_le_mono_nonneg_r; lia. }
    assert (r = 0) as Hr0 by nia.
    split; [exact (Hex Hr0)|]. subst r.
    assert (q * B <= J * B) as Hqb.
    { transitivity (q * V); [apply Z.mul_le_mono_nonneg_l; lia|lia]. }
    assert (q <= J) as HqJ by nia.
    assert (q = J) as -> by lia. reflexivity.
Qed.

(** [1.0f / y] is at least [2^k] when [y] is between 1 and [2^-k]. *)
Lemma div_one_lower (my : positive) (ey k : Z) :
  canonical32 my ey -> -24 <= k <= 0 ->
  2 ^ 149 <= ulps (Zpos my) ey -> ulps (Zpos my) ey <= 2 ^ (149 - k) ->
  real_div (real_of_Z 1) (S754_finite false my ey) = S754_infinity false \/
  exists m' e',
    real_div (real_of_Z 1) (S754_finite false my ey) = S754_finite false m' e' /\
    canonical32 m' e' /\ 2 ^ (k + 149) <= ulps (Zpos m') e'.
Proof.
  intros Hcan Hk Hone Hy.
  destruct (div_one_as_aux my ey Hcan Hone)
    as (q & e' & lz & r & -> & Hq & He' & Hpre & Hr & Hex & He1 & He2 & Heq & _).
  destruct Hcan as (Hey & _ & _).
  pose proof (ulps_ge_one_digits my ey 149 ltac:(lia) ltac:(lia) Hone) as Hdig.
  assert (e' <= k) as Hek by lia.
  apply round_lower; try assumption; try lia.
  unfold ulps in *.
  set (A := 2 ^ (ey + 149)) in *. set (E := 2 ^ (e' + 149)).
  set (J := 2 ^ (k - e')). set (B := 2 ^ (149 - k)) in *.
  assert (0 < A) as HA by (apply Z.pow_pos_nonneg; lia).
  assert (0 < E) as HE by (apply Z.pow_pos_nonneg; lia).
  assert (0 < J) as HJ by (apply Z.pow_pos_nonneg; lia).
  assert (0 < B) as HB by (apply Z.pow_pos_nonneg; lia).
  assert (2 ^ (k + 149) = J * E) as Hsplit.
  { unfold J, E. rewrite <- Z.pow_add_r by lia. f_equal. lia. }
  assert (2 ^ (- ey - e') * A = J * B) as Hprod.
  { unfold A, J, B. rewrite <- !Z.pow_add_r by lia. f_equal. lia. }
  rewrite Hsplit. rewrite <- Heq in Hprod.
  set (V := Zpos my * A) in *.
  assert (q * V + r * A = J * B) as Hsum by (unfold V; lia).
  assert (r * A < V) as HrV by (unfold V; nia).
  clear Hprod Heq.
  assert (J * B < (q + 1) * B) as Hlt.
  { apply Z.lt_le_trans with ((q + 1) * V); [lia|].
    apply Z.mul_le_mono_nonneg_l; lia. }
  assert (J <= q) as HJq by nia.
  apply Z.mul_le_mono_nonneg_r; lia.
Qed.

Lemma canonical_valid (s : bool) (m : positive) (e : Z) :
  canonical32 m e -> valid_binary real_prec real_emax (S754_finite s m e) = true.
Proof.
  intros (He & Hh & Hl). cbn [valid_binary].
  unfold SpecFloat.bounded, canonical_mantissa.
  apply andb_true_iff. split; [apply Z.eqb_eq|apply Z.leb_le].
  - change (Zpos (digits2_pos m)) with (Zdigits2 (Zpos m)). rewrite fexp_value.
    destruct (Zdigits2_bounds (Zpos m) ltac:(lia)) as (Hd & Hdl & Hdh).
    set (d := Zdigits2 (Zpos m)) in *.
    assert (d <= 24) as Hd24.
    { destruct (Z_le_gt_dec d 24) as [|Hgt]; [assumption|exfalso].
      assert (2 ^ 24 <= 2 ^ (d - 1)) by (apply Z.pow_le_mono_r; lia). lia. }
    destruct Hl as [->|Hl]; [lia|].
    assert (23 < d) as Hd23 by (apply (Z.pow_lt_mono_r_iff 2); lia).
    lia.
  - change (real_emax - real_prec) with 104. lia.
Qed.

(** A valid number that passes the test [t >= 0] of the code: a zero,
    plus infinity or a positive finite number. *)
Lemma nonneg_cases (t : real_t) :
  valid_binary real_prec real_emax t = true -> real_ge t (real_of_Z 0) = true ->
  (exists s, t = S754_zero s) \/ t = S754_infinity false \/
  exists m e, t = S754_finite false m e /\ canonical32 m e.
Proof.
  intros Hv Hge. rewrite real_ge_zero_class in Hge.
  destruct t as [s|s| |s m e].
  - left. now exists s.
  - destruct s; [discriminate Hge|]. right. now left.
  - discriminate Hge.
  - destruct s; [discriminate Hge|]. right. right. exists m, e.
    split; [reflexivity|]. exact (valid_canonical _ _ _ Hv).
Qed.

(** [1.0f + t] for a positive finite [t]: at least one, at most two
    when [t <= 1], at least two when [t >= 1]. *)
Lemma add_one_bounds (mt : positive) (et : Z) :
  canonical32 mt et ->
  (real_add (real_of_Z 1) (S754_finite false mt et) = S754_infinity false /\
   2 ^ 149 < ulps (Zpos mt) et) \/
  exists my ey,
    real_add (real_of_Z 1) (S754_finite false mt et) = S754_finite false my ey /\
    canonical32 my ey /\ 2 ^ 149 <= ulps (Zpos my) ey /\
    (ulps (Zpos mt) et <= 2 ^ 149 -> ulps (Zpos my) ey <= 2 ^ 150) /\
    (2 ^ 149 <= ulps (Zpos mt) et -> 2 ^ 150 <= ulps (Zpos my) ey).
Proof.
  intros Hcan.
  destruct (add_one_as_aux mt et Hcan) as (mz & ez & Hy & Hmz & Hez & Hpre & Hval).
  assert (0 <= ulps (Zpos mt) et) as Hpos.
  { unfold ulps. apply Z.mul_nonneg_nonneg; [lia|]. apply Z.pow_nonneg. lia. }
  assert (2 ^ (1 + 149) = 2 ^ 149 * 2) as Htwo by reflexivity.
  assert (2 ^ (0 + 149) <= ulps mz ez) as Hlow0.
  { rewrite Hval. change (2 ^ (0 + 149)) with (2 ^ 149). lia. }
  assert (ulps (Zpos mt) et <= 2 ^ 149 ->
          binary_round_aux real_prec real_emax false mz ez loc_Exact = S754_zero false \/
          exists m' e',
            binary_round_aux real_prec real_emax false mz ez loc_Exact
            = S754_finite false m' e' /\
            canonical32 m' e' /\ ulps (Zpos m') e' <= 2 ^ (1 + 149)) as Hupper.
  { intros Hle. apply round_upper_exact; try assumption; lia. }
  assert (2 ^ 149 <= ulps (Zpos mt) et ->
          binary_round_aux real_prec real_emax false mz ez loc_Exact = S754_infinity false \/
          exists m' e',
            binary_round_aux real_prec real_emax false mz ez loc_Exact
            = S754_finite false m' e' /\
            canonical32 m' e' /\ 2 ^ (1 + 149) <= ulps (Zpos m') e') as Hlower.
  { intros Hge. apply round_lower; try assumption; lia. }
  rewrite Hy.
  destruct (round_lower mz ez 0 loc_Exact ltac:(lia) Hpre ltac:(lia) ltac:(lia) Hlow0)
    as [Hinf|(my & ey & Hfin & Hc & Hlow)].
  - left. split; [exact Hinf|].
    destruct (Z_lt_le_dec (2 ^ 149) (ulps (Zpos mt) et)) as [|Hsmall]; [assumption|].
    exfalso. destruct (Hupper Hsmall) as [Hz|(m' & e' & Hfin' & _)].
    + rewrite Hinf in Hz. discriminate Hz.
    + rewrite Hinf in Hfin'. discriminate Hfin'.
  - right. exists my, ey.
    split; [exact Hfin|]. split; [exact Hc|].
    split; [exact Hlow|]. split.
    + intros Hle. destruct (Hupper Hle) as [Hz|(m' & e' & Hfin' & _ & Hup)].
      * rewrite Hfin in Hz. discriminate Hz.
      * rewrite Hfin in Hfin'. injection Hfin' as <- <-. exact Hup.
    + intros Hge. destruct (Hlower Hge) as [Hinf|(m' & e' & Hfin' & _ & Hlo)].
      * rewrite Hfin in Hinf. discriminate Hinf.
      * rewrite Hfin in Hfin'. injection Hfin' as <- <-. exact Hlo.
Qed.

(** [1.0f / y] for a finite [y >= 1]: a number of [[0, 1]], at least
    1/2 when [y <= 2] and at most 1/2 when [y >= 2]. *)
Lemma div_one_bounds (my : positive) (ey : Z) :
  canonical32 my ey -> 2 ^ 149 <= ulps (Zpos my) ey ->
  (real_div (real_of_Z 1) (S754_finite false my ey) = S754_zero false /\
   2 ^ 150 < ulps (Zpos my) ey) \/
  exists m e,
    real_div (real_of_Z 1) (S754_finite false my ey) = S754_finite false m e /\
    canonical32 m e /\ ulps (Zpos m) e <= 2 ^ 149 /\
    (ulps (Zpos my) ey <= 2 ^ 150 -> 2 ^ 148 <= ulps (Zpos m) e) /\
    (2 ^ 150 <= ulps (Zpos my) ey -> ulps (Zpos m) e <= 2 ^ 148).
Proof.
  intros Hcan Hone.
  pose proof (div_one_upper my ey 0 Hcan ltac:(lia) Hone) as Hup0.
  pose proof (fun H => div_one_upper my ey (-1) Hcan ltac:(lia) H) as Hup1.
  pose proof (fun H => div_one_lower my ey (-1) Hcan ltac:(lia) Hone H) as Hlo1.
  change (2 ^ (149 - -1)) with (2 ^ 150) in Hup1, Hlo1.
  change (2 ^ (-1 + 149)) with (2 ^ 148) in Hup1, Hlo1.
  change (2 ^ (0 + 149)) with (2 ^ 149) in Hup0.
  destruct Hup0 as [Hz|(m & e & Hfin & Hc & Hle)].
  - left. split; [exact Hz|].
    destruct (Z_lt_le_dec (2 ^ 150) (ulps (Zpos my) ey)) as [|Hsmall]; [assumption|].
    exfalso. destruct (Hlo1 Hsmall) as [Hinf|(m' & e' & Hfin' & _)].
    + rewrite Hz in Hinf. discriminate Hinf.
    + rewrite Hz in Hfin'. discriminate Hfin'.
  - right. exists m, e.
    split; [exact Hfin|]. split; [exact Hc|]. split; [exact Hle|]. split.
    + intros Hsmall. destruct (Hlo1 Hsmall) as [Hinf|(m' & e' & Hfin' & _ & Hlo)].
      * rewrite Hfin in Hinf. discriminate Hinf.
      * rewrite Hfin in Hfin'. injection Hfin' as <- <-. exact Hlo.
    + intros Hbig. destruct (Hup1 Hbig) as [Hz|(m' & e' & Hfin' & _ & Hup)].
      * rewrite Hfin in Hz. discriminate Hz.
      * rewrite Hfin in Hfin'. injection Hfin' as <- <-. exact Hup.
Qed.

Lemma one_canonical : canonical32 8388608 (-23).
Proof.
  unfold canonical32. split; [lia|]. split; [reflexivity|].
  right. apply Z.leb_le. reflexivity.
Qed.

Lemma half_canonical : canonical32 8388608 (-24).
Proof.
  unfold canonical32. split; [lia|]. split; [reflexivity|].
  right. apply Z.leb_le. reflexivity.
Qed.

(** The quotient [1.0f / (1.0f + t)] for a valid [t] that passes the
    test [t >= 0]. *)
Lemma sigmoid_core (t : real_t) :
  valid_binary real_prec real_emax t = true -> real_ge t (real_of_Z 0) = true ->
  let r := real_div (real_of_Z 1) (real_add (real_of_Z 1) t) in
  valid_binary real_prec real_emax r = true /\
  real_ge r (real_of_Z 0) = true /\
  real_ge (real_of_Z 1) r = true /\
  (real_ge (real_of_Z 1) t = true -> real_ge r real_half = true) /\
  (real_ge t (real_of_Z 1) = true -> real_ge real_half r = true).
Proof.
  intros Hv Hge r. subst r.
  destruct (nonneg_cases t Hv Hge) as [[s ->]|[->|(mt & et & -> & Hcan)]].
  - destruct s; vm_compute; split_and!; intros; congruence.
  - vm_compute; split_and!; intros; congruence.
  - pose proof (real_ge_canonical 8388608 (-23) mt et one_canonical Hcan) as Hle1.
    pose proof (real_ge_canonical mt et 8388608 (-23) Hcan one_canonical) as Hge1.
    change (S754_finite false 8388608 (-23)) with (real_of_Z 1) in Hle1, Hge1.
    change (ulps (Zpos 8388608) (-23)) with (2 ^ 149) in Hle1, Hge1.
    destruct (add_one_bounds mt et Hcan)
      as [[-> Hbig]|(my & ey & -> & Hcy & Hone & Hle2 & Hge2)].
    + change (real_div (real_of_Z 1) (S754_infinity false)) with (S754_zero false).
      split; [reflexivity|]. split; [reflexivity|]. split; [reflexivity|]. split.
      * intros H1. apply Hle1 in H1. lia.
      * intros _. reflexivity.
    + destruct (div_one_bounds my ey Hcy Hone)
        as [[-> Hbig]|(m & e & -> & Hc & Hle & Hlo & Hup)].
      * split; [reflexivity|]. split; [reflexivity|]. split; [reflexivity|]. split.
        -- intros H1. apply Hle1 in H1. specialize (Hle2 H1). lia.
        -- intros _. reflexivity.
      * pose proof (real_ge_canonical 8388608 (-23) m e one_canonical Hc) as Hr1.
        pose proof (real_ge_canonical m e 8388608 (-24) Hc half_canonical) as Hrh.
        pose proof (real_ge_canonical 8388608 (-24) m e half_canonical Hc) as Hhr.
        change (S754_finite false 8388608 (-23)) with (real_of_Z 1) in Hr1.
        change (S754_finite false 8388608 (-24)) with real_half in Hrh, Hhr.
        change (ulps (Zpos 8388608) (-23)) with (2 ^ 149) in Hr1.
        change (ulps (Zpos 8388608) (-24)) with (2 ^ 148) in Hrh, Hhr.
        split; [now apply canonical_valid|].
        split; [now rewrite real_ge_zero_class|].
        split; [now apply Hr1|]. split.
        -- intros H1. apply Hrh, Hlo, Hle2, Hle1, H1.
        -- intros H1. apply Hhr, Hup, Hge2, Hge1, H1.
Qed.

(** X8.  The range of [sigmoid].  Whenever the exponential [exp(-x)]
    is a valid binary32 number that passes the test [>= 0] (a zero, a
    positive finite number or plus infinity), the value
    [1.0f / (1.0f + exp(-x))] is again a valid binary32 number and lies
    in the closed interval from 0 to 1 for the comparisons of the code,
    whatever rounding the sum and the quotient take. *)
Theorem sigmoid_unit_interval (expf : real_t -> real_t) (x : real_t) :
  valid_binary real_prec real_emax (expf (real_neg x)) = true ->
  real_ge (expf (real_neg x)) (real_of_Z 0) = true ->
  valid_binary real_prec real_emax (sigmoid expf x) = true /\
  real_ge (sigmoid expf x) (real_of_Z 0) = true /\
  real_ge (real_of_Z 1) (sigmoid expf x) = true.
Proof.
  intros Hv Hge. destruct (sigmoid_core _ Hv Hge) as (H1 & H2 & H3 & _).
  unfold sigmoid. now split_and!.
Qed.

Lemma sigmoid_unit_interval_witness :
  valid_binary real_prec real_emax (sigmoid (fun _ => real_of_Z 3) real_half) = true /\
  real_ge (sigmoid (fun _ => real_of_Z 3) real_half) (real_of_Z 0) = true /\
  real_ge (real_of_Z 1) (sigmoid (fun _ => real_of_Z 3) real_half) = true.
Proof.
  apply (sigmoid_unit_interval (fun _ => real_of_Z 3) real_half); reflexivity.
Defined.

(** X9.  The threshold 1/2 of [sigmoid].  With a valid non-negative
    exponential, [sigmoid(x) >= 0.5] as soon as [exp(-x) <= 1], and
    [sigmoid(x) <= 0.5] as soon as [exp(-x) >= 1]: the two roundings
    never carry the value across one half, and [exp(-x) = 1] gives
    exactly [0.5]. *)
Theorem sigmoid_half_threshold (expf : real_t -> real_t) (x : real_t) :
  valid_binary real_prec real_emax (expf (real_neg x)) = true ->
  real_ge (expf (real_neg x)) (real_of_Z 0) = true ->
  (real_ge (real_of_Z 1) (expf (real_neg x)) = true ->
   real_ge (sigmoid expf x) real_half = true) /\
  (real_ge (expf (real_neg x)) (real_of_Z 1) = true ->
   real_ge real_half (sigmoid expf x) = true) /\
  (expf (real_neg x) = real_of_Z 1 -> sigmoid expf x = real_half).
Proof.
  intros Hv Hge. destruct (sigmoid_core _ Hv Hge) as (_ & _ & _ & H4 & H5).
  unfold sigmoid. split; [exact H4|]. split; [exact H5|].
  intros ->. reflexivity.
Qed.

Lemma sigmoid_half_threshold_witness :
  real_ge (sigmoid (fun _ => real_half) (real_of_Z 1)) real_half = true /\
  real_ge real_half (sigmoid (fun _ => real_of_Z 3) (real_of_Z (-1))) = true /\
  sigmoid expf_coarse (real_of_Z 0) = real_half.
Proof.
  split; [|split].
  - apply (sigmoid_half_threshold (fun _ => real_half) (real_of_Z 1)); reflexivity.
  - apply (sigmoid_half_threshold (fun _ => real_of_Z 3) (real_of_Z (-1))); reflexivity.
  - apply (sigmoid_half_threshold expf_coarse (real_of_Z 0)); reflexivity.
Defined.

(** X10.  [Sign] after [Sigmoid].  [Sigmoid] returns numbers that are
    never negative, and [Sign] tests [>= 0]: applied to the output of
    [Sigmoid], [Sign] returns 1 in every slot, whatever the scores
    were.  The 0/1 label of a score is [Sign] of the score itself. *)
Theorem Sign_after_Sigmoid (expf : real_t -> real_t) (pred mid out : list real_t) :
  length pred = length mid -> length pred = length out ->
  Forall (fun x => valid_binary real_prec real_emax (expf (real_neg x)) = true /\
                   real_ge (expf (real_neg x)) (real_of_Z 0) = true) pred ->
  exists probs,
    Sigmoid expf pred mid = Ok probs /\
    Sign probs out = Ok (replicate (length pred) (real_of_Z 1)).
Proof.
  intros Hmid Hout Hexp. eexists. split; [now apply Sigmoid_value|].
  rewrite Sign_value by (now rewrite length_fmap). f_equal.
  apply list_eq. intros i. rewrite !list_lookup_fmap.
  destruct (pred !! i) as [x|] eqn:Hx; cbn [fmap option_fmap option_map].
  - rewrite lookup_replicate_2 by (now apply lookup_lt_Some in Hx).
    rewrite Forall_lookup in Hexp. destruct (Hexp i x Hx) as [Hv Hge].
    destruct (sigmoid_core _ Hv Hge) as (_ & H2 & _).
    unfold sigmoid. now rewrite H2.
  - symmetry. apply lookup_ge_None_2. rewrite length_replicate.
    now apply lookup_ge_None in Hx.
Qed.

Lemma Sign_after_Sigmoid_witness :
  exists probs,
    Sigmoid expf_coarse test_pred (replicate 6 (real_of_Z 0)) = Ok probs /\
    Sign probs (replicate 6 (real_of_Z 0)) = Ok (replicate 6 (real_of_Z 1)).
Proof.
  apply (Sign_after_Sigmoid expf_coarse test_pred
           (replicate 6 (real_of_Z 0)) (replicate 6 (real_of_Z 0)));
    [reflexivity|reflexivity|].
  repeat constructor.
Defined.

(** ** Rounding to nearest: the rule, and that it keeps the order *)

Lemma loc_of_record_of_loc (m : Z) (l : location) :
  loc_of_shr_record (shr_record_of_loc m l) = l.
Proof. destruct l as [|[]]; reflexivity. Qed.

Lemma shr_record_of_loc_m (m : Z) (l : location) :
  exists r s, shr_record_of_loc m l = Build_shr_record m r s.
Proof. destruct l as [|[]]; eexists _, _; reflexivity. Qed.

(** One bit cut off: the fraction is halved, and half a unit is added
    when the bit was 1. *)
Lemma shr_1_at (M : Z) (r s : bool) (num den : Z) :
  0 <= M -> 0 <= num < den ->
  loc_at (loc_of_shr_record (Build_shr_record M r s)) num den ->
  loc_at (loc_of_shr_record (shr_1 (Build_shr_record M r s)))
         ((M mod 2) * den + num) (2 * den).
Proof.
  intros HM Hnum Hat. rewrite shr_1_nonneg by assumption.
  rewrite Zmod_odd.
  destruct r, s, (Z.odd M); cbn [loc_of_shr_record loc_at orb] in *; lia.
Qed.

Lemma shr_iter_at (k : nat) (M : Z) (r s : bool) (num den : Z) :
  0 <= M -> 0 <= num < den ->
  loc_at (loc_of_shr_record (Build_shr_record M r s)) num den ->
  exists r' s',
    Nat.iter k shr_1 (Build_shr_record M r s)
    = Build_shr_record (M / 2 ^ Z.of_nat k) r' s' /\
    loc_at (loc_of_shr_record (Build_shr_record (M / 2 ^ Z.of_nat k) r' s'))
           ((M mod 2 ^ Z.of_nat k) * den + num) (2 ^ Z.of_nat k * den).
Proof.
  intros HM Hnum Hat. induction k as [|k (r' & s' & IH & IHat)].
  - exists r, s. cbn [Nat.iter nat_rect]. change (2 ^ Z.of_nat 0) with 1.
    rewrite Z.div_1_r, Z.mod_1_r, Z.mul_0_l, Z.add_0_l, Z.mul_1_l.
    split; [reflexivity|exact Hat].
  - assert (0 < 2 ^ Z.of_nat k) as Hpow by (apply Z.pow_pos_nonneg; lia).
    assert (0 <= M / 2 ^ Z.of_nat k) as Hdiv by (apply Z.div_pos; lia).
    pose proof (Z.mod_pos_bound M (2 ^ Z.of_nat k) Hpow) as Hlow.
    assert (0 <= M mod 2 ^ Z.of_nat k * den + num < 2 ^ Z.of_nat k * den) as Hnum' by nia.
    pose proof (shr_1_at _ r' s' _ _ Hdiv Hnum' IHat) as Hstep.
    rewrite Nat.iter_succ, IH.
    rewrite shr_1_nonneg in Hstep |- * by assumption.
    assert (2 ^ Z.of_nat (S k) = 2 ^ Z.of_nat k * 2) as Hsucc.
    { rewrite Nat2Z.inj_succ, Z.pow_succ_r by lia. lia. }
    rewrite Hsucc. rewrite <- Z.div_div by lia.
    eexists _, _. split; [reflexivity|].
    rewrite Z.rem_mul_r by lia.
    cbn [loc_of_shr_record] in Hstep |- *.
    replace ((M mod 2 ^ Z.of_nat k + 2 ^ Z.of_nat k * ((M / 2 ^ Z.of_nat k) mod 2)) * den + num)
      with ((M / 2 ^ Z.of_nat k) mod 2 * (2 ^ Z.of_nat k * den)
            + (M mod 2 ^ Z.of_nat k * den + num)) by ring.
    replace (2 ^ Z.of_nat k * 2 * den) with (2 * (2 ^ Z.of_nat k * den)) by ring.
    exact Hstep.
Qed.

(** [shr_fexp] with the place of the exact number kept track of. *)
Lemma shr_fexp_at (m e : Z) (l : location) (num den : Z) :
  0 <= m -> e <= fexp real_prec real_emax (Zdigits2 m + e) ->
  0 <= num < den -> loc_at l num den ->
  exists r s,
    shr_fexp real_prec real_emax m e l
    = (Build_shr_record (m / 2 ^ (fexp real_prec real_emax (Zdigits2 m + e) - e)) r s,
       fexp real_prec real_emax (Zdigits2 m + e)) /\
    loc_at (loc_of_shr_record
              (Build_shr_record (m / 2 ^ (fexp real_prec real_emax (Zdigits2 m + e) - e)) r s))
           ((m mod 2 ^ (fexp real_prec real_emax (Zdigits2 m + e) - e)) * den + num)
           (2 ^ (fexp real_prec real_emax (Zdigits2 m + e) - e) * den).
Proof.
  intros Hm Hpre Hnum Hat. unfold shr_fexp, shr.
  set (f := fexp real_prec real_emax (Zdigits2 m + e)) in *.
  destruct (shr_record_of_loc_m m l) as (r0 & s0 & Hrec).
  pose proof (loc_of_record_of_loc m l) as Hloc. rewrite Hrec in Hloc |- *.
  rewrite <- Hloc in Hat.
  destruct (f - e) as [|p|p] eqn:Hn; [| |lia].
  - exists r0, s0. change (2 ^ 0) with 1.
    rewrite Z.div_1_r, Z.mod_1_r, Z.mul_0_l, Z.add_0_l, Z.mul_1_l.
    split; [f_equal; lia|exact Hat].
  - rewrite iter_pos_nat.
    destruct (shr_iter_at (Pos.to_nat p) m r0 s0 num den Hm Hnum Hat)
      as (r & s & Hiter & Hat').
    rewrite positive_nat_Z in Hiter, Hat'.
    exists r, s. rewrite Hiter. split; [f_equal; lia|exact Hat'].
Qed.

Lemma round_nearest_even_at (m : Z) (l : location) (P Q : Z) :
  0 <= P < Q -> loc_at l P Q ->
  round_nearest_even m l = m + nearest_even_carry m P Q.
Proof.
  intros HP Hat. unfold nearest_even_carry.
  destruct l as [|[]]; cbn [loc_at round_nearest_even] in *;
    destruct (Z.compare_spec (2 * P) Q); try lia; destruct (Z.even m); lia.
Qed.

Lemma nearest_even_carry_range (m P Q : Z) :
  0 <= nearest_even_carry m P Q <= 1.
Proof.
  unfold nearest_even_carry.
  destruct (2 * P ?= Q); [destruct (Z.even m)| |]; lia.
Qed.

(** [binary_round_aux] is rounding to nearest, ties to even. *)
Lemma binary_round_aux_at (m e : Z) (l : location) (num den : Z) :
  0 <= m -> e <= fexp real_prec real_emax (Zdigits2 m + e) ->
  0 <= num < den -> loc_at l num den ->
  binary_round_aux real_prec real_emax false m e l = round32 m e num den.
Proof.
  intros Hm Hpre Hnum Hat.
  destruct (binary_round_aux_cases m e loc_Exact Hm Hpre)
    as (_ & _ & _ & Hhigh & Hlow & He1 & _).
  destruct (shr_fexp_at m e l num den Hm Hpre Hnum Hat) as (r & s & Hshr & Hat').
  unfold round32.
  set (e1 := fexp real_prec real_emax (Zdigits2 m + e)) in *.
  set (m1 := m / 2 ^ (e1 - e)) in *.
  assert (0 < 2 ^ (e1 - e)) as Hpow by (apply Z.pow_pos_nonneg; lia).
  assert (0 <= m1) as Hm1 by (apply Z.div_pos; lia).
  pose proof (Z.mod_pos_bound m (2 ^ (e1 - e)) Hpow) as Hmod.
  set (P := m mod 2 ^ (e1 - e) * den + num) in *.
  set (Q := 2 ^ (e1 - e) * den) in *.
  assert (0 <= P < Q) as HP by (unfold P, Q; nia).
  pose proof (nearest_even_carry_range m1 P Q) as Hc.
  unfold binary_round_aux. rewrite Hshr. cbn [shr_m].
  rewrite (round_nearest_even_at m1 _ P Q HP Hat').
  set (c := nearest_even_carry m1 P Q) in *.
  assert (0 <= m1 + c) as HM by lia.
  destruct (shr_fexp_spec (m1 + c) e1 loc_Exact HM) as (r2 & s2 & Hshr2 & _).
  rewrite Hshr2. cbn [shr_m].
  unfold pack32.
  destruct (Z.eqb_spec (m1 + c) 0) as [Hz|Hnz].
  - rewrite Hz. cbn [Zdigits2]. rewrite fexp_value, Z.max_l by lia.
    now rewrite Z.div_0_l by lia.
  - destruct (Z.eqb_spec (m1 + c) (2 ^ 24)) as [Hcarry|Hnc].
    + rewrite Hcarry.
      change (Zdigits2 (2 ^ 24)) with 25.
      rewrite fexp_value, Z.max_r by lia.
      replace (Z.max (25 + e1 - 24) (-149)) with (e1 + 1) by lia.
      replace (e1 + 1 - e1) with 1 by lia.
      change (2 ^ 24 / 2 ^ 1) with (Zpos (Z.to_pos (2 ^ 23))).
      reflexivity.
    + destruct (Zdigits2_bounds (m1 + c) ltac:(lia)) as (Hd & Hdl & Hdh).
      set (d := Zdigits2 (m1 + c)) in *.
      assert (d <= 24).
      { destruct (Z_lt_le_dec 24 d) as [Hbig|]; [|assumption].
        assert (2 ^ 24 <= 2 ^ (d - 1)) by (apply Z.pow_le_mono_r; lia). lia. }
      rewrite fexp_value, Z.max_l by lia.
      rewrite Z.sub_diag, Z.div_1_r.
      destruct (m1 + c) as [|p|p] eqn:HMp; try lia.
      now rewrite Pos2Z.id.
Qed.

Lemma ulps_canonical_lt (m : positive) (e : Z) :
  canonical32 m e -> 0 < ulps (Zpos m) e < 2 ^ 277.
Proof.
  intros (He & Hh & _). unfold ulps.
  assert (0 < 2 ^ (e + 149)) by (apply Z.pow_pos_nonneg; lia).
  assert (2 ^ (e + 149) <= 2 ^ 253) by (apply Z.pow_le_mono_r; lia).
  change (2 ^ 277) with (2 ^ 24 * 2 ^ 253). nia.
Qed.

(** The order of two numbers assembled by [pack32] is the order of
    their values. *)
Lemma pack32_le (A1 E1 A2 E2 : Z) :
  0 <= A1 <= 2 ^ 24 -> -149 <= E1 -> (A1 = 0 \/ E1 = -149 \/ 2 ^ 23 <= A1) ->
  0 <= A2 <= 2 ^ 24 -> -149 <= E2 -> (A2 = 0 \/ E2 = -149 \/ 2 ^ 23 <= A2) ->
  ulps A1 E1 <= ulps A2 E2 ->
  real_ge (pack32 A2 E2) (pack32 A1 E1) = true.
Proof.
  intros HA1 HE1 Hn1 HA2 HE2 Hn2 Hle.
  assert (0 < 2 ^ (E1 + 149)) as HU1 by (apply Z.pow_pos_nonneg; lia).
  assert (0 < 2 ^ (E2 + 149)) as HU2 by (apply Z.pow_pos_nonneg; lia).
  destruct (Z.eq_dec A1 0) as [->|Hnz1].
  - change (pack32 0 E1) with (S754_zero false).
    destruct (Z.eq_dec A2 0) as [->|Hnz2]; [reflexivity|].
    destruct (pack32_spec A2 E2 ltac:(lia) HE2 ltac:(lia))
      as [[-> _]|(m2 & e2 & -> & _)]; reflexivity.
  - assert (A2 <> 0) as Hnz2.
    { intros ->. unfold ulps in Hle. nia. }
    destruct (pack32_spec A1 E1 ltac:(lia) HE1 ltac:(lia))
      as [[-> Hbig1]|(m1 & e1 & -> & Hc1 & Hv1)];
    destruct (pack32_spec A2 E2 ltac:(lia) HE2 ltac:(lia))
      as [[-> Hbig2]|(m2 & e2 & -> & Hc2 & Hv2)].
    + reflexivity.
    + pose proof (ulps_canonical_lt m2 e2 Hc2). lia.
    + reflexivity.
    + apply real_ge_canonical; [assumption|assumption|lia].
Qed.

(** The core of the argument: of two exact numbers in order, given by
    mantissa, exponent and cut-off fraction, the nearest binary32 numbers
    are in the same order. *)
Lemma carry_monotone (m1 P1 Q1 E1 m2 P2 Q2 E2 : Z) :
  0 <= m1 < 2 ^ 24 -> 0 <= m2 < 2 ^ 24 -> -149 <= E1 -> -149 <= E2 ->
  (E1 = -149 \/ 2 ^ 23 <= m1) -> (E2 = -149 \/ 2 ^ 23 <= m2) ->
  0 <= P1 < Q1 -> 0 <= P2 < Q2 ->
  (m1 * Q1 + P1) * 2 ^ (E1 + 149) * Q2 <= (m2 * Q2 + P2) * 2 ^ (E2 + 149) * Q1 ->
  ulps (m1 + nearest_even_carry m1 P1 Q1) E1
  <= ulps (m2 + nearest_even_carry m2 P2 Q2) E2.
Proof.
  intros Hm1 Hm2 HE1 HE2 Hn1 Hn2 HP1 HP2 Hle. unfold ulps.
  pose proof (nearest_even_carry_range m1 P1 Q1) as Hc1.
  pose proof (nearest_even_carry_range m2 P2 Q2) as Hc2.
  assert (0 < 2 ^ (E1 + 149)) as HU1 by (apply Z.pow_pos_nonneg; lia).
  assert (0 < 2 ^ (E2 + 149)) as HU2 by (apply Z.pow_pos_nonneg; lia).
  assert (2 ^ 24 = 2 * 2 ^ 23) as H24 by reflexivity.
  assert (0 < 2 ^ 23) as H23 by reflexivity.
  assert (0 < Q1 * Q2) as HX by nia.
  destruct (Z_lt_le_dec E1 E2) as [Hlt|Hge];
    [|destruct (Z_lt_le_dec E2 E1) as [Hgt|Hle'];
      [|assert (E2 = E1) as Heq by lia]].
  - assert (2 * 2 ^ (E1 + 149) <= 2 ^ (E2 + 149)) as Hstep.
    { rewrite <- Z.pow_succ_r by lia. apply Z.pow_le_mono_r; lia. }
    set (U1 := 2 ^ (E1 + 149)) in *. set (U2 := 2 ^ (E2 + 149)) in *.
    set (c1 := nearest_even_carry m1 P1 Q1) in *.
    set (c2 := nearest_even_carry m2 P2 Q2) in *.
    assert (2 ^ 23 <= m2) as Hbig by lia.
    transitivity (2 ^ 24 * U1); [apply Z.mul_le_mono_nonneg_r; lia|].
    transitivity (2 ^ 23 * U2); [rewrite H24; nia|].
    apply Z.mul_le_mono_nonneg_r; lia.
  - exfalso.
    assert (2 * 2 ^ (E2 + 149) <= 2 ^ (E1 + 149)) as Hstep.
    { rewrite <- Z.pow_succ_r by lia. apply Z.pow_le_mono_r; lia. }
    set (U1 := 2 ^ (E1 + 149)) in *. set (U2 := 2 ^ (E2 + 149)) in *.
    assert (2 ^ 23 <= m1) as Hbig by lia.
    assert (2 ^ 24 * U2 * (Q1 * Q2) <= (m1 * Q1 + P1) * U1 * Q2) as Hlow.
    { replace (2 ^ 24 * U2 * (Q1 * Q2)) with ((2 ^ 23 * Q1) * (2 * U2) * Q2) by (rewrite H24; ring).
      apply Z.mul_le_mono_nonneg_r; [lia|].
      apply Z.mul_le_mono_nonneg; nia. }
    assert ((m2 * Q2 + P2) * U2 * Q1 < 2 ^ 24 * U2 * (Q1 * Q2)) as Hhigh.
    { replace (2 ^ 24 * U2 * (Q1 * Q2)) with ((2 ^ 24 * Q2) * (U2 * Q1)) by ring.
      rewrite <- Z.mul_assoc. apply Z.mul_lt_mono_pos_r; nia. }
    lia.
  - subst E2. set (U := 2 ^ (E1 + 149)) in *.
    assert ((m1 * Q1 + P1) * Q2 <= (m2 * Q2 + P2) * Q1) as Hpos.
    { apply (Z.mul_le_mono_pos_r _ _ U HU1). lia. }
    apply Z.mul_le_mono_nonneg_r; [lia|].
    assert (m1 <= m2) as Hm.
    { destruct (Z_le_gt_dec m1 m2) as [|Hbad]; [assumption|exfalso].
      assert ((m2 + 1) * (Q1 * Q2) <= (m1 * Q1 + P1) * Q2) by nia.
      assert ((m2 * Q2 + P2) * Q1 < (m2 + 1) * (Q1 * Q2)) by nia.
      lia. }
    destruct (Z.eq_dec m1 m2) as [Hsame|Hdiff]; [|lia].
    subst m2. assert (P1 * Q2 <= P2 * Q1) as Hfrac by nia.
    apply Z.add_le_mono_l. unfold nearest_even_carry.
    destruct (Z.compare_spec (2 * P1) Q1), (Z.compare_spec (2 * P2) Q2);
      destruct (Z.even m1); try lia; exfalso; nia.
Qed.

(** Rounding to nearest keeps the order: of two exact numbers
    [(m + num/den)·2^e] in order, the binary32 numbers nearest to them
    are in the same order. *)
Lemma round32_monotone (m1 e1 num1 den1 m2 e2 num2 den2 : Z) :
  0 <= m1 -> -149 <= e1 <= fexp real_prec real_emax (Zdigits2 m1 + e1) ->
  0 <= num1 < den1 ->
  0 <= m2 -> -149 <= e2 <= fexp real_prec real_emax (Zdigits2 m2 + e2) ->
  0 <= num2 < den2 ->
  (m1 * den1 + num1) * 2 ^ (e1 + 149) * den2
  <= (m2 * den2 + num2) * 2 ^ (e2 + 149) * den1 ->
  real_ge (round32 m2 e2 num2 den2) (round32 m1 e1 num1 den1) = true.
Proof.
  intros Hm1 [He1 Hpre1] Hnum1 Hm2 [He2 Hpre2] Hnum2 Hle.
  destruct (binary_round_aux_cases m1 e1 loc_Exact Hm1 Hpre1)
    as (_ & _ & _ & Hhigh1 & Hlow1 & HE1 & _).
  destruct (binary_round_aux_cases m2 e2 loc_Exact Hm2 Hpre2)
    as (_ & _ & _ & Hhigh2 & Hlow2 & HE2 & _).
  unfold round32.
  set (E1 := fexp real_prec real_emax (Zdigits2 m1 + e1)) in *.
  set (E2 := fexp real_prec real_emax (Zdigits2 m2 + e2)) in *.
  assert (2 ^ (E1 + 149) = 2 ^ (E1 - e1) * 2 ^ (e1 + 149)) as Hpow1.
  { rewrite <- Z.pow_add_r by lia. f_equal. lia. }
  assert (2 ^ (E2 + 149) = 2 ^ (E2 - e2) * 2 ^ (e2 + 149)) as Hpow2.
  { rewrite <- Z.pow_add_r by lia. f_equal. lia. }
  assert (0 < 2 ^ (E1 - e1)) as HN1 by (apply Z.pow_pos_nonneg; lia).
  assert (0 < 2 ^ (E2 - e2)) as HN2 by (apply Z.pow_pos_nonneg; lia).
  assert (0 < 2 ^ (e1 + 149)) as Hu1 by (apply Z.pow_pos_nonneg; lia).
  assert (0 < 2 ^ (e2 + 149)) as Hu2 by (apply Z.pow_pos_nonneg; lia).
  pose proof (Z.div_mod m1 (2 ^ (E1 - e1)) ltac:(lia)) as Hdm1.
  pose proof (Z.div_mod m2 (2 ^ (E2 - e2)) ltac:(lia)) as Hdm2.
  pose proof (Z.mod_pos_bound m1 (2 ^ (E1 - e1)) HN1) as Hl1.
  pose proof (Z.mod_pos_bound m2 (2 ^ (E2 - e2)) HN2) as Hl2.
  assert (0 <= m1 / 2 ^ (E1 - e1)) as Hq1 by (apply Z.div_pos; lia).
  assert (0 <= m2 / 2 ^ (E2 - e2)) as Hq2 by (apply Z.div_pos; lia).
  set (N1 := 2 ^ (E1 - e1)) in *. set (N2 := 2 ^ (E2 - e2)) in *.
  set (q1 := m1 / N1) in *. set (q2 := m2 / N2) in *.
  set (l1 := m1 mod N1) in *. set (l2 := m2 mod N2) in *.
  set (u1 := 2 ^ (e1 + 149)) in *. set (u2 := 2 ^ (e2 + 149)) in *.
  pose proof (nearest_even_carry_range q1 (l1 * den1 + num1) (N1 * den1)) as Hc1.
  pose proof (nearest_even_carry_range q2 (l2 * den2 + num2) (N2 * den2)) as Hc2.
  apply pack32_le; try lia.
  apply carry_monotone; try lia; try nia.
  rewrite Hpow1, Hpow2.
  replace ((q1 * (N1 * den1) + (l1 * den1 + num1)) * (N1 * u1) * (N2 * den2))
    with (((N1 * q1 + l1) * den1 + num1) * u1 * den2 * (N1 * N2)) by ring.
  replace ((q2 * (N2 * den2) + (l2 * den2 + num2)) * (N2 * u2) * (N1 * den1))
    with (((N2 * q2 + l2) * den2 + num2) * u2 * den1 * (N1 * N2)) by ring.
  rewrite <- Hdm1, <- Hdm2.
  apply Z.mul_le_mono_nonneg_r; [nia|exact Hle].
Qed.

Lemma new_location_at (my r : Z) :
  0 <= r < my -> loc_at (new_location my r) r my.
Proof.
  intros Hr. unfold new_location, new_location_even, new_location_odd.
  destruct (Z.even my) eqn:Heven; destruct (Z.eqb_spec r 0) as [->|Hnz];
    try reflexivity.
  - destruct (Z.compare_spec (2 * r) my); cbn [loc_at]; lia.
  - assert (my <> 2 * r) as Hodd.
    { intros ->. rewrite Z.even_mul in Heven. discriminate Heven. }
    destruct (Z.compare_spec (2 * r + 1) my); cbn [loc_at]; lia.
Qed.

(** [1.0f + t] grows with [t]. *)
Lemma add_one_monotone (m1 : positive) (e1 : Z) (m2 : positive) (e2 : Z) :
  canonical32 m1 e1 -> canonical32 m2 e2 ->
  ulps (Zpos m1) e1 <= ulps (Zpos m2) e2 ->
  real_ge (real_add (real_of_Z 1) (S754_finite false m2 e2))
          (real_add (real_of_Z 1) (S754_finite false m1 e1)) = true.
Proof.
  intros Hc1 Hc2 Hle.
  destruct (add_one_as_aux m1 e1 Hc1) as (mz1 & ez1 & -> & Hmz1 & Hez1 & Hpre1 & Hv1).
  destruct (add_one_as_aux m2 e2 Hc2) as (mz2 & ez2 & -> & Hmz2 & Hez2 & Hpre2 & Hv2).
  rewrite (binary_round_aux_at mz1 ez1 loc_Exact 0 1) by (try reflexivity; lia).
  rewrite (binary_round_aux_at mz2 ez2 loc_Exact 0 1) by (try reflexivity; lia).
  apply round32_monotone; try lia.
  unfold ulps in *. lia.
Qed.

(** [1.0f / y] falls as [y] grows, for [y >= 1]. *)
Lemma div_one_antitone (m1 : positive) (e1 : Z) (m2 : positive) (e2 : Z) :
  canonical32 m1 e1 -> canonical32 m2 e2 ->
  2 ^ 149 <= ulps (Zpos m1) e1 -> ulps (Zpos m1) e1 <= ulps (Zpos m2) e2 ->
  real_ge (real_div (real_of_Z 1) (S754_finite false m1 e1))
          (real_div (real_of_Z 1) (S754_finite false m2 e2)) = true.
Proof.
  intros Hc1 Hc2 Hone Hle.
  destruct (div_one_as_aux m1 e1 Hc1 Hone)
    as (q1 & f1 & lz1 & r1 & -> & Hq1 & Hf1 & Hpre1 & Hr1 & _ & _ & Hb1 & Heq1 & ->).
  destruct (div_one_as_aux m2 e2 Hc2 ltac:(lia))
    as (q2 & f2 & lz2 & r2 & -> & Hq2 & Hf2 & Hpre2 & Hr2 & _ & _ & Hb2 & Heq2 & ->).
  rewrite (binary_round_aux_at q1 f1 _ r1 (Zpos m1)) by (try apply new_location_at; lia).
  rewrite (binary_round_aux_at q2 f2 _ r2 (Zpos m2)) by (try apply new_location_at; lia).
  destruct Hc1 as (He1 & _ & _). destruct Hc2 as (He2 & _ & _).
  apply round32_monotone; try lia.
  rewrite Heq1, Heq2. rewrite <- !Z.pow_add_r by lia.
  replace (- e2 - f2 + (f2 + 149)) with (149 - e2) by lia.
  replace (- e1 - f1 + (f1 + 149)) with (149 - e1) by lia.
  unfold ulps in Hle.
  assert (0 < 2 ^ (e1 + 149)) as Hu1 by (apply Z.pow_pos_nonneg; lia).
  assert (0 < 2 ^ (e2 + 149)) as Hu2 by (apply Z.pow_pos_nonneg; lia).
  assert (2 ^ (149 - e1) * 2 ^ (e1 + 149) = 2 ^ 298) as Hp1.
  { rewrite <- Z.pow_add_r by lia. f_equal. lia. }
  assert (2 ^ (149 - e2) * 2 ^ (e2 + 149) = 2 ^ 298) as Hp2.
  { rewrite <- Z.pow_add_r by lia. f_equal. lia. }
  assert (0 < 2 ^ 298) as H298 by reflexivity.
  set (a1 := 2 ^ (149 - e1)) in *. set (a2 := 2 ^ (149 - e2)) in *.
  set (u1 := 2 ^ (e1 + 149)) in *. set (u2 := 2 ^ (e2 + 149)) in *.
  apply (Z.mul_le_mono_pos_r _ _ (u1 * u2) ltac:(nia)).
  replace (a2 * Zpos m1 * (u1 * u2)) with ((a2 * u2) * (Zpos m1 * u1)) by ring.
  replace (a1 * Zpos m2 * (u1 * u2)) with ((a1 * u1) * (Zpos m2 * u2)) by ring.
  rewrite Hp1, Hp2. apply Z.mul_le_mono_nonneg_l; lia.
Qed.

(** The order of the quotient [1.0f / (1.0f + t)] in [t]: the larger
    [t] gets the smaller or equal quotient. *)
Lemma sigmoid_order (t1 t2 : real_t) :
  valid_binary real_prec real_emax t1 = true ->
  valid_binary real_prec real_emax t2 = true ->
  real_ge t1 (real_of_Z 0) = true -> real_ge t2 (real_of_Z 0) = true ->
  real_ge t1 t2 = true ->
  real_ge (real_div (real_of_Z 1) (real_add (real_of_Z 1) t2))
          (real_div (real_of_Z 1) (real_add (real_of_Z 1) t1)) = true.
Proof.
  intros Hv1 Hv2 Hp1 Hp2 Hge.
  destruct (sigmoid_core t1 Hv1 Hp1) as (_ & Hlo1 & Hhi1 & _).
  destruct (sigmoid_core t2 Hv2 Hp2) as (_ & Hlo2 & Hhi2 & _).
  destruct (nonneg_cases t2 Hv2 Hp2) as [[s2 ->]|[->|(m2 & e2 & -> & Hc2)]].
  - replace (real_div (real_of_Z 1) (real_add (real_of_Z 1) (S754_zero s2)))
      with (real_of_Z 1) by (destruct s2; reflexivity).
    exact Hhi1.
  - destruct (nonneg_cases t1 Hv1 Hp1) as [[s1 ->]|[->|(m1 & e1 & -> & Hc1)]].
    + destruct s1; discriminate Hge.
    + reflexivity.
    + discriminate Hge.
  - destruct (nonneg_cases t1 Hv1 Hp1) as [[s1 ->]|[->|(m1 & e1 & -> & Hc1)]].
    + destruct s1; discriminate Hge.
    + exact Hlo2.
    + apply real_ge_canonical in Hge; [|assumption|assumption].
      pose proof (add_one_monotone m2 e2 m1 e1 Hc2 Hc1 Hge) as Hsum.
      destruct (add_one_bounds m1 e1 Hc1)
        as [[Hy1 _]|(my1 & ey1 & Hy1 & Hcy1 & Hone1 & _)];
        rewrite Hy1 in *.
      * exact Hlo2.
      * destruct (add_one_bounds m2 e2 Hc2)
          as [[Hy2 _]|(my2 & ey2 & Hy2 & Hcy2 & Hone2 & _)];
          rewrite Hy2 in *.
        -- discriminate Hsum.
        -- apply real_ge_canonical in Hsum; [|assumption|assumption].
           now apply div_one_antitone.
Qed.

(** X11.  [sigmoid] keeps the order.  Of two scores whose exponentials
    [exp(-x)] are valid non-negative binary32 numbers in order, the one
    with the smaller exponential gets the larger or equal [sigmoid]:
    neither the rounded sum nor the rounded quotient ever reverses two
    values.  With an [exp] that does not increase where [-x] decreases,
    [sigmoid] is therefore non-decreasing in the score, in binary32 as on
    the reals; it is not strictly increasing. *)
Theorem sigmoid_monotone (expf : real_t -> real_t) (x1 x2 : real_t) :
  valid_binary real_prec real_emax (expf (real_neg x1)) = true ->
  valid_binary real_prec real_emax (expf (real_neg x2)) = true ->
  real_ge (expf (real_neg x1)) (real_of_Z 0) = true ->
  real_ge (expf (real_neg x2)) (real_of_Z 0) = true ->
  real_ge (expf (real_neg x1)) (expf (real_neg x2)) = true ->
  real_ge (sigmoid expf x2) (sigmoid expf x1) = true.
Proof.
  intros Hv1 Hv2 Hp1 Hp2 Hge. unfold sigmoid.
  apply sigmoid_order; assumption.
Qed.

Lemma sigmoid_monotone_witness :
  real_ge (sigmoid (fun x => real_mul x x) (real_of_Z (-2)))
          (sigmoid (fun x => real_mul x x) (real_of_Z 3)) = true.
Proof.
  apply (sigmoid_monotone (fun x => real_mul x x) (real_of_Z 3) (real_of_Z (-2)));
    reflexivity.
Defined.

(** ** The claim on [sigmoid]: order, value at 0, elementwise use *)

(** The comparison of two numbers is turned round by negating both. *)
Lemma real_ge_neg (x y : real_t) :
  real_ge y x = true -> real_ge (real_neg x) (real_neg y) = true.
Proof.
  unfold real_ge, real_neg.
  destruct x as [sx|sx| |sx mx ex], y as [sy|sy| |sy my ey];
    try destruct sx; try destruct sy; cbn [SFopp SFcompare negb];
    intros H; try reflexivity; try discriminate H.
  - rewrite (Z.compare_antisym ey ex).
    destruct (ey ?= ex); cbn [CompOpp] in *; try reflexivity; try discriminate H.
    rewrite (Pos.compare_cont_antisym my mx Eq) in H. exact H.
  - rewrite (Z.compare_antisym ey ex).
    destruct (ey ?= ex); cbn [CompOpp] in *; try reflexivity; try discriminate H.
    rewrite (Pos.compare_cont_antisym mx my Eq). exact H.
Qed.

Lemma real_ge_not_nan (x y : real_t) :
  real_ge y x = true -> x <> S754_nan /\ y <> S754_nan.
Proof.
  unfold real_ge. intros H. split; intros ->.
  - destruct y; discriminate H.
  - discriminate H.
Qed.

Lemma exp_monotone_coarse : exp_monotone expf_coarse.
Proof.
  split.
  - intros x Hx. destruct x as [s|s| |s m e]; try congruence;
      destruct s; split; reflexivity.
  - intros x y. unfold real_ge.
    destruct x as [sx|sx| |sx mx ex], y as [sy|sy| |sy my ey];
      try destruct sx; try destruct sy; cbn [SFcompare expf_coarse];
      intros H; try reflexivity; discriminate H.
Qed.

(** With an exponential that keeps the order, [sigmoid] does not
    decrease from a score to a larger one. *)
Lemma sigmoid_nondecreasing (expf : real_t -> real_t) (x y : real_t) :
  exp_monotone expf -> real_ge y x = true ->
  real_ge (sigmoid expf y) (sigmoid expf x) = true.
Proof.
  intros [Hval Hmono] Hxy.
  destruct (real_ge_not_nan x y Hxy) as [Hx Hy].
  assert (forall z, z <> S754_nan -> real_neg z <> S754_nan) as Hneg
    by (intros z Hz; destruct z; (discriminate || congruence)).
  destruct (Hval (real_neg x) (Hneg x Hx)) as [Hvx Hpx].
  destruct (Hval (real_neg y) (Hneg y Hy)) as [Hvy Hpy].
  unfold sigmoid. apply sigmoid_order; try assumption.
  apply Hmono. now apply real_ge_neg.
Qed.

(** C6, as the code has it.  On the real numbers [x ↦ 1/(1+exp(-x))]
    is strictly increasing and is 1/2 at 0.  The binary32 code maps 0
    (of either sign) to 0.5 exactly, [exp(±0)] being 1; [Sigmoid]
    applies it elementwise ([new_pred[i] = sigmoid(pred[i])] for every
    [i]); and wherever [exp(-x)] is at most [2^-26], which it is from
    [x = 20] on, [1.0f + exp(-x)] rounds to [1.0f] and [sigmoid(x)] is
    [1.0f]: there the function is constant, so it is not strictly
    increasing.  What the code keeps of the order is the weak one:
    whenever [exp(-x) >= exp(-y)] are valid non-negative binary32
    numbers, [sigmoid(x) <= sigmoid(y)], the two roundings never
    reversing two values; hence, with an exponential that keeps the
    order, [x <= y] gives [sigmoid(x) <= sigmoid(y)]. *)
Theorem sigmoid_properties :
  (forall x y : R, (x < y)%R -> (sigmoid_R x < sigmoid_R y)%R) /\
  sigmoid_R 0 = (1 / 2)%R /\
  (forall expf, expf (S754_zero true) = real_of_Z 1 ->
     sigmoid expf (S754_zero false) = real_half) /\
  (forall expf, expf (S754_zero false) = real_of_Z 1 ->
     sigmoid expf (S754_zero true) = real_half) /\
  (forall expf x, tiny (expf (real_neg x)) = true -> sigmoid expf x = real_of_Z 1) /\
  (forall expf, libm_exp expf ->
     forall x, real_ge x (real_of_Z 20) = true -> sigmoid expf x = real_of_Z 1) /\
  (forall expf pred new_pred,
     length pred = length new_pred ->
     exists out,
       Sigmoid expf pred new_pred = Ok out /\
       length out = length pred /\
       forall i x, pred !! i = Some x -> out !! i = Some (sigmoid expf x)) /\
  (forall expf x y,
     valid_binary real_prec real_emax (expf (real_neg x)) = true ->
     valid_binary real_prec real_emax (expf (real_neg y)) = true ->
     real_ge (expf (real_neg x)) (real_of_Z 0) = true ->
     real_ge (expf (real_neg y)) (real_of_Z 0) = true ->
     real_ge (expf (real_neg x)) (expf (real_neg y)) = true ->
     real_ge (sigmoid expf y) (sigmoid expf x) = true) /\
  (forall expf, exp_monotone expf ->
     forall x y, real_ge y x = true ->
       real_ge (sigmoid expf y) (sigmoid expf x) = true).
Proof.
  split_and!.
  - exact sigmoid_R_increasing.
  - exact sigmoid_R_zero.
  - intros expf Hnzero. unfold sigmoid.
    change (real_neg (S754_zero false)) with (S754_zero true).
    rewrite Hnzero. reflexivity.
  - intros expf Hzero. unfold sigmoid.
    change (real_neg (S754_zero true)) with (S754_zero false).
    rewrite Hzero. reflexivity.
  - exact sigmoid_saturates.
  - intros expf (_ & _ & Htiny) x Hx. apply sigmoid_saturates. now apply Htiny.
  - intros expf pred new_pred Hlen. eexists.
    split; [now apply Sigmoid_value|]. split; [now rewrite length_fmap|].
    intros i x Hx. now rewrite list_lookup_fmap, Hx.
  - intros expf x y Hvx Hvy Hpx Hpy Hge. unfold sigmoid.
    apply sigmoid_order; assumption.
  - intros expf Hexp x y Hxy. now apply sigmoid_nondecreasing.
Qed.

Lemma sigmoid_properties_witness :
  ((0 < 1)%R /\
   expf_coarse (S754_zero true) = real_of_Z 1 /\
   expf_coarse (S754_zero false) = real_of_Z 1 /\
   tiny (expf_coarse (real_neg (real_of_Z 30))) = true /\
   libm_exp expf_coarse /\
   real_ge (real_of_Z 20) (real_of_Z 20) = true /\
   length test_pred = length (replicate 6 (real_of_Z 0)) /\
   real_ge (real_mul (real_neg (real_of_Z (-2))) (real_neg (real_of_Z (-2))))
           (real_of_Z 0) = true /\
   real_ge (real_mul (real_neg (real_of_Z 3)) (real_neg (real_of_Z 3)))
           (real_mul (real_neg (real_of_Z (-2))) (real_neg (real_of_Z (-2)))) = true /\
   exp_monotone expf_coarse /\
   real_ge (real_of_Z 3) (real_of_Z (-3)) = true) /\
  (sigmoid_R 0 < sigmoid_R 1)%R /\
  sigmoid expf_coarse (S754_zero false) = real_half /\
  sigmoid expf_coarse (S754_zero true) = real_half /\
  sigmoid expf_coarse (real_of_Z 30) = real_of_Z 1 /\
  sigmoid expf_coarse (real_of_Z 20) = real_of_Z 1 /\
  (exists out, Sigmoid expf_coarse test_pred (replicate 6 (real_of_Z 0)) = Ok out) /\
  real_ge (sigmoid (fun x => real_mul x x) (real_of_Z (-2)))
          (sigmoid (fun x => real_mul x x) (real_of_Z 3)) = true /\
  real_ge (sigmoid expf_coarse (real_of_Z 3)) (sigmoid expf_coarse (real_of_Z (-3))) = true.
Proof.
  assert (0 < 1)%R as H01 by exact Rlt_0_1.
  assert (expf_coarse (S754_zero true) = real_of_Z 1) as Hnzero by reflexivity.
  assert (expf_coarse (S754_zero false) = real_of_Z 1) as Hzero by reflexivity.
  assert (tiny (expf_coarse (real_neg (real_of_Z 30))) = true) as H30 by reflexivity.
  assert (real_ge (real_of_Z 20) (real_of_Z 20) = true) as H20 by reflexivity.
  assert (length test_pred = length (replicate 6 (real_of_Z 0))) as Hlen by reflexivity.
  assert (real_ge (real_mul (real_neg (real_of_Z (-2))) (real_neg (real_of_Z (-2))))
                  (real_of_Z 0) = true) as Hp2 by reflexivity.
  assert (real_ge (real_mul (real_neg (real_of_Z 3)) (real_neg (real_of_Z 3)))
                  (real_mul (real_neg (real_of_Z (-2))) (real_neg (real_of_Z (-2)))) = true)
    as Hord by reflexivity.
  assert (real_ge (real_of_Z 3) (real_of_Z (-3)) = true) as H33 by reflexivity.
  split;
    [split_and!; (assumption || exact libm_exp_coarse || exact exp_monotone_coarse)|].
  destruct sigmoid_properties
    as (Hinc & _ & Hpz & Hnz & Hsat & Hfar & Hmap & Hweak & Hmono).
  split_and!.
  - exact (Hinc 0%R 1%R H01).
  - exact (Hpz expf_coarse Hnzero).
  - exact (Hnz expf_coarse Hzero).
  - exact (Hsat expf_coarse (real_of_Z 30) H30).
  - exact (Hfar expf_coarse libm_exp_coarse (real_of_Z 20) H20).
  - destruct (Hmap expf_coarse test_pred (replicate 6 (real_of_Z 0)) Hlen) as (out & Hout & _).
    exists out. exact Hout.
  - exact (Hweak (fun x => real_mul x x) (real_of_Z 3) (real_of_Z (-2))
             eq_refl eq_refl eq_refl Hp2 Hord).
  - exact (Hmono expf_coarse exp_monotone_coarse (real_of_Z (-3)) (real_of_Z 3) H33).
Defined.

(** C6, as the spec states it, fails on the code: 20 < 30, yet with
    any exponential of the C library [sigmoid(20)] and [sigmoid(30)]
    are both [1.0f], so [sigmoid] is not strictly increasing on
    binary32. *)
Lemma sigmoid_not_strictly_increasing :
  real_lt (real_of_Z 20) (real_of_Z 30) = true /\
  (exists expf, libm_exp expf) /\
  (forall expf, libm_exp expf ->
     sigmoid expf (real_of_Z 20) = real_of_Z 1 /\
     sigmoid expf (real_of_Z 30) = real_of_Z 1 /\
     real_lt (sigmoid expf (real_of_Z 20)) (sigmoid expf (real_of_Z 30)) = false) /\
  ~ (forall expf, libm_exp expf ->
       forall x y, real_lt x y = true ->
         real_lt (sigmoid expf x) (sigmoid expf y) = true).
Proof.
  assert (forall expf, libm_exp expf ->
            sigmoid expf (real_of_Z 20) = real_of_Z 1 /\
            sigmoid expf (real_of_Z 30) = real_of_Z 1) as Hsat.
  { intros expf (_ & _ & Htiny).
    split; apply sigmoid_saturates, Htiny; reflexivity. }
  split; [reflexivity|]. split; [exists expf_coarse; exact libm_exp_coarse|]. split.
  - intros expf Hexp. destruct (Hsat expf Hexp) as [H20 H30].
    rewrite H20, H30. split; [reflexivity|]. split; reflexivity.
  - intros Hstrict.
    specialize (Hstrict expf_coarse libm_exp_coarse (real_of_Z 20) (real_of_Z 30) eq_refl).
    destruct (Hsat expf_coarse libm_exp_coarse) as [H20 H30].
    rewrite H20, H30 in Hstrict. discriminate Hstrict.
Qed.


Lemma canonical_unique (m1 : positive) (e1 : Z) (m2 : positive) (e2 : Z) :
  canonical32 m1 e1 -> canonical32 m2 e2 ->
  ulps (Zpos m1) e1 = ulps (Zpos m2) e2 -> m1 = m2 /\ e1 = e2.
Proof.
  intros Hc1 Hc2 Heq.
  pose proof (real_ge_canonical m1 e1 m2 e2 Hc1 Hc2) as H12.
  pose proof (real_ge_canonical m2 e2 m1 e1 Hc2 Hc1) as H21.
  destruct Hc1 as (He1 & Hh1 & Hl1). destruct Hc2 as (He2 & Hh2 & Hl2).
  unfold ulps in *.
  assert (0 < 2 ^ (e1 + 149)) as Hp1 by (apply Z.pow_pos_nonneg; lia).
  assert (0 < 2 ^ (e2 + 149)) as Hp2 by (apply Z.pow_pos_nonneg; lia).
  assert (e1 = e2) as ->.
  { destruct (Z.lt_trichotomy e1 e2) as [Hlt|[Hsame|Hgt]]; [exfalso|assumption|exfalso].
    - assert (2 ^ (e1 + 149) * 2 <= 2 ^ (e2 + 149)) as Hstep.
      { rewrite Z.mul_comm, <- Z.pow_succ_r by lia. apply Z.pow_le_mono_r; lia. }
      nia.
    - assert (2 ^ (e2 + 149) * 2 <= 2 ^ (e1 + 149)) as Hstep.
      { rewrite Z.mul_comm, <- Z.pow_succ_r by lia. apply Z.pow_le_mono_r; lia. }
      nia. }
  split; [|reflexivity].
  apply Z.mul_cancel_r in Heq; [|lia]. now injection Heq.
Qed.

Lemma ulps_canonical_max (m : positive) (e : Z) :
  canonical32 m e -> ulps (Zpos m) e <= ulps (Zpos 16777215) 104.
Proof.
  intros (He & Hh & _). unfold ulps.
  change (2 ^ 24) with 16777216 in Hh.
  apply Z.mul_le_mono_nonneg;
    [lia|lia|apply Z.pow_nonneg; lia|apply Z.pow_le_mono_r; lia].
Qed.

(** Binary32 has no number strictly between [2^-24] and the next one,
    [(2^23 + 1)·2^-47]. *)
Lemma above_pow2_m24 (m : positive) (e : Z) :
  canonical32 m e -> 2 ^ 125 < ulps (Zpos m) e ->
  ulps (Zpos 8388609) (-47) <= ulps (Zpos m) e.
Proof.
  intros (He & Hh & _) Hgt. unfold ulps in *.
  change (2 ^ (-47 + 149)) with (2 ^ 102).
  assert (102 <= e + 149) as Hexp.
  { destruct (Z_le_gt_dec 102 (e + 149)) as [|Hsmall]; [assumption|exfalso].
    assert (0 < 2 ^ (e + 149)) by (apply Z.pow_pos_nonneg; lia).
    assert (2 ^ (e + 149) <= 2 ^ 101) by (apply Z.pow_le_mono_r; lia).
    change (2 ^ 125) with (2 ^ 24 * 2 ^ 101) in Hgt. nia. }
  replace (e + 149) with ((e + 47) + 102) in * by lia.
  rewrite Z.pow_add_r in * by lia.
  assert (0 < 2 ^ (e + 47)) by (apply Z.pow_pos_nonneg; lia).
  change (2 ^ 125) with (8388608 * 2 ^ 102) in Hgt.
  assert (0 < 2 ^ 102) as H102 by reflexivity.
  rewrite Z.mul_assoc in *.
  apply Z.mul_le_mono_nonneg_r; [lia|].
  apply Z.mul_lt_mono_pos_r in Hgt; lia.
Qed.

(** X12.  Where [sigmoid] reaches its two ends, which depends on the
    [exp] that the call resolves to.

    With [exp] at [float] and a valid non-negative exponential,
    [sigmoid(x)] is exactly [1.0f] if and only if [exp(-x) <= 2^-24],
    and exactly [0] if and only if [exp(-x)] has overflowed to
    [+infinity]; in between it stays at least [2^-128] and at most
    [1 - 2^-23], so that for a finite [exp(-x)] the quotient never
    underflows to 0.

    With [exp] at [double] the two ends [exp(-x) = +infinity] (result 0)
    and [exp(-x) = 0] (result [1.0f]) are the same, the thresholds are
    not: [exp(-x) = 2^-24] gives [1 - 2^-24] and not [1.0f], the finite
    [exp(-x) = 2^150] gives 0, and [exp(-x) = 2^140] gives [2^-140], a
    number below [2^-128] that is not 0. *)
Theorem sigmoid_extremes :
  (forall (expf : real_t -> real_t) (x : real_t),
     valid_binary real_prec real_emax (expf (real_neg x)) = true ->
     real_ge (expf (real_neg x)) (real_of_Z 0) = true ->
     (sigmoid expf x = real_of_Z 1 <->
      real_ge (real_pow2 (-24)) (expf (real_neg x)) = true) /\
     (sigmoid expf x = S754_zero false <->
      expf (real_neg x) = S754_infinity false) /\
     (sigmoid expf x = real_of_Z 1 \/ sigmoid expf x = S754_zero false \/
      real_ge (sigmoid expf x) (real_pow2 (-128)) = true /\
      real_ge (S754_finite false 16777214 (-24)) (sigmoid expf x) = true)) /\
  (forall (exp : double_t -> double_t) (x : real_t),
     (exp (to_double (real_neg x)) = S754_infinity false ->
      sigmoid64 exp x = S754_zero false) /\
     ((exists s, exp (to_double (real_neg x)) = S754_zero s) ->
      sigmoid64 exp x = real_of_Z 1) /\
     (exp (to_double (real_neg x)) = double_pow2 (-24) ->
      sigmoid64 exp x = S754_finite false 16777215 (-24)) /\
     (exp (to_double (real_neg x)) = double_pow2 150 ->
      sigmoid64 exp x = S754_zero false) /\
     (exp (to_double (real_neg x)) = double_pow2 140 ->
      sigmoid64 exp x = real_pow2 (-140))) /\
  real_lt (S754_finite false 16777215 (-24)) (real_of_Z 1) = true /\
  real_lt (real_of_Z 0) (real_pow2 (-140)) = true /\
  real_lt (real_pow2 (-140)) (real_pow2 (-128)) = true.
Proof.
  split.
  { intros expf x.
    unfold sigmoid. generalize (expf (real_neg x)). intros t Hv Hp.
    destruct (nonneg_cases t Hv Hp) as [[s ->]|[->|(mt & et & -> & Hc)]].
    - replace (real_div (real_of_Z 1) (real_add (real_of_Z 1) (S754_zero s)))
        with (real_of_Z 1) by (destruct s; reflexivity).
      split; [|split].
      + split; [intros _; now destruct s|reflexivity].
      + split; intros H; discriminate H.
      + now left.
    - change (real_div (real_of_Z 1) (real_add (real_of_Z 1) (S754_infinity false)))
        with (S754_zero false).
      split; [|split].
      + split; intros H; discriminate H.
      + split; reflexivity.
      + right. now left.
    - pose proof (real_ge_canonical 8388608 (-47) mt et
                    ltac:(unfold canonical32; split_and!; [lia|lia|reflexivity|right; apply Z.leb_le; reflexivity])
                    Hc) as Hsmall.
      change (S754_finite false 8388608 (-47)) with (real_pow2 (-24)) in Hsmall.
      change (ulps (Zpos 8388608) (-47)) with (2 ^ 125) in Hsmall.
      assert (canonical32 8388609 (-47)) as Hcs
        by (unfold canonical32; split_and!; [lia|lia|reflexivity|right; apply Z.leb_le; reflexivity]).
      assert (canonical32 8388609 (-23)) as Hcs1
        by (unfold canonical32; split_and!; [lia|lia|reflexivity|right; apply Z.leb_le; reflexivity]).
      assert (canonical32 16777215 104) as Hcmax
        by (unfold canonical32; split_and!; [lia|lia|reflexivity|right; apply Z.leb_le; reflexivity]).
      (* the sum is finite, since [1.0f + FLT_MAX = FLT_MAX] *)
      pose proof (add_one_monotone mt et 16777215 104 Hc Hcmax (ulps_canonical_max _ _ Hc))
        as Htop.
      change (real_add (real_of_Z 1) (S754_finite false 16777215 104))
        with (S754_finite false 16777215 104) in Htop.
      destruct (add_one_bounds mt et Hc)
        as [[Hy _]|(my & ey & Hy & Hcy & Hone & _)]; rewrite Hy in *;
        [discriminate Htop|].
      apply real_ge_canonical in Htop; [|assumption|assumption].
      (* hence the quotient is at least [1.0f / FLT_MAX = 2^-128] *)
      pose proof (div_one_antitone my ey 16777215 104 Hcy Hcmax Hone Htop) as Hbot.
      change (real_div (real_of_Z 1) (S754_finite false 16777215 104))
        with (real_pow2 (-128)) in Hbot.
      assert (real_div (real_of_Z 1) (S754_finite false my ey) <> S754_zero false) as Hnz.
      { intros Hz. rewrite Hz in Hbot. discriminate Hbot. }
      assert (2 ^ 125 < ulps (Zpos mt) et ->
              real_ge (S754_finite false 16777214 (-24))
                      (real_div (real_of_Z 1) (S754_finite false my ey)) = true) as Hbelow.
      { intros Hgt. pose proof (above_pow2_m24 mt et Hc Hgt) as Hnext.
        pose proof (add_one_monotone 8388609 (-47) mt et Hcs Hc Hnext) as Hsum.
        rewrite Hy in Hsum.
        change (real_add (real_of_Z 1) (S754_finite false 8388609 (-47)))
          with (S754_finite false 8388609 (-23)) in Hsum.
        apply real_ge_canonical in Hsum; [|assumption|assumption].
        pose proof (div_one_antitone 8388609 (-23) my ey Hcs1 Hcy ltac:(vm_compute; discriminate) Hsum)
          as Hquot.
        exact Hquot. }
      assert (ulps (Zpos mt) et <= 2 ^ 125 ->
              real_div (real_of_Z 1) (S754_finite false my ey) = real_of_Z 1) as Hsat.
      { intros Hle.
        pose proof (add_one_monotone mt et 8388608 (-47) Hc
                      ltac:(unfold canonical32; split_and!; [lia|lia|reflexivity|right; apply Z.leb_le; reflexivity])
                      Hle) as Hsum.
        rewrite Hy in Hsum.
        change (real_add (real_of_Z 1) (S754_finite false 8388608 (-47)))
          with (S754_finite false 8388608 (-23)) in Hsum.
        apply real_ge_canonical in Hsum; [|exact one_canonical|assumption].
        change (ulps (Zpos 8388608) (-23)) with (2 ^ 149) in Hsum.
        destruct (canonical_unique my ey 8388608 (-23) Hcy one_canonical) as [-> ->];
          [change (ulps (Zpos 8388608) (-23)) with (2 ^ 149); lia|].
        reflexivity. }
      split; [|split].
      + split.
        * intros H1. apply Hsmall.
          destruct (Z_le_gt_dec (ulps (Zpos mt) et) (2 ^ 125)) as [|Hgt]; [assumption|].
          exfalso. specialize (Hbelow ltac:(lia)). rewrite H1 in Hbelow.
          discriminate Hbelow.
        * intros Hle. apply Hsat. now apply Hsmall.
      + split; [intros Hz; now destruct Hnz|intros Hinf; discriminate Hinf].
      + destruct (Z_le_gt_dec (ulps (Zpos mt) et) (2 ^ 125)) as [Hle|Hgt].
        * left. now apply Hsat.
        * right. right. split; [exact Hbot|apply Hbelow; lia].
  }
  split; [|split_and!; reflexivity].
  intros exp x. unfold sigmoid64. split_and!.
  - intros ->. reflexivity.
  - intros [s ->]. destruct s; vm_compute; reflexivity.
  - intros ->. vm_compute. reflexivity.
  - intros ->. vm_compute. reflexivity.
  - intros ->. vm_compute. reflexivity.
Qed.

Lemma sigmoid_extremes_witness :
  sigmoid (fun _ => real_pow2 (-24)) (real_of_Z 17) = real_of_Z 1 /\
  sigmoid expf_coarse (real_of_Z (-3)) = S754_zero false /\
  sigmoid64 (fun _ => double_pow2 (-24)) (real_of_Z 17) = S754_finite false 16777215 (-24) /\
  sigmoid64 (fun _ => double_pow2 150) (real_of_Z (-104)) = S754_zero false.
Proof.
  destruct sigmoid_extremes as (H32 & H64 & _).
  split_and!.
  - apply (H32 (fun _ => real_pow2 (-24)) (real_of_Z 17)); reflexivity.
  - apply (H32 expf_coarse (real_of_Z (-3))); reflexivity.
  - apply (H64 (fun _ => double_pow2 (-24)) (real_of_Z 17)); reflexivity.
  - apply (H64 (fun _ => double_pow2 150) (real_of_Z (-104))); reflexivity.
Defined.

Lemma real_lt_canonical (m1 : positive) (e1 : Z) (m2 : positive) (e2 : Z) :
  canonical32 m1 e1 -> canonical32 m2 e2 ->
  real_lt (S754_finite false m1 e1) (S754_finite false m2 e2) = true <->
  ulps (Zpos m1) e1 < ulps (Zpos m2) e2.
Proof.
  intros Hc1 Hc2.
  pose proof (real_ge_canonical m1 e1 m2 e2 Hc1 Hc2) as Hge.
  unfold real_lt, SFltb. unfold real_ge in Hge.
  cbn [SFcompare] in *.
  destruct (match e1 ?= e2 with
            | Eq => Pos.compare_cont Eq m1 m2
            | Lt => Lt
            | Gt => Gt
            end); split; intros H; try reflexivity; try discriminate H.
  - assert (true = true) as Ht by reflexivity. apply Hge in Ht. lia.
  - destruct (Z_lt_le_dec (ulps (Zpos m1) e1) (ulps (Zpos m2) e2)) as [|Hle];
      [assumption|]. apply Hge in Hle. discriminate Hle.
  - assert (true = true) as Ht by reflexivity. apply Hge in Ht. lia.
Qed.

(** Binary32 numbers lie on a grid: above [K·2^g], with [K] of 24 bits,
    the next one is [(K+1)·2^g] or further, and below it the previous
    one is [(K-1)·2^g] or further. *)
Lemma next_float_above (m : positive) (e K g : Z) :
  canonical32 m e -> 2 ^ 23 <= K -> 0 <= g ->
  K * 2 ^ g < ulps (Zpos m) e -> (K + 1) * 2 ^ g <= ulps (Zpos m) e.
Proof.
  intros (He & Hh & _) HK Hg Hgt. unfold ulps in *.
  assert (0 < 2 ^ g) as Hpg by (apply Z.pow_pos_nonneg; lia).
  assert (g <= e + 149) as Hexp.
  { destruct (Z_le_gt_dec g (e + 149)) as [|Hsmall]; [assumption|exfalso].
    assert (0 < 2 ^ (e + 149)) by (apply Z.pow_pos_nonneg; lia).
    assert (2 * 2 ^ (e + 149) <= 2 ^ g).
    { rewrite <- Z.pow_succ_r by lia. apply Z.pow_le_mono_r; lia. }
    change (2 ^ 24) with (2 * 2 ^ 23) in Hh. nia. }
  replace (e + 149) with ((e + 149 - g) + g) in * by lia.
  rewrite Z.pow_add_r in * by lia.
  assert (0 < 2 ^ (e + 149 - g)) by (apply Z.pow_pos_nonneg; lia).
  rewrite Z.mul_assoc in *.
  apply Z.mul_le_mono_nonneg_r; [lia|].
  apply Z.mul_lt_mono_pos_r in Hgt; lia.
Qed.

Lemma prev_float_below (m : positive) (e K g : Z) :
  canonical32 m e -> 2 ^ 23 < K -> 0 <= g ->
  ulps (Zpos m) e < K * 2 ^ g -> ulps (Zpos m) e <= (K - 1) * 2 ^ g.
Proof.
  intros (He & Hh & _) HK Hg Hlt. unfold ulps in *.
  assert (0 < 2 ^ g) as Hpg by (apply Z.pow_pos_nonneg; lia).
  destruct (Z_le_gt_dec g (e + 149)) as [Hexp|Hsmall].
  - replace (e + 149) with ((e + 149 - g) + g) in * by lia.
    rewrite Z.pow_add_r in * by lia.
    assert (0 < 2 ^ (e + 149 - g)) by (apply Z.pow_pos_nonneg; lia).
    rewrite Z.mul_assoc in *.
    apply Z.mul_le_mono_nonneg_r; [lia|].
    apply Z.mul_lt_mono_pos_r in Hlt; lia.
  - assert (0 < 2 ^ (e + 149)) by (apply Z.pow_pos_nonneg; lia).
    assert (2 * 2 ^ (e + 149) <= 2 ^ g).
    { rewrite <- Z.pow_succ_r by lia. apply Z.pow_le_mono_r; lia. }
    change (2 ^ 24) with (2 * 2 ^ 23) in Hh. nia.
Qed.

(** The quotient [1.0f / (1.0f + t)] against one half, strictly. *)
Lemma sigmoid_half_core (t : real_t) :
  valid_binary real_prec real_emax t = true -> real_ge t (real_of_Z 0) = true ->
  let r := real_div (real_of_Z 1) (real_add (real_of_Z 1) t) in
  (real_lt real_half r = true <-> real_ge (S754_finite false 16777214 (-24)) t = true) /\
  (real_lt r real_half = true <-> real_ge t (S754_finite false 8388610 (-23)) = true).
Proof.
  intros Hv Hp r. subst r.
  destruct (nonneg_cases t Hv Hp) as [[s ->]|[->|(mt & et & -> & Hc)]].
  - destruct s; vm_compute; split; split; intros H; congruence.
  - vm_compute; split; split; intros H; congruence.
  - assert (forall m e, (-149 <=? e) && (e <=? 104) && (Zpos m <? 2 ^ 24)
                        && (2 ^ 23 <=? Zpos m) = true -> canonical32 m e) as Hcan.
    { intros m e H. apply andb_true_iff in H as [H H4].
      apply andb_true_iff in H as [H H3]. apply andb_true_iff in H as [H1 H2].
      unfold canonical32. lia. }
    assert (canonical32 16777214 (-24)) as Hca by (apply Hcan; reflexivity).
    assert (canonical32 16777215 (-24)) as Hcb by (apply Hcan; reflexivity).
    assert (canonical32 8388609 (-23)) as Hcc by (apply Hcan; reflexivity).
    assert (canonical32 8388610 (-23)) as Hcd by (apply Hcan; reflexivity).
    assert (canonical32 16777215 (-23)) as Hya by (apply Hcan; reflexivity).
    assert (canonical32 8388608 (-22)) as Hyb by (apply Hcan; reflexivity).
    assert (canonical32 8388609 (-22)) as Hyd by (apply Hcan; reflexivity).
    assert (canonical32 8388609 (-24)) as Hra by (apply Hcan; reflexivity).
    assert (canonical32 16777214 (-25)) as Hrd by (apply Hcan; reflexivity).
    pose proof (real_ge_canonical 16777214 (-24) mt et Hca Hc) as Hlow.
    pose proof (real_ge_canonical mt et 8388610 (-23) Hc Hcd) as Hhigh.
    change (ulps (Zpos 16777214) (-24)) with (16777214 * 2 ^ 125) in *.
    change (ulps (Zpos 8388610) (-23)) with (8388610 * 2 ^ 126) in *.
    assert (2 ^ 126 = 2 * 2 ^ 125) as H126 by reflexivity.
    assert (0 < 2 ^ 125) as H125 by reflexivity.
    assert (2 ^ 149 = 8388608 * 2 ^ 126) as H149 by reflexivity.
    (* the four sums at the two thresholds and next to them *)
    pose proof (fun H => add_one_monotone mt et 16777214 (-24) Hc Hca H) as Sa.
    pose proof (fun H => add_one_monotone 16777215 (-24) mt et Hcb Hc H) as Sb.
    pose proof (fun H => add_one_monotone mt et 8388609 (-23) Hc Hcc H) as Sc.
    pose proof (fun H => add_one_monotone 8388610 (-23) mt et Hcd Hc H) as Sd.
    change (real_add (real_of_Z 1) (S754_finite false 16777214 (-24)))
      with (S754_finite false 16777215 (-23)) in Sa.
    change (real_add (real_of_Z 1) (S754_finite false 16777215 (-24)))
      with (S754_finite false 8388608 (-22)) in Sb.
    change (real_add (real_of_Z 1) (S754_finite false 8388609 (-23)))
      with (S754_finite false 8388608 (-22)) in Sc.
    change (real_add (real_of_Z 1) (S754_finite false 8388610 (-23)))
      with (S754_finite false 8388609 (-22)) in Sd.
    change (ulps (Zpos 16777214) (-24)) with (16777214 * 2 ^ 125) in *.
    change (ulps (Zpos 16777215) (-24)) with (16777215 * 2 ^ 125) in *.
    change (ulps (Zpos 8388609) (-23)) with (8388609 * 2 ^ 126) in *.
    change (ulps (Zpos 8388610) (-23)) with (8388610 * 2 ^ 126) in *.
    pose proof (next_float_above mt et 16777214 125 Hc ltac:(vm_compute; discriminate)
                  ltac:(lia)) as Hnext.
    pose proof (prev_float_below mt et 8388610 126 Hc ltac:(reflexivity) ltac:(lia))
      as Hprev.
    replace (16777214 + 1) with 16777215 in Hnext by reflexivity.
    replace (8388610 - 1) with 8388609 in Hprev by reflexivity.
    destruct (add_one_bounds mt et Hc)
      as [[Hy Hbig]|(my & ey & Hy & Hcy & Hone & _)]; rewrite Hy in *.
    + (* the sum has overflowed: the quotient is 0 *)
      change (real_div (real_of_Z 1) (S754_infinity false)) with (S754_zero false).
      split; split; intros H; try reflexivity.
      * discriminate H.
      * apply Hlow in H. lia.
      * apply Hhigh.
        destruct (Z_le_gt_dec (8388610 * 2 ^ 126) (ulps (Zpos mt) et)) as [|Hlt];
          [assumption|exfalso].
        specialize (Sc (Hprev ltac:(lia))). discriminate Sc.
    + pose proof (fun H => div_one_antitone my ey 16777215 (-23) Hcy Hya Hone H) as Da.
      pose proof (fun H => div_one_antitone 8388608 (-22) my ey Hyb Hcy
                             ltac:(vm_compute; discriminate) H) as Db.
      pose proof (fun H => div_one_antitone my ey 8388608 (-22) Hcy Hyb Hone H) as Dc.
      pose proof (fun H => div_one_antitone 8388609 (-22) my ey Hyd Hcy
                             ltac:(vm_compute; discriminate) H) as Dd.
      change (real_div (real_of_Z 1) (S754_finite false 16777215 (-23)))
        with (S754_finite false 8388609 (-24)) in Da.
      change (real_div (real_of_Z 1) (S754_finite false 8388608 (-22)))
        with (S754_finite false 8388608 (-24)) in Db, Dc.
      change (real_div (real_of_Z 1) (S754_finite false 8388609 (-22)))
        with (S754_finite false 16777214 (-25)) in Dd.
      pose proof (fun H => proj1 (real_ge_canonical _ _ _ _ Hya Hcy) (Sa H)) as Sa'.
      pose proof (fun H => proj1 (real_ge_canonical _ _ _ _ Hcy Hyb) (Sb H)) as Sb'.
      pose proof (fun H => proj1 (real_ge_canonical _ _ _ _ Hyb Hcy) (Sc H)) as Sc'.
      pose proof (fun H => proj1 (real_ge_canonical _ _ _ _ Hcy Hyd) (Sd H)) as Sd'.
      change real_half with (S754_finite false 8388608 (-24)).
      destruct (div_one_bounds my ey Hcy Hone)
        as [[Hr Hbig]|(m & e & Hr & Hcr & _)]; rewrite Hr in *.
      * (* the quotient is 0: the sum is above 2 *)
        split; split; intros H; try reflexivity.
        -- discriminate H.
        -- apply Hlow in H. specialize (Da (Sa' H)). discriminate Da.
        -- apply Hhigh.
           destruct (Z_le_gt_dec (8388610 * 2 ^ 126) (ulps (Zpos mt) et)) as [|Hlt];
             [assumption|exfalso].
           specialize (Dc (Sc' (Hprev ltac:(lia)))). discriminate Dc.
      * pose proof (real_lt_canonical 8388608 (-24) m e half_canonical Hcr) as Lgt.
        pose proof (real_lt_canonical m e 8388608 (-24) Hcr half_canonical) as Llt.
        pose proof (fun H => proj1 (real_ge_canonical _ _ _ _ Hcr Hra) (Da H)) as Da'.
        pose proof (fun H => proj1 (real_ge_canonical _ _ _ _ half_canonical Hcr) (Db H)) as Db'.
        pose proof (fun H => proj1 (real_ge_canonical _ _ _ _ Hcr half_canonical) (Dc H)) as Dc'.
        pose proof (fun H => proj1 (real_ge_canonical _ _ _ _ Hrd Hcr) (Dd H)) as Dd'.
        change (ulps (Zpos 8388609) (-24)) with (8388609 * 2 ^ 125) in *.
        change (ulps (Zpos 8388608) (-24)) with (8388608 * 2 ^ 125) in *.
        change (ulps (Zpos 16777214) (-25)) with (8388607 * 2 ^ 125) in *.
        split; split; intros H.
        -- apply Hlow.
           destruct (Z_le_gt_dec (ulps (Zpos mt) et) (16777214 * 2 ^ 125)) as [|Hgt];
             [assumption|exfalso].
           apply Lgt in H. specialize (Db' (Sb' (Hnext ltac:(lia)))). lia.
        -- apply Lgt. apply Hlow in H. specialize (Da' (Sa' H)). lia.
        -- apply Hhigh.
           destruct (Z_le_gt_dec (8388610 * 2 ^ 126) (ulps (Zpos mt) et)) as [|Hlt];
             [assumption|exfalso].
           apply Llt in H. specialize (Dc' (Sc' (Hprev ltac:(lia)))). lia.
        -- apply Llt. apply Hhigh in H. specialize (Dd' (Sd' H)). lia.
Qed.

Lemma sigmoid_half_iff (expf : real_t -> real_t) (x : real_t) :
  valid_binary real_prec real_emax (expf (real_neg x)) = true ->
  real_ge (expf (real_neg x)) (real_of_Z 0) = true ->
  (real_lt real_half (sigmoid expf x) = true <->
   real_ge (S754_finite false 16777214 (-24)) (expf (real_neg x)) = true) /\
  (real_lt (sigmoid expf x) real_half = true <->
   real_ge (expf (real_neg x)) (S754_finite false 8388610 (-23)) = true).
Proof. intros Hv Hp. exact (sigmoid_half_core _ Hv Hp). Qed.

(** X13.  [sigmoid] against one half, strictly, which depends on the
    [exp] that the call resolves to.

    With [exp] at [float] and a valid non-negative exponential,
    [sigmoid(x) > 0.5] if and only if [exp(-x) <= 1 - 2^-23] (mantissa
    16777214 at exponent -24), and [sigmoid(x) < 0.5] if and only if
    [exp(-x) >= 1 + 2^-22] (mantissa 8388610 at exponent -23).  The three
    binary32 numbers in between, [1 - 2^-24], [1] and [1 + 2^-23], all
    give exactly [0.5]: the sum [1.0f + exp(-x)] rounds to [2.0f] for
    each of them.

    With [exp] at [double] the sum is not rounded to binary32, and the
    interval that gives [0.5] is narrower: [exp(-x) = 1 + 2^-23] gives
    [0.5 - 2^-25], which is less than [0.5], where the [float] code gives
    [0.5]; [exp(-x) = 1] gives [0.5] in both. *)
Theorem sigmoid_half_strict :
  (forall (expf : real_t -> real_t) (x : real_t),
     valid_binary real_prec real_emax (expf (real_neg x)) = true ->
     real_ge (expf (real_neg x)) (real_of_Z 0) = true ->
     (real_lt real_half (sigmoid expf x) = true <->
      real_ge (S754_finite false 16777214 (-24)) (expf (real_neg x)) = true) /\
     (real_lt (sigmoid expf x) real_half = true <->
      real_ge (expf (real_neg x)) (S754_finite false 8388610 (-23)) = true) /\
     (real_lt (S754_finite false 16777214 (-24)) (expf (real_neg x)) = true ->
      real_lt (expf (real_neg x)) (S754_finite false 8388610 (-23)) = true ->
      sigmoid expf x = real_half)) /\
  (forall (exp : double_t -> double_t) (x : real_t),
     (exp (to_double (real_neg x)) = to_double (S754_finite false 8388609 (-23)) ->
      sigmoid64 exp x = S754_finite false 16777215 (-25) /\
      real_lt (sigmoid64 exp x) real_half = true) /\
     (exp (to_double (real_neg x)) = to_double (real_of_Z 1) ->
      sigmoid64 exp x = real_half)) /\
  (forall (expf : real_t -> real_t) (x : real_t),
     expf (real_neg x) = S754_finite false 8388609 (-23) ->
     sigmoid expf x = real_half).
Proof.
  split.
  { intros expf x.
    intros Hv Hp. pose proof (sigmoid_half_iff expf x Hv Hp) as [Hgt Hlt].
    pose proof (sigmoid_core _ Hv Hp) as (Hvr & Hpr & _).
    unfold sigmoid. split; [exact Hgt|]. split; [exact Hlt|].
    intros Ha Hb. apply real_lt_not_ge in Ha, Hb.
    set (r := real_div (real_of_Z 1) (real_add (real_of_Z 1) (expf (real_neg x)))) in *.
    assert (real_lt real_half r = false) as Hngt.
    { apply not_true_is_false. intros E. apply Hgt in E. congruence. }
    assert (real_lt r real_half = false) as Hnlt.
    { apply not_true_is_false. intros E. apply Hlt in E. congruence. }
    destruct (nonneg_cases r Hvr Hpr) as [[s ->]|[->|(m & e & -> & Hc)]].
    - destruct s; discriminate Hnlt.
    - discriminate Hngt.
    - pose proof (real_lt_canonical 8388608 (-24) m e half_canonical Hc) as L1.
      pose proof (real_lt_canonical m e 8388608 (-24) Hc half_canonical) as L2.
      change (S754_finite false 8388608 (-24)) with real_half in L1, L2.
      destruct (canonical_unique m e 8388608 (-24) Hc half_canonical) as [-> ->];
        [|reflexivity].
      destruct (Z.lt_trichotomy (ulps (Zpos m) e) (ulps (Zpos 8388608) (-24)))
        as [H|[H|H]]; [apply L2 in H; congruence|exact H|apply L1 in H; congruence].
  }
  split.
  - intros exp x. unfold sigmoid64. split.
    + intros ->. vm_compute. split; reflexivity.
    + intros ->. vm_compute. reflexivity.
  - intros expf x. unfold sigmoid. intros ->. reflexivity.
Qed.

Lemma sigmoid_half_strict_witness :
  real_lt real_half (sigmoid (fun _ => real_half) (real_of_Z 1)) = true /\
  real_lt (sigmoid (fun _ => real_of_Z 3) (real_of_Z (-1))) real_half = true /\
  sigmoid (fun _ => S754_finite false 16777215 (-24)) (real_of_Z 0) = real_half /\
  sigmoid (fun _ => S754_finite false 8388609 (-23)) (real_of_Z 0) = real_half /\
  real_lt (sigmoid64 (fun _ => to_double (S754_finite false 8388609 (-23))) (real_of_Z 0))
          real_half = true.
Proof.
  destruct sigmoid_half_strict as (H32 & H64 & Hsame).
  split_and!.
  - apply (H32 (fun _ => real_half) (real_of_Z 1)); reflexivity.
  - apply (H32 (fun _ => real_of_Z 3) (real_of_Z (-1))); reflexivity.
  - apply (H32 (fun _ => S754_finite false 16777215 (-24)) (real_of_Z 0)); reflexivity.
  - apply (Hsame (fun _ => S754_finite false 8388609 (-23)) (real_of_Z 0)); reflexivity.
  - apply (H64 (fun _ => to_double (S754_finite false 8388609 (-23))) (real_of_Z 0));
      reflexivity.
Defined.


